(** * Lunori front end: dashboard aggregates, history search, the
      live-recording coordinator and the entry editor of
      [frontend/app.js]

    The development embeds the functions of [frontend/app.js] as Rocq
    functions and states the properties of the journaling client about
    them.  JavaScript values are modelled as follows.

    - A [Date] is the number of milliseconds of local wall-clock time
      since the local midnight of 1970-01-01 (a fixed offset from UTC
      is assumed, i.e. no daylight-saving jump inside the scanned
      range); its calendar fields follow the proleptic Gregorian
      calendar, as the language prescribes.
    - Strings are sequences of bytes; case mapping and white space are
      those of the ASCII range.
    - A JS [Set] of strings is a [gset], a JS object used as a counter
      table is a [gmap].
    - A [Blob] is the list of its bytes; [new Blob(parts)] concatenates.
    - [null]/[undefined] fields are [option]s; a thrown [Error] is the
      left injection of a sum.
    - The click handler of the record button is described twice: run
      without interruption ([recordBtn_click]), and as a machine whose
      handlers are suspended at their awaits, where a further click
      can be handled in between ([happen]). *)

From Stdlib Require Import ZArith Lia List String Ascii Bool.
From stdpp Require Import base option list gmap strings pretty.

Local Open Scope Z_scope.

(** ** JavaScript string helpers (ASCII range) *)

Module JsString.

Local Open Scope nat_scope.

Definition is_upper (c : ascii) : bool :=
  let n := nat_of_ascii c in (65 <=? n) && (n <=? 90).

Definition lower_char (c : ascii) : ascii :=
  if is_upper c then ascii_of_nat (nat_of_ascii c + 32) else c.

Fixpoint toLowerCase (s : string) : string :=
  match s with
  | EmptyString => EmptyString
  | String c s' => String (lower_char c) (toLowerCase s')
  end.

(** The ASCII members of the regular-expression class [\s], which are
    also the characters [trim] strips. *)
Definition is_space (c : ascii) : bool :=
  let n := nat_of_ascii c in ((9 <=? n) && (n <=? 13)) || (n =? 32).

(** The class [[a-z0-9]]. *)
Definition is_lower_alnum (c : ascii) : bool :=
  let n := nat_of_ascii c in
  ((97 <=? n) && (n <=? 122)) || ((48 <=? n) && (n <=? 57)).

Definition is_empty (s : string) : bool :=
  match s with EmptyString => true | _ => false end.

Fixpoint trimStart (s : string) : string :=
  match s with
  | EmptyString => EmptyString
  | String c s' => if is_space c then trimStart s' else s
  end.

Fixpoint trimEnd (s : string) : string :=
  match s with
  | EmptyString => EmptyString
  | String c s' =>
      let r := trimEnd s' in
      if is_space c && is_empty r then EmptyString else String c r
  end.

Definition trim (s : string) : string := trimEnd (trimStart s).

(** [s.split(/sep+/)]: [cur] is the piece being read, [in_run] tells
    whether the previous character was a separator. *)
Fixpoint split_go (sep : ascii -> bool) (s cur : string) (in_run : bool)
  : list string :=
  match s with
  | EmptyString => [cur]
  | String c s' =>
      if sep c
      then if in_run then split_go sep s' cur true
           else cur :: split_go sep s' EmptyString true
      else split_go sep s' (String.append cur (String c EmptyString)) false
  end.

Definition split_runs (sep : ascii -> bool) (s : string) : list string :=
  split_go sep s EmptyString false.

(** [.filter(Boolean)] on an array of strings. *)
Definition filter_Boolean (l : list string) : list string :=
  List.filter (fun s => negb (is_empty s)) l.

(** [s.includes(t)]. *)
Fixpoint includes (s t : string) : bool :=
  String.prefix t s ||
  match s with
  | EmptyString => false
  | String _ s' => includes s' t
  end.

(** [l.join(' ')]. *)
Definition join_space (l : list string) : string := String.concat " "%string l.

(** [s.slice(0, n)]. *)
Definition slice0 (n : nat) (s : string) : string := String.substring 0 n s.

(** [s.padStart(n, c)] for a one-character filler. *)
Definition padStart (n : nat) (c : ascii) (s : string) : string :=
  String.append (string_of_list_ascii (replicate (n - String.length s) c)) s.

(** [Array.from(new Set(l))]: first occurrences, in insertion order. *)
Definition dedup (l : list string) : list string :=
  foldl (fun acc x => if bool_decide (x ∈ acc) then acc else acc ++ [x]) [] l.

End JsString.

(** ** Date helpers *)

Definition Date := Z.

Definition msPerDay : Z := 86400000.

(** Number of the local calendar day of [d], day 0 being 1970-01-01. *)
Definition local_day (d : Date) : Z := d / msPerDay.

(** Year, month (1 to 12) and day of the month of the day numbered
    [z]: the calendar behind [getFullYear], [getMonth] and [getDate].
    The computation works in cycles of 400 years (146097 days) that
    begin on a first of March. *)
Definition civil_from_days (z : Z) : Z * Z * Z :=
  let z := z + 719468 in
  let era := z / 146097 in
  let doe := z mod 146097 in
  let yoe := (doe - doe / 1460 + doe / 36524 - doe / 146096) / 365 in
  let doy := doe - (365 * yoe + yoe / 4 - yoe / 100) in
  let mp := (5 * doy + 2) / 153 in
  let d := doy - (153 * mp + 2) / 5 + 1 in
  let m := if mp <? 10 then mp + 3 else mp - 9 in
  (yoe + era * 400 + (if m <=? 2 then 1 else 0), m, d).

Definition getFullYear (d : Date) : Z := fst (fst (civil_from_days (local_day d))).

(** Months are numbered from 0. *)
Definition getMonth (d : Date) : Z := snd (fst (civil_from_days (local_day d))) - 1.

Definition getDate (d : Date) : Z := snd (civil_from_days (local_day d)).

(** [d.setHours(0,0,0,0)]: back to local midnight. *)
Definition setHours0 (d : Date) : Date := d - d mod msPerDay.

(** [d.setDate(n)]: the day of the month becomes [n], the date moving
    into a neighbouring month when [n] is out of range. *)
Definition setDate (d : Date) (n : Z) : Date := d + (n - getDate d) * msPerDay.

(** [ymd(d)]: the local day as [Y-MM-DD]. *)
Definition ymd (d : Date) : string :=
  let y := getFullYear d in
  let m := JsString.padStart 2 "0" (pretty (getMonth d + 1)) in
  let da := JsString.padStart 2 "0" (pretty (getDate d)) in
  String.append (pretty y)
    (String.append "-" (String.append m (String.append "-" da))).

(** An emotion of [emotions_top3]; only its label is read here. *)
Record Emotion := { label : string }.

(** One item of the cached [/entries] list.  The three underscore
    fields are the ones [ensureEntryCached] attaches lazily. *)
Record Entry := {
  id : nat;
  created_at : option string;
  emotions_top3 : option (list Emotion);
  _transcript : option string;
  _imageTags : option (list string);
  _emotions_all : option (list (string * nat))
}.

(** JS truthiness of a possibly missing string. *)
Definition truthy (s : option string) : option string :=
  match s with
  | Some EmptyString => None
  | other => other
  end.

Section Dashboard.

(** The clock ([new Date()]) and the engine's date parser
    ([new Date(s)], [None] being the Invalid Date). One computation
    reads the clock several times; the readings are taken to be the
    same instant. *)
Variable now : Date.
Variable parseDate : string -> option Date.

Definition parseLocalDateFromISOish (s : option string) : option Date :=
  match truthy s with
  | None => None
  | Some s' => match parseDate s' with
               | None => Some now
               | Some d => Some d
               end
  end.

Definition daysAgoDate (n : Z) : Date :=
  let d := setHours0 now in
  setDate d (getDate d - n).

(** [Array.isArray(it.emotions_top3) && it.emotions_top3[0]] followed
    by the test [top && top.label]. *)
Definition top_label (it : Entry) : option string :=
  match emotions_top3 it with
  | Some (e :: _) => truthy (Some (label e))
  | _ => None
  end.

Definition weekly_step (start : Date) (counts : gmap string nat) (it : Entry)
  : gmap string nat :=
  match parseLocalDateFromISOish (created_at it) with
  | None => counts
  | Some d =>
      if d <? start then counts
      else match top_label it with
           | Some l => <[ l := (default 0 (counts !! l) + 1)%nat ]> counts
           | None => counts
           end
  end.

Definition computeWeeklyTop1Counts (items : list Entry) : gmap string nat :=
  let start := daysAgoDate 6 in
  foldl (weekly_step start) ∅ items.

(** The body of the [for] loop of [computeStreakWithGrace]; [n] is the
    number of iterations left. *)
Fixpoint streak_loop (set : gset string) (n : nat) (d : Date)
    (streak consecutiveMisses : nat) : nat :=
  match n with
  | O => streak
  | S n' =>
      if bool_decide (ymd d ∈ set)
      then streak_loop set n' (setDate d (getDate d - 1)) (S streak) 0
      else if (2 <=? S consecutiveMisses)%nat then streak
           else streak_loop set n' (setDate d (getDate d - 1)) streak (S consecutiveMisses)
  end.

(** The keys put into the [Set]; [ymd(null)] is a [TypeError], which
    aborts the whole computation ([None]). *)
Definition entry_key (it : Entry) : option string :=
  ymd <$> parseLocalDateFromISOish (created_at it).

Definition computeStreakWithGrace (items : list Entry) : option nat :=
  keys ← mapM entry_key items;
  let set : gset string := list_to_set keys in
  Some (streak_loop set 365 (setHours0 now) 0 0).

End Dashboard.

(** ** Entry cache and search *)

Record Image := {
  filename : string;
  caption : option string;
  tags : option (list string)
}.

(** The body of [GET /entries/:id]. *)
Record FullEntry := {
  transcript : option string;
  images : option (list Image);
  emotions_all : option (list (string * nat))
}.

(** The client-side store: the objects of [allEntries], addressed by
    position (an object keeps its position for the lifetime of the
    cache), and the log of [fetchEntry] requests sent so far. *)
Record Store := {
  allEntries : list Entry;
  fetchLog : list nat
}.

(** Statement that may throw an [Error] carrying a message. *)
Definition Thrown (A : Type) : Type := (string + A)%type.

Definition StoreM (A : Type) : Type := Store -> Thrown A * Store.

Definition sret {A} (a : A) : StoreM A := fun st => (inr a, st).

Definition sbind {A B} (m : StoreM A) (k : A -> StoreM B) : StoreM B :=
  fun st => match m st with
            | (inl e, st') => (inl e, st')
            | (inr a, st') => k a st'
            end.

Notation "'run' x <~ m ;; k" := (sbind m (fun x => k))
  (at level 10, x name, m at level 99, k at level 200).

(** [typeof it._transcript === 'string' && Array.isArray(it._imageTags)] *)
Definition hydrated (it : Entry) : bool :=
  match _transcript it, _imageTags it with
  | Some _, Some _ => true
  | _, _ => false
  end.

Definition image_words (im : Image) : list string :=
  List.map JsString.toLowerCase (default [] (tags im)) ++
  match truthy (caption im) with
  | Some c => JsString.filter_Boolean
                (JsString.split_runs (fun a => negb (JsString.is_lower_alnum a))
                   (JsString.toLowerCase c))
  | None => []
  end.

(** The assignments made once the full entry has arrived. *)
Definition memoize (it : Entry) (full : FullEntry) : Entry :=
  {| id := id it;
     created_at := created_at it;
     emotions_top3 := emotions_top3 it;
     _transcript := Some (default EmptyString (truthy (transcript full)));
     _imageTags :=
       Some (JsString.dedup (List.concat (List.map image_words (default [] (images full)))));
     _emotions_all := emotions_all full |}.

(** [ensureEntryCached] up to its [await]: test the object at position
    [i] and, when it is not hydrated, send the request. The result tells
    whether a response is now awaited. *)
Definition ensure_call (i : nat) (st : Store) : bool * Store :=
  match allEntries st !! i with
  | Some it =>
      if hydrated it then (false, st)
      else (true, {| allEntries := allEntries st; fetchLog := fetchLog st ++ [id it] |})
  | None => (false, st)
  end.

(** [ensureEntryCached] after its [await]: [fetchEntry] threw or
    returned the full entry, which is memoized on the object. *)
Definition ensure_resume (i : nat) (resp : Thrown FullEntry) (st : Store)
  : Thrown unit * Store :=
  match resp with
  | inl e => (inl e, st)
  | inr full =>
      match allEntries st !! i with
      | Some it =>
          (inr tt, {| allEntries := <[ i := memoize it full ]> (allEntries st);
                      fetchLog := fetchLog st |})
      | None => (inr tt, st)
      end
  end.

(** What an entry is matched on: its lowercased transcript and its
    joined tags. *)
Definition entry_text (it : Entry) : string :=
  JsString.toLowerCase (default EmptyString (_transcript it)).

Definition entry_tags (it : Entry) : string :=
  JsString.join_space (default [] (_imageTags it)).

Definition entry_ok (terms : list string) (it : Entry) : bool :=
  forallb (fun t => JsString.includes (entry_text it) t
                    || JsString.includes (entry_tags it) t) terms.

Definition query_terms (q : string) : list string :=
  JsString.filter_Boolean
    (JsString.split_runs JsString.is_space (JsString.toLowerCase q)).

Section Search.

(** The remote entry store behind [fetchEntry]. *)
Variable remote : nat -> Thrown FullEntry.

(** [ensureEntryCached] run without interruption. *)
Definition ensureEntryCached (i : nat) : StoreM unit :=
  fun st =>
    match ensure_call i st with
    | (true, st') =>
        match allEntries st' !! i with
        | Some it => ensure_resume i (remote (id it)) st'
        | None => (inr tt, st')
        end
    | (false, st') => (inr tt, st')
    end.

(** The [for (const it of items)] loop; [i] is the position of the
    next object and [n] the number of objects left. *)
Fixpoint search_loop (terms : list string) (n i : nat) (results : list Entry)
  : StoreM (list Entry) :=
  match n with
  | O => sret results
  | S n' =>
      run u <~ ensureEntryCached i ;;
      fun st =>
        match allEntries st !! i with
        | Some it =>
            search_loop terms n' (S i)
              (if entry_ok terms it then results ++ [it] else results) st
        | None => search_loop terms n' (S i) results st
        end
  end.

(** [renderHistoryWithQuery], the history panel being on the page;
    the value is the list handed to [renderHistoryList]. *)
Definition renderHistoryWithQuery (query : option string) : StoreM (list Entry) :=
  fun st =>
    let items := allEntries st in
    let q := JsString.trim (default EmptyString query) in
    if JsString.is_empty q then (inr items, st)
    else search_loop (query_terms q) (length items) 0 [] st.

End Search.

(** Overlapping calls: a schedule lists, in the order in which they run,
    the two halves of the [ensureEntryCached] calls made by searches
    that are in progress at the same time. *)
Inductive HydrationStep :=
| Call (i : nat)
| Resume (i : nat) (resp : Thrown FullEntry).

Definition hydration_step (st : Store) (ev : HydrationStep) : Store :=
  match ev with
  | Call i => snd (ensure_call i st)
  | Resume i resp => snd (ensure_resume i resp st)
  end.

Definition run_schedule (st : Store) (sched : list HydrationStep) : Store :=
  foldl hydration_step st sched.

(** ** Live recording: cumulative upload, flush on stop *)

Definition Blob := list Byte.byte.

(** [new Blob(parts)] *)
Definition new_Blob (parts : list Blob) : Blob := List.concat parts.

Inductive RecorderState := inactive | recording | paused.

(** The form posted to [/transcribe/chunk] (the file name, which only
    carries a time stamp, is left out). *)
Record ChunkRequest := {
  req_session_id : string;
  req_index : nat;
  req_file : Blob
}.

Record ChunkJson := {
  chunk_detail : option string;
  chunk_transcript : option string
}.

(** How a chunk upload settles: [fetch] or [r.json()] rejects, or a
    response with its [ok] flag and body arrives. *)
Inductive ChunkResult :=
| ChunkRejected
| ChunkResponded (ok : bool) (j : ChunkJson).

Record FinalizeJson := {
  fin_detail : option string;
  fin_words : option nat;
  final_transcript : option string;
  audio_filename : option string
}.

Inductive FinalizeResult :=
| FinalizeRejected (message : string)
| FinalizeResponded (ok : bool) (status : nat) (j : FinalizeJson).

(** What the page does that the outside can observe, in program order.
    A promise of [pendingUploads] is named by the position of its
    request in the list of all chunk requests sent. *)
Inductive Action :=
| RequestData
| AwaitFlushed
| StopRecorder
| ReleaseMicrophone
| AwaitStopped
| Submit (p : nat)
| AwaitAllSettled (ps : list nat)
| FinalizeCall (session_id : option string).

Record Session := {
  liveSessionId : option string;
  recordedChunks : list Blob;
  pendingUploads : list nat;
  chunkCounter : nat
}.

Record LastTranscribe := {
  lt_filename : option string;
  lt_transcript : string
}.

(** The elements the recording code writes (the mood row and the
    character counter, which only mirror [transcriptBox], are left
    out). *)
Record Page := {
  recordBtn : string;
  statusLine : string;
  transcriptBox : string;
  audioContainer : option string;
  lastTranscribe : option LastTranscribe
}.

Record World := {
  mediaRecorder : option RecorderState;
  session : Session;
  page : Page;
  network : list ChunkRequest;
  trace : list Action
}.

Definition with_session (f : Session -> Session) (w : World) : World :=
  {| mediaRecorder := mediaRecorder w; session := f (session w); page := page w;
     network := network w; trace := trace w |}.

Definition with_page (f : Page -> Page) (w : World) : World :=
  {| mediaRecorder := mediaRecorder w; session := session w; page := f (page w);
     network := network w; trace := trace w |}.

Definition with_recorder (r : option RecorderState) (w : World) : World :=
  {| mediaRecorder := r; session := session w; page := page w;
     network := network w; trace := trace w |}.

Definition emit (a : Action) (w : World) : World :=
  {| mediaRecorder := mediaRecorder w; session := session w; page := page w;
     network := network w; trace := trace w ++ [a] |}.

Definition send (r : ChunkRequest) (w : World) : World :=
  {| mediaRecorder := mediaRecorder w; session := session w; page := page w;
     network := network w ++ [r]; trace := trace w |}.

Definition set_status (s : string) (p : Page) : Page :=
  {| recordBtn := recordBtn p; statusLine := s; transcriptBox := transcriptBox p;
     audioContainer := audioContainer p; lastTranscribe := lastTranscribe p |}.

Definition set_transcript (s : string) (p : Page) : Page :=
  {| recordBtn := recordBtn p; statusLine := statusLine p; transcriptBox := s;
     audioContainer := audioContainer p; lastTranscribe := lastTranscribe p |}.

Definition set_button (s : string) (p : Page) : Page :=
  {| recordBtn := s; statusLine := statusLine p; transcriptBox := transcriptBox p;
     audioContainer := audioContainer p; lastTranscribe := lastTranscribe p |}.

(** [renderPlayer(filename)] *)
Definition renderPlayer (f : option string) (p : Page) : Page :=
  {| recordBtn := recordBtn p; statusLine := statusLine p;
     transcriptBox := transcriptBox p;
     audioContainer := truthy f; lastTranscribe := lastTranscribe p |}.

Definition set_lastTranscribe (l : LastTranscribe) (p : Page) : Page :=
  {| recordBtn := recordBtn p; statusLine := statusLine p;
     transcriptBox := transcriptBox p;
     audioContainer := audioContainer p; lastTranscribe := Some l |}.

(** The four assignments under [// reset session state]. *)
Definition reset_session : Session :=
  {| liveSessionId := None; recordedChunks := []; pendingUploads := [];
     chunkCounter := 0 |}.

(** The assignments that open a session in the start branch. *)
Definition fresh_session (uuid : string) : Session :=
  {| liveSessionId := Some uuid; recordedChunks := []; pendingUploads := [];
     chunkCounter := 0 |}.

Definition is_recording (w : World) : bool :=
  match mediaRecorder w with
  | Some recording => true
  | _ => false
  end.

(** [l.slice(-n)] *)
Definition slice_last {A} (n : nat) (l : list A) : list A :=
  drop (length l - n) l.

Definition live_banner (sid : string) : string :=
  String.append "🔴 Live transcribing… session " (JsString.slice0 8 sid).

(** The synchronous part of [uploadCumulativeBlob]: everything but the
    reaction to the response. *)
Definition uploadCumulativeBlob (w : World) : World :=
  let s := session w in
  let blob := new_Blob (recordedChunks s) in
  if (length blob =? 0)%nat then w
  else
    let form :=
      {| req_session_id := default "null"%string (liveSessionId s);
         req_index := chunkCounter s;
         req_file := blob |} in
    let p := length (network w) in
    let pushed := pendingUploads s ++ [p] in
    with_session (fun _ =>
      {| liveSessionId := liveSessionId s;
         recordedChunks := recordedChunks s;
         pendingUploads :=
           if (8 <? length pushed)%nat then slice_last 8 pushed else pushed;
         chunkCounter := S (chunkCounter s) |})
      (emit (Submit p) (send form w)).

(** The [.then]/[.catch] chain attached to the upload: what runs when
    the request settles. A failed upload, and a [TypeError] raised
    inside the handler, only reach [console.warn]. *)
Definition onChunkSettled (res : ChunkResult) (w : World) : World :=
  match res with
  | ChunkResponded true j =>
      let t := JsString.trim (default EmptyString (truthy (chunk_transcript j))) in
      if is_recording w && negb (JsString.is_empty t) then
        match liveSessionId (session w) with
        | Some sid =>
            with_page (fun p => set_transcript t (set_status (live_banner sid) p)) w
        | None => w
        end
      else w
  | _ => w
  end.

(** [mediaRecorder.ondataavailable] *)
Definition ondataavailable (data : Blob) (w : World) : World :=
  if (length data =? 0)%nat then w
  else
    uploadCumulativeBlob
      (with_session (fun s =>
         {| liveSessionId := liveSessionId s;
            recordedChunks := recordedChunks s ++ [data];
            pendingUploads := pendingUploads s;
            chunkCounter := chunkCounter s |}) w).

(** What can happen while the click handler is suspended or between two
    clicks: the recorder hands over a fragment, or the upload with
    promise [p] settles. *)
Inductive PageEvent :=
| DataAvailable (data : Blob)
| Settled (p : nat) (res : ChunkResult).

Definition on_event (w : World) (ev : PageEvent) : World :=
  match ev with
  | DataAvailable data => ondataavailable data w
  | Settled _ res => onChunkSettled res w
  end.

Definition on_events (w : World) (evs : list PageEvent) : World :=
  foldl on_event w evs.

Definition settlements (l : list (nat * ChunkResult)) : list PageEvent :=
  List.map (fun x => Settled (fst x) (snd x)) l.

(** What the environment does during one run of the stop branch: the
    uploads that settle at each suspension point, the first fragment
    delivered after [requestData] (it resolves [flushed], whether it
    answers the request or closes an automatic slice), the events
    delivered between the call of [stop] and the [stop] event, and the
    fate of the finalize request. The button is not pressed again while
    the branch runs. *)
Record StopEnv := {
  while_flushing : list (nat * ChunkResult);
  flush_data : Blob;
  while_stopping : list PageEvent;
  while_uploading : list (nat * ChunkResult);
  while_settling : list (nat * ChunkResult);
  while_finalizing : list (nat * ChunkResult);
  finalize_result : FinalizeResult
}.

Record StartEnv := {
  getUserMedia : Thrown unit;
  randomUUID : string
}.

Record ClickEnv := {
  for_stop : StopEnv;
  for_start : StartEnv
}.

(** The stop branch, one definition per numbered step of the source.
    The events listed in [env] are handled where the handler is
    suspended. *)

(** 1) force final dataavailable event *)
Definition stop_flush (env : StopEnv) (w : World) : World :=
  let w := with_page (fun p => set_status "Finalizing…" (set_button "● Record" p)) w in
  let w := emit RequestData w in
  let w := on_events w (settlements (while_flushing env)) in
  let w := ondataavailable (flush_data env) w in
  emit AwaitFlushed w.

(** 2) stop and wait (release mic); [onstop] releases the tracks. *)
Definition stop_release (env : StopEnv) (w : World) : World :=
  let w := emit StopRecorder (with_recorder (Some inactive) w) in
  let w := on_events w (while_stopping env) in
  emit AwaitStopped (emit ReleaseMicrophone w).

(** 3) final cumulative upload *)
Definition stop_final_upload (env : StopEnv) (w : World) : World :=
  on_events (uploadCumulativeBlob w) (settlements (while_uploading env)).

(** 4) wait for any in-flight chunk uploads. This is the stop that
    gets past the wait: the uploads of [while_settling] are taken to
    be the ones that end it. The handler that stays suspended for as
    long as a tracked upload is pending is [after_allSettled] below. *)
Definition stop_settle (env : StopEnv) (w : World) : World :=
  match pendingUploads (session w) with
  | [] => w
  | ps => on_events (emit (AwaitAllSettled ps) w) (settlements (while_settling env))
  end.

(** 5) finalize on server: the request is sent. *)
Definition stop_send_finalize (env : StopEnv) (w : World) : World :=
  on_events (emit (FinalizeCall (liveSessionId (session w))) w)
    (settlements (while_finalizing env)).

Definition stop_until_finalize (env : StopEnv) (w : World) : World :=
  stop_send_finalize env
    (stop_settle env (stop_final_upload env (stop_release env (stop_flush env w)))).

(** The value of [j] after [await res.json()], or the error thrown on
    the way. *)
Definition finalize_outcome (res : FinalizeResult) : Thrown FinalizeJson :=
  match res with
  | FinalizeRejected msg => inl msg
  | FinalizeResponded ok status j =>
      if ok then inr j
      else inl (default
                  (String.append "Finalize failed (" (String.append (pretty status) ")"))
                  (truthy (fin_detail j)))
  end.

(** The [catch] block of the click handler. *)
Definition on_catch (message : string) (w : World) : World :=
  with_page (fun p =>
    set_transcript (String.append "❌ Mic error: " message) (set_status EmptyString p)) w.

Definition stop_branch (env : StopEnv) (w : World) : World :=
  let w := stop_until_finalize env w in
  match finalize_outcome (finalize_result env) with
  | inl msg => on_catch msg w
  | inr j =>
      let text := default EmptyString (truthy (final_transcript j)) in
      let last := {| lt_filename := truthy (audio_filename j); lt_transcript := text |} in
      let w :=
        with_page (fun p =>
          renderPlayer (lt_filename last)
            (set_lastTranscribe last
               (set_transcript text
                  (set_status
                     (String.append "Final transcript ("
                        (String.append (default "undefined"%string (pretty <$> fin_words j))
                           " words)")) p)))) w in
      (* reset session state *)
      with_session (fun _ => reset_session) w
  end.

Definition start_branch (env : StartEnv) (w : World) : World :=
  match getUserMedia env with
  | inl msg => on_catch msg w
  | inr _ =>
      let uuid := randomUUID env in
      let w := with_session (fun _ => fresh_session uuid) w in
      let w :=
        with_page (fun p =>
          renderPlayer None (set_transcript EmptyString (set_status (live_banner uuid) p))) w in
      (* new MediaRecorder(...); mediaRecorder.start(4000) *)
      let w := with_recorder (Some recording) (with_recorder (Some inactive) w) in
      with_page (set_button "■ Stop") w
  end.

(** The click handler of [recordBtn], run without interruption: no
    other click is handled while it is suspended, and its waits end
    with the events listed. The handler that other clicks may overtake
    at its awaits is [happen] below; [uninterrupted_stop] relates the
    two. *)
Definition recordBtn_click (env : ClickEnv) (w : World) : World :=
  if is_recording w then stop_branch (for_stop env) w
  else start_branch (for_start env) w.

(** One recording session: a click, the events of the recording, a
    second click. *)
Definition run_session (first : ClickEnv) (evs : list PageEvent) (second : ClickEnv)
    (w : World) : World :=
  recordBtn_click second (on_events (recordBtn_click first w) evs).

(** ** Reference descriptions used by the statements below *)

(** The day number of a year, month and day: the inverse of
    [civil_from_days]. *)
Definition days_from_civil (c : Z * Z * Z) : Z :=
  let '(y, m, d) := c in
  let y := if m <=? 2 then y - 1 else y in
  let era := y / 400 in
  let yoe := y mod 400 in
  let mp := if 2 <? m then m - 3 else m + 9 in
  let doy := (153 * mp + 2) / 5 + d - 1 in
  let doe := yoe * 365 + yoe / 4 - yoe / 100 + doy in
  era * 146097 + doe - 719468.

(** [Y-MM-DD] for the day numbered [z]. *)
Definition ymd_of_day (z : Z) : string := ymd (z * msPerDay).

(** The number written by two decimal digits. *)
Definition two_digits (s : string) : Z :=
  match s with
  | String a (String b EmptyString) =>
      Z.of_nat (nat_of_ascii a - 48) * 10 + Z.of_nat (nat_of_ascii b - 48)
  | _ => -1
  end.

(** [n] is read back from its padded rendering, which has two
    characters. *)
Definition two_digit_checks (n : Z) : bool :=
  (two_digits (JsString.padStart 2 "0" (pretty n)) =? n) &&
  (String.length (JsString.padStart 2 "0" (pretty n)) =? 2)%nat.

(** [t] occurs in [s]. *)
Definition substring_of (t s : string) : Prop :=
  exists before after, s = String.append before (String.append t after).

Section StreakReading.

Variable now : Date.
Variable parseDate : string -> option Date.

(** The entry has a usable [created_at] (one that is not falsy). *)
Definition dated (it : Entry) : bool :=
  match truthy (created_at it) with
  | Some _ => true
  | None => false
  end.

(** The local day of an entry. *)
Definition entry_day (it : Entry) : option Z :=
  local_day <$> parseLocalDateFromISOish now parseDate (created_at it).

(** Some entry falls on local day [day]. *)
Definition has_entry_on (items : list Entry) (day : Z) : bool :=
  existsb (fun it => bool_decide (entry_day it = Some day)) items.

(** The day [i] days before today has no entry. *)
Definition missed (items : list Entry) (i : nat) : bool :=
  negb (has_entry_on items (local_day now - Z.of_nat i)).

(** Day [i] is the second of two missed days in a row. *)
Definition second_miss (items : list Entry) (i : nat) : Prop :=
  exists j, i = S j /\ missed items j = true /\ missed items (S j) = true.

(** Number of days with an entry among the [k] most recent days. *)
Definition days_with_entries (items : list Entry) (k : nat) : nat :=
  length (List.filter (fun i => negb (missed items i)) (seq 0 k)).

(** The scan, day by day: [scans items n i streak misses result] reads
    "with [n] days left to examine, standing [i] days before today with
    the two counters at [streak] and [misses], the scan ends with
    [result]". A day with an entry adds one to the streak and resets
    the misses; an empty day adds one to the misses, and the scan stops
    there when that makes two. *)
Inductive scans (items : list Entry) : nat -> nat -> nat -> nat -> nat -> Prop :=
| scans_horizon i streak misses :
    scans items 0 i streak misses streak
| scans_present n i streak misses result :
    missed items i = false ->
    scans items n (S i) (S streak) 0 result ->
    scans items (S n) i streak misses result
| scans_miss n i streak misses result :
    missed items i = true ->
    (S misses < 2)%nat ->
    scans items n (S i) streak (S misses) result ->
    scans items (S n) i streak misses result
| scans_stop n i streak misses :
    missed items i = true ->
    (2 <= S misses)%nat ->
    scans items (S n) i streak misses streak.

(** The streak as the backward scan describes it: the scan covers the
    days before its stopping point [k], at most 365 of them, counts
    the days that have an entry, and stops before the horizon only at
    the second of two missed days in a row. *)
Definition grace_streak (items : list Entry) (streak : nat) : Prop :=
  exists k : nat,
    (k <= 365)%nat /\
    streak = days_with_entries items k /\
    (forall i, (i < k)%nat -> ~ second_miss items i) /\
    (k = 365%nat \/ second_miss items k).

(** The entry lies inside the weekly window and its top emotion is
    [l]. *)
Definition in_window_with_top (l : string) (it : Entry) : bool :=
  match parseLocalDateFromISOish now parseDate (created_at it) with
  | Some d => negb (d <? daysAgoDate now 6) && bool_decide (top_label it = Some l)
  | None => false
  end.

End StreakReading.

(** What [ensureEntryCached] leaves on an entry when the remote store
    is [remote]. *)
Definition hydrate_with (remote : nat -> Thrown FullEntry) (it : Entry) : Entry :=
  if hydrated it then it
  else match remote (id it) with
       | inr full => memoize it full
       | inl _ => it
       end.

(** The entry is hydrated already or the remote store can serve it. *)
Definition servable (remote : nat -> Thrown FullEntry) (it : Entry) : bool :=
  hydrated it || match remote (id it) with inr _ => true | inl _ => false end.

(** A query term as the search sees it: a non-empty word without white
    space and without upper-case letters. *)
Definition is_term (t : string) : Prop :=
  t <> EmptyString /\
  forall c, In c (list_ascii_of_string t) ->
            JsString.is_space c = false /\ JsString.is_upper c = false.

(** *** Recording *)

(** Audio has been captured: the cumulative blob is not empty. *)
Definition has_audio (w : World) : bool :=
  negb (length (new_Blob (recordedChunks (session w))) =? 0)%nat.

(** The tracking list respects the cap. *)
Definition capped (w : World) : Prop :=
  (length (pendingUploads (session w)) <= 8)%nat.

(** The request [uploadCumulativeBlob] builds from the session. *)
Definition next_request (w : World) : ChunkRequest :=
  {| req_session_id := default "null"%string (liveSessionId (session w));
     req_index := chunkCounter (session w);
     req_file := new_Blob (recordedChunks (session w)) |}.

Definition is_submit (a : Action) : bool :=
  match a with
  | Submit _ => true
  | _ => false
  end.

Definition is_finalize (a : Action) : bool :=
  match a with
  | FinalizeCall _ => true
  | _ => false
  end.



(** The non-empty fragments among the events, in order of arrival. *)
Definition fragments_of (evs : list PageEvent) : list Blob :=
  List.filter (fun b => negb (length b =? 0)%nat)
    (omap (fun ev => match ev with DataAvailable b => Some b | Settled _ _ => None end) evs).

(** The request expected at chunk index [k] of session [sid]: the
    fragments 0 to [k], concatenated. *)
Definition cumulative_request (sid : string) (frags : list Blob) (k : nat) : ChunkRequest :=
  {| req_session_id := sid; req_index := k; req_file := new_Blob (take (S k) frags) |}.

(** While session [sid] records: every chunk is non-empty, the index
    counter equals the number of chunks, and the requests sent since the
    session began (after [base]) are the cumulative ones, in order. *)
Definition recording_inv (sid : string) (base : list ChunkRequest) (w : World) : Prop :=
  liveSessionId (session w) = Some sid /\
  Forall (fun b : Blob => length b <> 0%nat) (recordedChunks (session w)) /\
  chunkCounter (session w) = length (recordedChunks (session w)) /\
  network w = base ++ List.map (cumulative_request sid (recordedChunks (session w)))
                        (seq 0 (length (recordedChunks (session w)))).

(** The upload behind promise [p] was made by a session other than the
    live one. *)
Definition stale (w : World) (p : nat) : Prop :=
  exists r, network w !! p = Some r /\ Some (req_session_id r) <> liveSessionId (session w).

(** Searches made one after another, each one finished (or failed)
    before the next begins. *)
Definition sequential_searches (remote : nat -> Thrown FullEntry) (st : Store)
    (queries : list (option string)) : Store :=
  foldl (fun st q => snd (renderHistoryWithQuery remote q st)) st queries.

(** No entry has been requested from the remote store more than
    once. *)
Definition fetched_at_most_once (st : Store) : Prop := NoDup (fetchLog st).

(** ** Sample data *)

Module Sample.

Local Open Scope string_scope.

(** 2024-04-10, 10:00 local time; day 19823 since the epoch. *)
Definition now : Date := 19823 * msPerDay + 36000000.

Definition parse (s : string) : option Date :=
  if String.eqb s "2024-04-10T08:15:00" then Some (19823 * msPerDay + 29700000)
  else if String.eqb s "2024-04-09T21:00:00" then Some (19822 * msPerDay + 75600000)
  else if String.eqb s "2024-04-07T07:30:00" then Some (19820 * msPerDay + 27000000)
  else None.

Definition entry (i : nat) (created : string) (top : string) : Entry :=
  {| id := i; created_at := Some created;
     emotions_top3 := Some [ {| label := top |} ];
     _transcript := None; _imageTags := None; _emotions_all := None |}.

Definition week : list Entry :=
  [ entry 1 "2024-04-10T08:15:00" "joy";
    entry 2 "2024-04-09T21:00:00" "joy";
    entry 3 "2024-04-07T07:30:00" "calm" ].

(** An entry whose date the parser rejects. *)
Definition garbled : Entry := entry 4 "yesterday-ish" "joy".

Definition cached (i : nat) (text : string) (tgs : list string) : Entry :=
  {| id := i; created_at := None; emotions_top3 := None;
     _transcript := Some text; _imageTags := Some tgs; _emotions_all := None |}.

Definition entry1 : Entry := cached 1 "I felt happy today" [].
Definition entry2 : Entry := cached 2 "quiet happy walk" ["calm"].
Definition entry3 : Entry := cached 3 "sad walk" ["happy"].

Definition journal : Store :=
  {| allEntries := [entry1; entry2; entry3]; fetchLog := [] |}.

Definition offline (i : nat) : Thrown FullEntry := inl "Failed to fetch".

Definition full7 : FullEntry :=
  {| transcript := Some "Rain all day";
     images := Some [ {| filename := "a.png"; caption := Some "A wet Street";
                         tags := Some ["Rain"; "street"] |} ];
     emotions_all := None |}.

Definition online (i : nat) : Thrown FullEntry := inr full7.

Definition fresh7 : Entry :=
  {| id := 7; created_at := Some "2024-04-10T08:15:00"; emotions_top3 := None;
     _transcript := None; _imageTags := None; _emotions_all := None |}.

Definition unhydrated : Store := {| allEntries := [fresh7]; fetchLog := [] |}.

(** The page before any recording. *)
Definition idle : World :=
  {| mediaRecorder := None;
     session := reset_session;
     page := {| recordBtn := "● Record"; statusLine := ""; transcriptBox := "";
                audioContainer := None; lastTranscribe := None |};
     network := [];
     trace := [] |}.

Definition frag (b : Byte.byte) : Blob := [b; b; b].

Definition finalized : FinalizeResult :=
  FinalizeResponded true 200
    {| fin_detail := None; fin_words := Some 5%nat;
       final_transcript := Some "a walk in the rain";
       audio_filename := Some "rec-0001.webm" |}.

Definition server_error : FinalizeResult :=
  FinalizeResponded false 500
    {| fin_detail := None; fin_words := None;
       final_transcript := None; audio_filename := None |}.

(** A stop during which no upload settles early; [flush] answers
    [requestData] and [tail] is what [stop] still delivers. *)
Definition stop_with (flush tail : Blob) (outcome : FinalizeResult) : StopEnv :=
  {| while_flushing := []; flush_data := flush;
     while_stopping := [DataAvailable tail];
     while_uploading := []; while_settling := []; while_finalizing := [];
     finalize_result := outcome |}.

Definition press (uuid : string) (stop : StopEnv) : ClickEnv :=
  {| for_stop := stop;
     for_start := {| getUserMedia := inr tt; randomUUID := uuid |} |}.

Definition first_id : string := "0b9f4c52-6d1e-4a57-9d0c-3f2a9c1e7b10".
Definition second_id : string := "c41d7e08-2b6a-4f39-8e15-7a90d2f4b663".

(** A recording stopped at once: no fragment carries any audio. *)
Definition stopped_at_once : World :=
  run_session (press first_id (stop_with [] [] finalized)) []
              (press first_id (stop_with [] [] finalized)) idle.

(** Nine slices of audio, then a stop. *)
Definition nine_slices : list PageEvent :=
  List.map (fun b => DataAvailable (frag b))
    [Byte.x01; Byte.x02; Byte.x03; Byte.x04; Byte.x05;
     Byte.x06; Byte.x07; Byte.x08; Byte.x09].

Definition after_first_session : World :=
  run_session (press first_id (stop_with [] [] finalized)) nine_slices
              (press first_id (stop_with [] [] finalized)) idle.

(** A second recording has begun. *)
Definition second_recording : World :=
  recordBtn_click (press second_id (stop_with [] [] finalized)) after_first_session.

(** The first upload of the first session answers only now. *)
Definition late_answer : PageEvent :=
  Settled 0 (ChunkResponded true
               {| chunk_detail := None;
                  chunk_transcript := Some "words of the first session" |}).

(** One slice recorded, then a stop whose finalize request fails. *)
Definition one_slice_recorded : World :=
  on_events (recordBtn_click (press first_id (stop_with [] [] server_error)) idle)
    [DataAvailable (frag Byte.x01)].

Definition failed_stop : World :=
  recordBtn_click (press first_id (stop_with [] [] server_error)) one_slice_recorded.

End Sample.
(** ** Further reference descriptions *)

(** The entry is dated on one of the seven local days that end today,
    or later. *)
Definition since_six_days_ago (now : Date) (parseDate : string -> option Date)
    (it : Entry) : bool :=
  match parseLocalDateFromISOish now parseDate (created_at it) with
  | Some d => local_day now - 6 <=? local_day d
  | None => false
  end.

(** Two cache objects stand for the same list item: the fields sent
    by [/entries] agree. *)
Definition same_header (a b : Entry) : Prop :=
  id a = id b /\ created_at a = created_at b /\ emotions_top3 a = emotions_top3 b.

(** The tracked promises are those of the eight most recent requests
    among the ones sent after the first [b]. *)
Definition tracks_latest (b : nat) (w : World) : Prop :=
  (b <= length (network w))%nat /\
  pendingUploads (session w) = slice_last 8 (seq b (length (network w) - b)).

(** ** Requests to the entry and media stores *)

(** How a request ends: [fetch] rejects, the body cannot be read as
    JSON, or a body arrives; [detail] is its [detail] field. *)
Inductive Reply (J : Type) :=
| NoReply (message : string)
| BadBody (ok : bool) (status : nat) (message : string)
| Body (ok : bool) (status : nat) (detail : option string) (j : J).

Arguments NoReply {J} message.
Arguments BadBody {J} ok status message.
Arguments Body {J} ok status detail j.

(** [detail || `<what> (<status>)`] *)
Definition failure_message (what : string) (status : nat) (detail : option string)
  : string :=
  default (String.append what (String.append " (" (String.append (pretty status) ")")))
          (truthy detail).

(** A number that may be missing. *)
Inductive JsNumber := NumUndefined | NumNull | Num (z : Z).

(** The number inside a template literal. *)
Definition number_text (n : JsNumber) : string :=
  match n with
  | NumUndefined => "undefined"
  | NumNull => "null"
  | Num z => pretty z
  end.

(** [n > 0] *)
Definition is_positive (n : JsNumber) : bool :=
  match n with
  | Num z => 0 <? z
  | _ => false
  end.

(** The fields of [GET /entries/:id] read by the editor. *)
Record EntryDetail := {
  det_created_at : option string;
  det_audio_filename : option string;
  det_transcript : option string;
  det_mood : JsNumber;
  det_emotions_top3 : option (list Emotion);
  det_images : option (list Image)
}.

(** An item of [GET /entries] as the server sends it. *)
Record Listed := {
  listed_id : nat;
  listed_created_at : option string;
  listed_emotions_top3 : option (list Emotion)
}.

(** The cache object made from a listed item: nothing is memoized on
    it yet. *)
Definition cache_object (l : Listed) : Entry :=
  {| id := listed_id l; created_at := listed_created_at l;
     emotions_top3 := listed_emotions_top3 l;
     _transcript := None; _imageTags := None; _emotions_all := None |}.

Definition fetchEntries (r : Reply (option (list Listed))) : Thrown (list Entry) :=
  match r with
  | NoReply m => inl m
  | BadBody _ _ m => inl m
  | Body ok status detail items =>
      if ok then inr (List.map cache_object (default [] items))
      else inl (failure_message "Failed to load history" status detail)
  end.

Definition fetchEntry (r : Reply EntryDetail) : Thrown EntryDetail :=
  match r with
  | NoReply m => inl m
  | BadBody _ _ m => inl m
  | Body ok status detail j =>
      if ok then inr j else inl (failure_message "Failed to load entry" status detail)
  end.

(** The body is read only when the request failed, and a body that
    cannot be read counts as empty. *)
Definition deleteEntry (r : Reply unit) : Thrown unit :=
  match r with
  | NoReply m => inl m
  | BadBody ok status _ =>
      if ok then inr tt else inl (failure_message "Delete failed" status None)
  | Body ok status detail _ =>
      if ok then inr tt else inl (failure_message "Delete failed" status detail)
  end.

(** [fmt(dtString)]: the first [T] becomes a blank. *)
Fixpoint replace_first_T (s : string) : string :=
  match s with
  | EmptyString => EmptyString
  | String c s' => if Ascii.eqb c "T" then String " " s' else String c (replace_first_T s')
  end.

Definition fmt (dtString : option string) : string :=
  default EmptyString (truthy (replace_first_T <$> dtString)).

(** ** Images staged for the entry being edited *)

(** The body of a successful [POST /images/upload]. *)
Record ImageJson := {
  img_filename : string;
  img_caption : option string;
  img_tags : option (list string)
}.

Definition uploadOneImage (r : Reply ImageJson) : Thrown Image :=
  match r with
  | NoReply m => inl m
  | BadBody _ _ m => inl m
  | Body ok status detail j =>
      if ok
      then inr {| filename := img_filename j; caption := truthy (img_caption j);
                  tags := Some (default [] (img_tags j)) |}
      else inl (failure_message "Image upload failed" status detail)
  end.

(** [{ filename: im.filename, caption: im.caption || null,
       tags: im.tags || [] }] *)
Definition staged (im : Image) : Image :=
  {| filename := filename im; caption := truthy (caption im);
     tags := Some (default [] (tags im)) |}.

(** [Array.isArray(entry.images) ? entry.images.map(...) : []] *)
Definition staged_images (images : option (list Image)) : list Image :=
  default [] (List.map staged <$> images).

(** The body posted to [/entries/save]. *)
Record SaveRequest := {
  save_filename : option string;
  save_transcript : string;
  save_images : list Image
}.

(** What the history panel shows. *)
Inductive Panel :=
| PanelText (s : string)
| PanelList (items : list Entry).

(** The state of the editor that lies outside the recording code: the
    staged images, the elements written by the handlers below, the
    messages shown with [alert] and the bodies posted to
    [/entries/save] so far. The mood row, the emotion details, the
    player and the image grid only mirror data held elsewhere and are
    left out. *)
Record Desk := {
  pendingImages : list Image;
  saveStatus : string;
  imageUploadBtn_disabled : bool;
  imageUploadBtn_text : string;
  historyPanel : Panel;
  streakBadge : string;
  alerts : list string;
  posted : list SaveRequest
}.

Definition with_images (l : list Image) (d : Desk) : Desk :=
  {| pendingImages := l; saveStatus := saveStatus d;
     imageUploadBtn_disabled := imageUploadBtn_disabled d;
     imageUploadBtn_text := imageUploadBtn_text d;
     historyPanel := historyPanel d; streakBadge := streakBadge d;
     alerts := alerts d; posted := posted d |}.

Definition set_saveStatus (s : string) (d : Desk) : Desk :=
  {| pendingImages := pendingImages d; saveStatus := s;
     imageUploadBtn_disabled := imageUploadBtn_disabled d;
     imageUploadBtn_text := imageUploadBtn_text d;
     historyPanel := historyPanel d; streakBadge := streakBadge d;
     alerts := alerts d; posted := posted d |}.

Definition set_imageUploadBtn (disabled : bool) (text : string) (d : Desk) : Desk :=
  {| pendingImages := pendingImages d; saveStatus := saveStatus d;
     imageUploadBtn_disabled := disabled;
     imageUploadBtn_text := text;
     historyPanel := historyPanel d; streakBadge := streakBadge d;
     alerts := alerts d; posted := posted d |}.

Definition set_historyPanel (p : Panel) (d : Desk) : Desk :=
  {| pendingImages := pendingImages d; saveStatus := saveStatus d;
     imageUploadBtn_disabled := imageUploadBtn_disabled d;
     imageUploadBtn_text := imageUploadBtn_text d;
     historyPanel := p; streakBadge := streakBadge d;
     alerts := alerts d; posted := posted d |}.

Definition set_streakBadge (s : string) (d : Desk) : Desk :=
  {| pendingImages := pendingImages d; saveStatus := saveStatus d;
     imageUploadBtn_disabled := imageUploadBtn_disabled d;
     imageUploadBtn_text := imageUploadBtn_text d;
     historyPanel := historyPanel d; streakBadge := s;
     alerts := alerts d; posted := posted d |}.

Definition alert (s : string) (d : Desk) : Desk :=
  {| pendingImages := pendingImages d; saveStatus := saveStatus d;
     imageUploadBtn_disabled := imageUploadBtn_disabled d;
     imageUploadBtn_text := imageUploadBtn_text d;
     historyPanel := historyPanel d; streakBadge := streakBadge d;
     alerts := alerts d ++ [s]; posted := posted d |}.

Definition post (r : SaveRequest) (d : Desk) : Desk :=
  {| pendingImages := pendingImages d; saveStatus := saveStatus d;
     imageUploadBtn_disabled := imageUploadBtn_disabled d;
     imageUploadBtn_text := imageUploadBtn_text d;
     historyPanel := historyPanel d; streakBadge := streakBadge d;
     alerts := alerts d; posted := posted d ++ [r] |}.

(** One turn of the loop over the selected files: the image is staged,
    or the failure is reported and the loop goes on. *)
Definition add_image (d : Desk) (r : Reply ImageJson) : Desk :=
  match uploadOneImage r with
  | inr meta => with_images (pendingImages d ++ [meta]) d
  | inl message => alert (String.append "Image failed: " message) d
  end.

(** The [change] handler of [imageInput]; each selected file is given
    by the reply to its upload. *)
Definition imageInput_change (files : list (Reply ImageJson)) (d : Desk) : Desk :=
  match files with
  | [] => d
  | _ =>
      let d := set_imageUploadBtn true "Adding…" d in
      let d := foldl add_image d files in
      set_imageUploadBtn false "➕ Add images" d
  end.

(** The [click] handler of the [Remove] button of the card at position
    [idx]: [pendingImages.splice(idx, 1)]. *)
Definition remove_click (idx : nat) (d : Desk) : Desk :=
  with_images (delete idx (pendingImages d)) d.

(** ** The editor: history, opening, saving and uploading *)

Record App := {
  app_page : Page;
  app_desk : Desk;
  app_store : Store
}.

Definition on_page (f : Page -> Page) (a : App) : App :=
  {| app_page := f (app_page a); app_desk := app_desk a; app_store := app_store a |}.

Definition on_desk (f : Desk -> Desk) (a : App) : App :=
  {| app_page := app_page a; app_desk := f (app_desk a); app_store := app_store a |}.

Definition on_store (f : Store -> Store) (a : App) : App :=
  {| app_page := app_page a; app_desk := app_desk a; app_store := f (app_store a) |}.

(** [renderHistoryList(items)] *)
Definition renderHistoryList (items : list Entry) : Panel :=
  match items with
  | [] => PanelText "No entries yet."
  | _ => PanelList items
  end.

(** The text [updateStreakBadge] writes for a streak of [s] days. *)
Definition streak_text (s : nat) : string :=
  if (0 <? s)%nat
  then String.append "🔥 " (String.append (pretty s) "-day streak")
  else "🔥 0-day streak".

(** The body of [POST /transcribe/upload]. *)
Record UploadJson := {
  up_filename : option string;
  up_transcript : option string;
  up_language : option string
}.

(** The body of [POST /entries/save]. *)
Record SaveJson := { saved_id : option nat }.

(** The limit of the emotion model, [MAX_EMO_CHARS]. *)
Definition MAX_EMO_CHARS : nat := 2000.

(** [getCurrentText()] *)
Definition getCurrentText (p : Page) : string := JsString.trim (transcriptBox p).

Section Editor.

(** The clock, the date parser, the remote entry store read by the
    search, and the message of the [TypeError] raised by [ymd(null)].
    The elements the handlers write are on the page, a field that a
    reply lacks reads [undefined], and no other handler runs while one
    of the handlers below is suspended. *)
Variable now : Date.
Variable parseDate : string -> option Date.
Variable remote : nat -> Thrown FullEntry.
Variable typeError : string.

(** The [input] handler of [searchInput]; a failed search is an
    unhandled rejection and leaves the panel as it is. *)
Definition searchInput_input (value : string) (a : App) : App :=
  match renderHistoryWithQuery remote (Some value) (app_store a) with
  | (inr shown, st) =>
      on_desk (set_historyPanel (renderHistoryList shown)) (on_store (fun _ => st) a)
  | (inl _, st) => on_store (fun _ => st) a
  end.

(** [refreshHistoryCache()]; [listing] is the reply to [GET /entries]
    and [value] the text of the search box. *)
Definition refreshHistoryCache (listing : Reply (option (list Listed))) (value : string)
    (a : App) : Thrown unit * App :=
  match fetchEntries listing with
  | inl m => (inl m, a)
  | inr items =>
      let a := on_store (fun st => {| allEntries := items; fetchLog := fetchLog st |}) a in
      match computeStreakWithGrace now parseDate items with
      | None => (inl typeError, a)
      | Some s =>
          let a := on_desk (set_streakBadge (streak_text s)) a in
          let q := JsString.trim value in
          match renderHistoryWithQuery remote (Some q) (app_store a) with
          | (inr shown, st) =>
              (inr tt, on_desk (set_historyPanel (renderHistoryList shown))
                         (on_store (fun _ => st) a))
          | (inl m, st) => (inl m, on_store (fun _ => st) a)
          end
      end
  end.

(** The [click] handler of [historyBtn]. *)
Definition historyBtn_click (listing : Reply (option (list Listed))) (value : string)
    (a : App) : App :=
  let a := on_desk (set_historyPanel (PanelText "Loading history…")) a in
  match refreshHistoryCache listing value a with
  | (inr _, a) => a
  | (inl m, a) => on_desk (set_historyPanel (PanelText (String.append "❌ " m))) a
  end.

(** The [click] handler of the [Delete] button of an entry; [yes] is
    the answer to the confirmation. *)
Definition delete_click (yes : bool) (deletion : Reply unit)
    (listing : Reply (option (list Listed))) (value : string) (a : App) : App :=
  if yes then
    match deleteEntry deletion with
    | inl m => on_desk (alert (String.append "Delete failed: " m)) a
    | inr _ =>
        match refreshHistoryCache listing value a with
        | (inr _, a) => on_desk (set_saveStatus "🗑️ Entry deleted") a
        | (inl m, a) => on_desk (alert (String.append "Delete failed: " m)) a
        end
    end
  else a.

(** The [click] handler of a row of the history list. *)
Definition row_click (reply : Reply EntryDetail) (a : App) : App :=
  let a :=
    on_page (fun p => renderPlayer None
                        (set_transcript EmptyString (set_status "Loading entry…" p))) a in
  match fetchEntry reply with
  | inr entry =>
      let text := default EmptyString (truthy (det_transcript entry)) in
      let last := {| lt_filename := det_audio_filename entry; lt_transcript := text |} in
      let a :=
        on_page (fun p =>
          renderPlayer (det_audio_filename entry)
            (set_lastTranscribe last
               (set_transcript text
                  (set_status
                     (String.append "🗂 "
                        (String.append (fmt (det_created_at entry))
                           (String.append " ("
                              (String.append
                                 (default "undefined"%string (det_audio_filename entry))
                                 ")")))) p)))) a in
      on_desk (with_images (staged_images (det_images entry))) a
  | inl m =>
      on_page (fun p => set_transcript (String.append "❌ " m) (set_status EmptyString p)) a
  end.

(** The [click] handler of [uploadBtn]; [file] tells whether a file has
    been selected. *)
Definition uploadBtn_click (file : bool) (reply : Reply UploadJson) (a : App) : App :=
  if file then
    let a :=
      on_page (fun p =>
        renderPlayer None
          (set_transcript EmptyString (set_status "Uploading and transcribing…" p))) a in
    let failed m :=
      on_page (fun p =>
        set_transcript (String.append "❌ Error: " m) (set_status EmptyString p)) a in
    let transcribed data :=
      let t := JsString.trim (default EmptyString (truthy (up_transcript data))) in
      let lang := default "unknown"%string (truthy (up_language data)) in
      let last := {| lt_filename := up_filename data; lt_transcript := t |} in
      on_page (fun p =>
        renderPlayer (up_filename data)
          (set_lastTranscribe last
             (set_transcript t
                (set_status
                   (String.append "Transcribed: "
                      (String.append (default "undefined"%string (up_filename data))
                         (String.append " • Language: " lang))) p)))) a in
    let empty := {| up_filename := None; up_transcript := None; up_language := None |} in
    match reply with
    | NoReply m => failed m
    | BadBody ok status _ =>
        if ok then transcribed empty
        else failed (failure_message "Upload failed" status None)
    | Body ok status detail data =>
        if ok then transcribed data
        else failed (failure_message "Upload failed" status detail)
    end
  else on_desk (alert "Please select a .wav or .mp3 first.") a.

(** The [click] handler of [saveBtn]: [saving] is the reply to the
    save request, [reading] the reply to the request for the saved
    entry. *)
Definition saveBtn_click (saving : Reply SaveJson) (reading : Reply EntryDetail)
    (listing : Reply (option (list Listed))) (value : string) (a : App) : App :=
  match lastTranscribe (app_page a) with
  | None => on_desk (set_saveStatus "⚠️ Nothing to save yet (upload or record first).") a
  | Some last =>
      match truthy (lt_filename last) with
      | None =>
          on_desk (set_saveStatus "⚠️ Nothing to save yet (upload or record first).") a
      | Some _ =>
          let currentText := getCurrentText (app_page a) in
          let overLimit := (MAX_EMO_CHARS <? String.length currentText)%nat in
          let a := on_desk (set_saveStatus "Saving…") a in
          let a :=
            on_desk (post {| save_filename := lt_filename last;
                             save_transcript := currentText;
                             save_images := List.map staged (pendingImages (app_desk a)) |})
                    a in
          let failed m := on_desk (set_saveStatus (String.append "❌ Error: " m)) a in
          match saving with
          | NoReply m => failed m
          | BadBody _ _ m => failed m
          | Body ok status detail j =>
              if ok then
                let a :=
                  on_desk (set_saveStatus
                    (String.append "✔ Saved (id: "
                       (String.append (default "undefined"%string (pretty <$> saved_id j))
                          (String.append ")"
                             (if overLimit then " • analyzed first 2,000 chars"
                              else EmptyString))))) a in
                (* Refresh UI with server-evaluated mood and normalized image data *)
                match fetchEntry reading with
                | inr entry =>
                    let a :=
                      match det_emotions_top3 entry with
                      | Some (e :: rest) =>
                          let labels := String.concat " • " (List.map label (e :: rest)) in
                          on_page (set_status
                            (String.append "Saved • Mood "
                               (String.append
                                  (if is_positive (det_mood entry) then "+" else EmptyString)
                                  (String.append (number_text (det_mood entry))
                                     (String.append " • "
                                        (String.append labels
                                           (if overLimit
                                            then " • (first 2,000 chars analyzed)"
                                            else EmptyString))))))) a
                      | _ => a
                      end in
                    let a := on_desk (with_images (staged_images (det_images entry))) a in
                    snd (refreshHistoryCache listing value a)
                | inl _ => a
                end
              else failed (failure_message "Save failed" status detail)
          end
      end
  end.

End Editor.

(** ** The model selector *)

Definition ALLOWED_MODELS : list string :=
  ["tiny"; "base.en"; "small.en"; "medium.en"]%string.

(** The [select] element with its options and its value, the active
    model, the item [whisperModel] of [localStorage], the note under
    the element, and the page, whose status line the listener
    writes. *)
Record Selector := {
  modelSelect_options : list string;
  modelSelect_value : string;
  currentModel : option string;
  whisperModel : option string;
  modelNote : string;
  selector_page : Page
}.

(** What the element shows after [modelSelect.value = v]: the option
    with that value, or nothing when there is none. *)
Definition shown (opts : list string) (v : option string) : string :=
  match v with
  | Some v => if bool_decide (v ∈ opts) then v else EmptyString
  | None => EmptyString
  end.

(** An element that receives its first options selects the first of
    them. *)
Definition populateModelSelect (s : Selector) : Selector :=
  match modelSelect_options s with
  | [] =>
      {| modelSelect_options := ALLOWED_MODELS;
         modelSelect_value := default EmptyString (head ALLOWED_MODELS);
         currentModel := currentModel s; whisperModel := whisperModel s;
         modelNote := modelNote s; selector_page := selector_page s |}
  | _ => s
  end.

(** The body of [GET /config/whisper_model] is its [name]. *)
Definition fetchBackendModelName (r : Reply (option string)) : option string :=
  match r with
  | Body true _ _ name => truthy name
  | _ => None
  end.

Definition setBackendModelName (r : Reply unit) : Thrown unit :=
  match r with
  | NoReply m => inl m
  | BadBody ok status _ =>
      if ok then inr tt else inl (failure_message "Failed to set model" status None)
  | Body ok status detail _ =>
      if ok then inr tt else inl (failure_message "Failed to set model" status detail)
  end.

(** [initModelSelector] up to the registration of the listener. *)
Definition initModelSelector (r : Reply (option string)) (s : Selector) : Selector :=
  let s := populateModelSelect s in
  let initial :=
    match fetchBackendModelName r with
    | Some name => name
    | None => default "small.en"%string (truthy (whisperModel s))
    end in
  {| modelSelect_options := modelSelect_options s;
     modelSelect_value := shown (modelSelect_options s) (Some initial);
     currentModel := Some initial; whisperModel := whisperModel s;
     modelNote := String.append "ASR model: " initial;
     selector_page := selector_page s |}.

(** The [change] listener, run after the user has picked [next]; the
    second component is the status text its timer will put back. *)
Definition modelSelect_change (next : string) (r : Reply unit) (s : Selector)
  : Selector * option string :=
  let s := {| modelSelect_options := modelSelect_options s; modelSelect_value := next;
              currentModel := currentModel s; whisperModel := whisperModel s;
              modelNote := modelNote s; selector_page := selector_page s |} in
  if bool_decide (currentModel s = Some next) then (s, None)
  else
    let prevStatus := statusLine (selector_page s) in
    match setBackendModelName r with
    | inr _ =>
        ({| modelSelect_options := modelSelect_options s;
            modelSelect_value := modelSelect_value s;
            currentModel := Some next; whisperModel := Some next;
            modelNote := String.append "ASR model: " next;
            selector_page :=
              set_status (String.append "Model set to " (String.append next "."))
                (selector_page s) |},
         Some prevStatus)
    | inl message =>
        ({| modelSelect_options := modelSelect_options s;
            modelSelect_value := shown (modelSelect_options s) (currentModel s);
            currentModel := currentModel s; whisperModel := whisperModel s;
            modelNote := modelNote s;
            selector_page := set_status (String.append "❌ " message) (selector_page s) |},
         Some prevStatus)
    end.

(** The function given to [setTimeout]. *)
Definition restore_status (prevStatus : string) (s : Selector) : Selector :=
  if String.prefix "Model set" (statusLine (selector_page s))
     || String.prefix "❌" (statusLine (selector_page s))
  then {| modelSelect_options := modelSelect_options s;
          modelSelect_value := modelSelect_value s;
          currentModel := currentModel s; whisperModel := whisperModel s;
          modelNote := modelNote s;
          selector_page := set_status prevStatus (selector_page s) |}
  else s.

(** Changes handled one after the other, each given by the option
    picked and the reply to the request it causes. *)
Definition changes (l : list (string * Reply unit)) (s : Selector) : Selector :=
  foldl (fun s c => fst (modelSelect_change (fst c) (snd c) s)) s l.

(** The element shows the active model. *)
Definition shows_current (s : Selector) : Prop :=
  modelSelect_value s = shown (modelSelect_options s) (currentModel s).

(** ** Sample data for the editor *)

Module Scene.

Local Open Scope string_scope.

Definition typeError : string := "Cannot read properties of null (reading 'getFullYear')".

Definition desk : Desk :=
  {| pendingImages := []; saveStatus := "";
     imageUploadBtn_disabled := false; imageUploadBtn_text := "➕ Add images";
     historyPanel := PanelText ""; streakBadge := "";
     alerts := []; posted := [] |}.

Definition app : App :=
  {| app_page := page Sample.idle; app_desk := desk; app_store := Sample.journal |}.

Definition cat : Reply ImageJson :=
  Body true 200 None
    {| img_filename := "cat.png"; img_caption := Some "A cat"; img_tags := None |}.

Definition too_large : Reply ImageJson :=
  Body false 413 None {| img_filename := ""; img_caption := None; img_tags := None |}.

Definition walk : EntryDetail :=
  {| det_created_at := Some "2024-04-09T21:00:00";
     det_audio_filename := Some "rec-0002.webm";
     det_transcript := Some "quiet happy walk ";
     det_mood := Num 35;
     det_emotions_top3 := Some [ {| label := "joy" |} ];
     det_images := Some [ {| filename := "park.png"; caption := Some ""; tags := None |} ] |}.

Definition saved : Reply SaveJson := Body true 200 None {| saved_id := Some 8%nat |}.

Definition listing : Reply (option (list Listed)) :=
  Body true 200 None
    (Some [ {| listed_id := 7; listed_created_at := Some "2024-04-10T08:15:00";
               listed_emotions_top3 := Some [ {| label := "joy" |} ] |} ]).

Definition unreachable {J} : Reply J := NoReply "Failed to fetch".

Definition memo : UploadJson :=
  {| up_filename := Some "memo.wav"; up_transcript := Some " a short memo ";
     up_language := Some "en" |}.

Definition upload : Reply UploadJson := Body true 200 None memo.

Definition selector : Selector :=
  {| modelSelect_options := []; modelSelect_value := "";
     currentModel := None; whisperModel := Some "base.en";
     modelNote := ""; selector_page := page Sample.idle |}.

End Scene.

(** ** The page as a machine: click handlers suspended at their awaits *)

(** Where a click handler of [recordBtn] stands between two runs of
    its code. A handler waits for something ([AtGetUserMedia],
    [AtFlushed], [AtStopped], [AtAllSettled], [AtFinalize]) or the
    promise it awaits is resolved and its continuation has not run yet
    ([Flushed], [Stopped], [Uploaded]). Recorder objects are numbered
    in the order of their creation; [r] is the recorder on which the
    listener was registered, [ps] the promises handed to
    [Promise.allSettled]. *)
Inductive Suspended :=
| AtGetUserMedia
| AtFlushed (r : nat)
| Flushed
| AtStopped (r : nat)
| Stopped
| Uploaded
| AtAllSettled (ps : list nat)
| AtFinalize.

(** The page with its click handlers: the variables and elements, the
    number of the recorder held by [mediaRecorder], the uploads whose
    promise has settled, and the handlers in the order of their clicks,
    a finished one being [None]. *)
Record Machine := {
  world : World;
  recorder : nat;
  settled : list nat;
  handlers : list (option Suspended)
}.

Definition on_world (f : World -> World) (m : Machine) : Machine :=
  {| world := f (world m); recorder := recorder m; settled := settled m;
     handlers := handlers m |}.

Definition on_handlers (f : list (option Suspended) -> list (option Suspended))
    (m : Machine) : Machine :=
  {| world := world m; recorder := recorder m; settled := settled m;
     handlers := f (handlers m) |}.

Definition set_handler (h : nat) (s : option Suspended) (m : Machine) : Machine :=
  on_handlers (fun hs => <[ h := s ]> hs) m.

(** What the page can be told: a click on the button, the answer to
    the [getUserMedia] call of handler [h], a [dataavailable] or a
    [stop] event of recorder [r], the settling of upload [p], the
    answer to the finalize request of handler [h], and the run of the
    continuation of handler [h]. The page runs a continuation whose
    promise is resolved before it handles anything else; the machine
    admits it later as well. *)
Inductive Happening :=
| Clicked
| MicrophoneAnswered (h : nat) (env : StartEnv)
| FragmentDelivered (r : nat) (data : Blob)
| RecorderStopped (r : nat)
| UploadSettled (p : nat) (res : ChunkResult)
| FinalizeAnswered (h : nat) (res : FinalizeResult)
| Resumed (h : nat).

(** The stop branch from the answer to the finalize request on, and
    the [catch] block when that answer is a failure. *)
Definition stop_finish (res : FinalizeResult) (w : World) : World :=
  match finalize_outcome res with
  | inl msg => on_catch msg w
  | inr j =>
      let text := default EmptyString (truthy (final_transcript j)) in
      let last := {| lt_filename := truthy (audio_filename j); lt_transcript := text |} in
      let w :=
        with_page (fun p =>
          renderPlayer (lt_filename last)
            (set_lastTranscribe last
               (set_transcript text
                  (set_status
                     (String.append "Final transcript ("
                        (String.append (default "undefined"%string (pretty <$> fin_words j))
                           " words)")) p)))) w in
      (* reset session state *)
      with_session (fun _ => reset_session) w
  end.

Section Handlers.

(** What [stop()] does on a recorder that is inactive already: it
    returns, or it throws an error with a message; engines differ. *)
Variable stop_when_inactive : Thrown unit.

(** The click: the test of the recorder state and the code up to the
    first [await] of the branch taken. *)
Definition clicked (m : Machine) : Machine :=
  if is_recording (world m) then
    on_handlers (fun hs => hs ++ [Some (AtFlushed (recorder m))])
      (on_world (fun w =>
         emit RequestData
           (with_page (fun p => set_status "Finalizing…" (set_button "● Record" p)) w)) m)
  else on_handlers (fun hs => hs ++ [Some AtGetUserMedia]) m.

(** 2) stop and wait: the listener is put on the recorder that
    [mediaRecorder] holds now, which is then stopped. The variable
    holds a recorder whenever a stop branch runs. *)
Definition after_flushed (h : nat) (m : Machine) : Machine :=
  let m := on_world (emit AwaitFlushed) m in
  match mediaRecorder (world m) with
  | Some recording | Some paused =>
      set_handler h (Some (AtStopped (recorder m)))
        (on_world (fun w => emit StopRecorder (with_recorder (Some inactive) w)) m)
  | _ =>
      match stop_when_inactive with
      | inl msg => set_handler h None (on_world (on_catch msg) m)
      | inr _ => set_handler h (Some (AtStopped (recorder m))) m
      end
  end.

(** 3) final cumulative upload *)
Definition after_stopped (h : nat) (m : Machine) : Machine :=
  set_handler h (Some Uploaded)
    (on_world (fun w => uploadCumulativeBlob (emit AwaitStopped w)) m).

(** 5) finalize on server: the request is sent. *)
Definition send_finalize (h : nat) (m : Machine) : Machine :=
  set_handler h (Some AtFinalize)
    (on_world (fun w => emit (FinalizeCall (liveSessionId (session w))) w) m).

(** 4) wait for any in-flight chunk uploads *)
Definition after_uploaded (h : nat) (m : Machine) : Machine :=
  match pendingUploads (session (world m)) with
  | [] => send_finalize h m
  | ps => set_handler h (Some (AtAllSettled ps)) (on_world (emit (AwaitAllSettled ps)) m)
  end.

(** The wait ends when every promise handed over has settled. *)
Definition after_allSettled (h : nat) (ps : list nat) (m : Machine) : Machine :=
  if forallb (fun p => bool_decide (p ∈ settled m)) ps then send_finalize h m else m.

Definition after_finalize (h : nat) (res : FinalizeResult) (m : Machine) : Machine :=
  set_handler h None (on_world (stop_finish res) m).

(** The start branch after [getUserMedia]; a granted microphone gives
    a new recorder. *)
Definition after_getUserMedia (h : nat) (env : StartEnv) (m : Machine) : Machine :=
  let m' := set_handler h None (on_world (start_branch env) m) in
  match getUserMedia env with
  | inr _ =>
      {| world := world m'; recorder := S (recorder m); settled := settled m';
         handlers := handlers m' |}
  | inl _ => m'
  end.

(** The listeners added with [once] are answered: the handlers that
    wait for an event of recorder [r] may continue. *)
Definition resolve_flushed (r : nat) (m : Machine) : Machine :=
  on_handlers
    (List.map (fun s => match s with
                        | Some (AtFlushed r') => if (r' =? r)%nat then Some Flushed else s
                        | _ => s
                        end)) m.

Definition resolve_stopped (r : nat) (m : Machine) : Machine :=
  on_handlers
    (List.map (fun s => match s with
                        | Some (AtStopped r') => if (r' =? r)%nat then Some Stopped else s
                        | _ => s
                        end)) m.

Definition happen (m : Machine) (e : Happening) : Machine :=
  match e with
  | Clicked => clicked m
  | MicrophoneAnswered h env =>
      match handlers m !! h with
      | Some (Some AtGetUserMedia) => after_getUserMedia h env m
      | _ => m
      end
  | FragmentDelivered r data =>
      resolve_flushed r (on_world (ondataavailable data) m)
  | RecorderStopped r =>
      resolve_stopped r (on_world (emit ReleaseMicrophone) m)
  | UploadSettled p res =>
      {| world := onChunkSettled res (world m); recorder := recorder m;
         settled := p :: settled m; handlers := handlers m |}
  | FinalizeAnswered h res =>
      match handlers m !! h with
      | Some (Some AtFinalize) => after_finalize h res m
      | _ => m
      end
  | Resumed h =>
      match handlers m !! h with
      | Some (Some Flushed) => after_flushed h m
      | Some (Some Stopped) => after_stopped h m
      | Some (Some Uploaded) => after_uploaded h m
      | Some (Some (AtAllSettled ps)) => after_allSettled h ps m
      | _ => m
      end
  end.

Definition play (m : Machine) (l : list Happening) : Machine := foldl happen m l.

End Handlers.

(** *** Schedules without a further click *)

Definition settled_events (l : list (nat * ChunkResult)) : list Happening :=
  List.map (fun x => UploadSettled (fst x) (snd x)) l.

(** The events of a recording, as delivered by recorder [r]. *)
Definition recorder_events (r : nat) (evs : list PageEvent) : list Happening :=
  List.map (fun ev => match ev with
                      | DataAvailable data => FragmentDelivered r data
                      | Settled p res => UploadSettled p res
                      end) evs.

(** A stop click on recorder [r], handled by handler [h], up to the
    final upload: nothing but the fragments of [r], its [stop] event
    and settling uploads arrive, and the handler continues at once. *)
Definition stop_schedule_to_upload (h r : nat) (env : StopEnv) : list Happening :=
  Clicked :: settled_events (while_flushing env) ++
  [FragmentDelivered r (flush_data env); Resumed h] ++
  recorder_events r (while_stopping env) ++
  [RecorderStopped r; Resumed h] ++
  settled_events (while_uploading env).

(** The stop up to the end of the settle-wait: the handler tests the
    tracked uploads and those of [while_settling] settle. *)
Definition stop_schedule_to_wait (h r : nat) (env : StopEnv) : list Happening :=
  stop_schedule_to_upload h r env ++
  [Resumed h] ++ settled_events (while_settling env).

(** The whole stop: the handler is called on to continue after the
    settle-wait, and the finalize request is answered. *)
Definition stop_schedule (h r : nat) (env : StopEnv) : list Happening :=
  stop_schedule_to_wait h r env ++
  [Resumed h] ++ settled_events (while_finalizing env) ++
  [FinalizeAnswered h (finalize_result env)].

(** A start click answered by the microphone, handled by handler [h]. *)
Definition start_schedule (h : nat) (env : StartEnv) : list Happening :=
  [Clicked; MicrophoneAnswered h env].

(** No click handler is suspended. *)
Definition quiescent (m : Machine) : Prop := Forall (fun s => s = None) (handlers m).

(** The uploads that settle among the events. *)
Definition settlers (evs : list PageEvent) : list nat :=
  omap (fun ev => match ev with Settled p _ => Some p | DataAvailable _ => None end) evs.

(** The uploads that have settled when the settle-wait of the stop is
    over, the latest first: [s] holds those settled before the stop. *)
Definition settled_by (s : list nat) (env : StopEnv) : list nat :=
  rev (List.map fst (while_settling env)) ++ rev (List.map fst (while_uploading env)) ++
  rev (settlers (while_stopping env)) ++ rev (List.map fst (while_flushing env)) ++ s.

Definition all_settled (s : list nat) (ps : list nat) : bool :=
  forallb (fun p => bool_decide (p ∈ s)) ps.


(** *** Sample runs of the machine *)

Module Replay.

Local Open Scope string_scope.

Definition granted (uuid : string) : StartEnv :=
  {| getUserMedia := inr tt; randomUUID := uuid |}.

(** The page before any click. *)
Definition idle : Machine :=
  {| world := Sample.idle; recorder := 0; settled := []; handlers := [] |}.

Definition answered (text : string) : ChunkResult :=
  ChunkResponded true {| chunk_detail := None; chunk_transcript := Some text |}.

(** A recording stopped at once: no fragment carries any audio. *)
Definition stopped_at_once : Machine :=
  play (inr tt) idle
    (start_schedule 0 (granted Sample.first_id) ++
     stop_schedule 1 1 (Sample.stop_with [] [] Sample.finalized)).



(** A stop overtaken by the next recording. The first session records
    one slice and is stopped; while its stop waits for the three
    uploads, the button is clicked again and a second session records
    a slice; the uploads settle, the stop continues, and the second
    session records another slice. *)
Definition overtaken_schedule : list Happening :=
  [ Clicked; MicrophoneAnswered 0 (granted Sample.first_id);
    FragmentDelivered 1 (Sample.frag Byte.x01);
    Clicked;
    FragmentDelivered 1 (Sample.frag Byte.x02); Resumed 1;
    FragmentDelivered 1 []; RecorderStopped 1; Resumed 1;
    Resumed 1;
    Clicked; MicrophoneAnswered 2 (granted Sample.second_id);
    FragmentDelivered 2 (Sample.frag Byte.x03);
    UploadSettled 0 (answered "a walk"); UploadSettled 1 (answered "a walk in");
    UploadSettled 2 (answered "a walk in"); Resumed 1;
    FinalizeAnswered 1 Sample.finalized;
    FragmentDelivered 2 (Sample.frag Byte.x04) ]%nat.

Definition overtaken : Machine := play (inr tt) idle overtaken_schedule.

End Replay.

(** * Properties *)

#[local] Arguments String.append !_ _ / : simpl nomatch.

(** ** The calendar *)

Lemma civil_year_of_cycle doe :
  0 <= doe < 146097 ->
  0 <= (doe - doe / 1460 + doe / 36524 - doe / 146096) / 365 <= 399.
Proof. intros H. Z.div_mod_to_equations. lia. Qed.

Lemma civil_day_of_year doe :
  0 <= doe < 146097 ->
  let yoe := (doe - doe / 1460 + doe / 36524 - doe / 146096) / 365 in
  0 <= doe - (365 * yoe + yoe / 4 - yoe / 100) <= 365.
Proof. intros H yoe. subst yoe. Z.div_mod_to_equations. lia. Qed.

(** Months run from 1 to 12 and days of the month from 1 to 31. *)
Lemma civil_from_days_range z :
  let '(y, m, d) := civil_from_days z in 1 <= m <= 12 /\ 1 <= d <= 31.
Proof.
  unfold civil_from_days.
  pose proof (Z.mod_pos_bound (z + 719468) 146097 ltac:(lia)) as Hdoe.
  set (doe := (z + 719468) mod 146097) in *.
  pose proof (civil_day_of_year doe Hdoe) as Hdoy. simpl in Hdoy.
  set (yoe := (doe - doe / 1460 + doe / 36524 - doe / 146096) / 365) in *.
  set (doy := doe - (365 * yoe + yoe / 4 - yoe / 100)) in *.
  assert (Hmp : 0 <= (5 * doy + 2) / 153 <= 11) by (Z.div_mod_to_equations; lia).
  set (mp := (5 * doy + 2) / 153) in *.
  assert (Hd : 1 <= doy - (153 * mp + 2) / 5 + 1 <= 31)
    by (subst mp; Z.div_mod_to_equations; lia).
  split; [| done]. destruct (mp <? 10) eqn:Hlt.
  - apply Z.ltb_lt in Hlt. lia.
  - apply Z.ltb_ge in Hlt. lia.
Qed.

(** The day number is recovered from year, month and day. *)
Lemma days_from_civil_from_days z : days_from_civil (civil_from_days z) = z.
Proof.
  unfold civil_from_days, days_from_civil.
  pose proof (Z.mod_pos_bound (z + 719468) 146097 ltac:(lia)) as Hdoe.
  pose proof (Z.div_mod (z + 719468) 146097 ltac:(lia)) as Hz.
  set (era := (z + 719468) / 146097) in *.
  set (doe := (z + 719468) mod 146097) in *.
  pose proof (civil_year_of_cycle doe Hdoe) as Hyoe.
  pose proof (civil_day_of_year doe Hdoe) as Hdoy. simpl in Hdoy.
  set (yoe := (doe - doe / 1460 + doe / 36524 - doe / 146096) / 365) in *.
  set (doy := doe - (365 * yoe + yoe / 4 - yoe / 100)) in *.
  assert (Hmp : 0 <= (5 * doy + 2) / 153 <= 11) by (Z.div_mod_to_equations; lia).
  set (mp := (5 * doy + 2) / 153) in *.
  set (m := if mp <? 10 then mp + 3 else mp - 9).
  assert (Hm : (if 2 <? m then m - 3 else m + 9) = mp).
  { subst m. destruct (mp <? 10) eqn:Hlt.
    - apply Z.ltb_lt in Hlt. rewrite (proj2 (Z.ltb_lt 2 (mp + 3))) by lia. lia.
    - apply Z.ltb_ge in Hlt. rewrite (proj2 (Z.ltb_ge 2 (mp - 9))) by lia. lia. }
  rewrite Hm.
  assert (Hy : (if m <=? 2
                then yoe + era * 400 + (if m <=? 2 then 1 else 0) - 1
                else yoe + era * 400 + (if m <=? 2 then 1 else 0))
               = yoe + era * 400).
  { destruct (m <=? 2); lia. }
  rewrite Hy.
  rewrite Z.div_add by lia. rewrite Z.mod_add by lia.
  rewrite Z.div_small, Z.mod_small by lia.
  subst doy. lia.
Qed.

Lemma civil_from_days_inj z1 z2 :
  civil_from_days z1 = civil_from_days z2 -> z1 = z2.
Proof.
  intros H. rewrite <- (days_from_civil_from_days z1), <- (days_from_civil_from_days z2).
  by rewrite H.
Qed.

(** *** The rendering of a day *)

Lemma string_length_append (s t : string) :
  String.length (String.append s t) = (String.length s + String.length t)%nat.
Proof. induction s as [|c s IH]; simpl; [done | by rewrite IH]. Qed.

(** Two equal concatenations whose right parts have the same length
    agree part by part. *)
Lemma append_inj_same_tail (s1 s2 t1 t2 : string) :
  String.length t1 = String.length t2 ->
  String.append s1 t1 = String.append s2 t2 ->
  s1 = s2 /\ t1 = t2.
Proof.
  revert s2. induction s1 as [|c s1 IH]; intros [|c2 s2] Hlen Heq; simpl in Heq.
  - done.
  - apply (f_equal String.length) in Heq. simpl in Heq.
    rewrite string_length_append in Heq. lia.
  - apply (f_equal String.length) in Heq. simpl in Heq.
    rewrite string_length_append in Heq. lia.
  - injection Heq as -> Heq. destruct (IH s2 Hlen Heq) as [-> ->]. done.
Qed.

Lemma forallb_range (P : Z -> bool) (n : nat) (z : Z) :
  forallb P (List.map Z.of_nat (seq 0 n)) = true ->
  0 <= z < Z.of_nat n -> P z = true.
Proof.
  rewrite forallb_forall. intros H Hz. apply H.
  apply List.in_map_iff. exists (Z.to_nat z). split; [lia |].
  apply in_seq. lia.
Qed.

(** Below 100, the padded rendering has two characters and reads back
    as the number. *)
Lemma two_digits_padStart n :
  0 <= n < 100 ->
  two_digits (JsString.padStart 2 "0" (pretty n)) = n /\
  String.length (JsString.padStart 2 "0" (pretty n)) = 2%nat.
Proof.
  intros Hn.
  assert (Hall : forallb two_digit_checks (List.map Z.of_nat (seq 0 100)) = true)
    by (vm_compute; reflexivity).
  pose proof (forallb_range two_digit_checks 100 n Hall ltac:(lia)) as Hc.
  unfold two_digit_checks in Hc. apply andb_prop in Hc as [H1 H2].
  split; [by apply Z.eqb_eq | by apply Nat.eqb_eq].
Qed.

Lemma local_day_of_day z : local_day (z * msPerDay) = z.
Proof. unfold local_day, msPerDay. apply Z.div_mul. lia. Qed.

(** [ymd] looks at the local day of its argument only. *)
Lemma ymd_local_day d : ymd d = ymd_of_day (local_day d).
Proof.
  unfold ymd_of_day, ymd, getFullYear, getMonth, getDate.
  by rewrite local_day_of_day.
Qed.

(** Different days are rendered differently. *)
Lemma ymd_of_day_inj z1 z2 : ymd_of_day z1 = ymd_of_day z2 -> z1 = z2.
Proof.
  unfold ymd_of_day, ymd, getFullYear, getMonth, getDate.
  rewrite !local_day_of_day.
  pose proof (civil_from_days_range z1) as Hr1.
  pose proof (civil_from_days_range z2) as Hr2.
  intros Heq. apply civil_from_days_inj.
  destruct (civil_from_days z1) as [[y1 m1] d1], (civil_from_days z2) as [[y2 m2] d2].
  simpl in Heq. destruct Hr1 as [Hm1 Hd1], Hr2 as [Hm2 Hd2].
  replace (m1 - 1 + 1) with m1 in Heq by lia.
  replace (m2 - 1 + 1) with m2 in Heq by lia.
  destruct (two_digits_padStart m1 ltac:(lia)) as [Hv1 Hl1].
  destruct (two_digits_padStart m2 ltac:(lia)) as [Hv2 Hl2].
  destruct (two_digits_padStart d1 ltac:(lia)) as [Hw1 Hk1].
  destruct (two_digits_padStart d2 ltac:(lia)) as [Hw2 Hk2].
  apply append_inj_same_tail in Heq as [Hy Htail].
  - injection Htail as Htail.
    apply append_inj_same_tail in Htail as [Hm Hd].
    + injection Hd as Hd.
      apply (inj pretty) in Hy.
      assert (m1 = m2) by (rewrite <- Hv1, <- Hv2; by rewrite Hm).
      assert (d1 = d2) by (rewrite <- Hw1, <- Hw2; by rewrite Hd).
      congruence.
    + simpl. by rewrite Hk1, Hk2.
  - simpl. rewrite !string_length_append. simpl. by rewrite Hl1, Hl2, Hk1, Hk2.
Qed.

Lemma local_day_setHours0 (d : Date) : local_day (setHours0 d) = local_day d.
Proof.
  unfold local_day, setHours0, msPerDay.
  pose proof (Z.div_mod d 86400000 ltac:(lia)).
  pose proof (Z.mod_pos_bound d 86400000 ltac:(lia)).
  replace (d - d mod 86400000) with (86400000 * (d / 86400000)) by lia.
  rewrite Z.mul_comm. apply Z.div_mul. lia.
Qed.

Lemma setDate_back (d : Date) (n : Z) : setDate d (getDate d - n) = d - n * msPerDay.
Proof. unfold setDate. lia. Qed.

Lemma local_day_setDate_back (d : Date) (n : Z) :
  local_day (setDate d (getDate d - n)) = local_day d - n.
Proof.
  rewrite setDate_back. unfold local_day, msPerDay.
  replace (d - n * 86400000) with (d + (- n) * 86400000) by lia.
  rewrite Z.div_add by lia. lia.
Qed.

Lemma setHours0_le (d : Date) : setHours0 d <= d.
Proof.
  unfold setHours0, msPerDay.
  pose proof (Z.mod_pos_bound d 86400000 ltac:(lia)). lia.
Qed.

(** ** Weekly counts and the streak *)

Lemma streak_loop_0 (set : gset string) d s m : streak_loop set 0 d s m = s.
Proof. reflexivity. Qed.

Lemma streak_loop_S (set : gset string) n d s m :
  streak_loop set (S n) d s m =
    if bool_decide (ymd d ∈ set)
    then streak_loop set n (setDate d (getDate d - 1)) (S s) 0
    else if (2 <=? S m)%nat then s
         else streak_loop set n (setDate d (getDate d - 1)) s (S m).
Proof. reflexivity. Qed.

(** The loop is only unfolded through the two equations above: each
    iteration has two continuations, so unfolding 365 of them at once is
    out of reach. *)
#[global] Opaque streak_loop.

Lemma filter_seq_shift (P : nat -> bool) a k :
  List.filter P (seq (S a) k) = List.map S (List.filter (fun i => P (S i)) (seq a k)).
Proof.
  revert a. induction k as [|k IH]; intros a; simpl; [done |].
  rewrite IH. by destruct (P (S a)).
Qed.

Lemma count_seq_shift (P : nat -> bool) k :
  length (List.filter P (seq 1 k)) = length (List.filter (fun i => P (S i)) (seq 0 k)).
Proof. by rewrite filter_seq_shift, length_map. Qed.

(** The loop, read as a scan: it covers [k] days, never passes two
    missed days in a row, and ends early only on such a pair. [m]
    tells whether the day before the first scanned one was missed. *)
Lemma streak_loop_scan (set : gset string) n d s m :
  (m <= 1)%nat ->
  exists k : nat,
    (k <= n)%nat /\
    streak_loop set n d s m =
      Nat.add s (length (List.filter
                           (fun i => bool_decide (ymd_of_day (local_day d - Z.of_nat i) ∈ set))
                           (seq 0 k))) /\
    (forall i, (i < k)%nat ->
       ~ ((ymd_of_day (local_day d - Z.of_nat i) ∉ set) /\
          match i with
          | O => m = 1%nat
          | S j => ymd_of_day (local_day d - Z.of_nat j) ∉ set
          end)) /\
    (k = n \/
     ((ymd_of_day (local_day d - Z.of_nat k) ∉ set) /\
      match k with
      | O => m = 1%nat
      | S j => ymd_of_day (local_day d - Z.of_nat j) ∉ set
      end)).
Proof.
  revert d s m. induction n as [|n IH]; intros d s m Hm.
  { exists 0%nat. rewrite streak_loop_0. simpl. repeat split; [lia | lia | | by left].
    intros i Hi. lia. }
  rewrite streak_loop_S, ymd_local_day.
  assert (Hday : forall i : nat,
    local_day (setDate d (getDate d - 1)) - Z.of_nat i = local_day d - Z.of_nat (S i)).
  { intros i. rewrite local_day_setDate_back. lia. }
  assert (H0 : local_day d - Z.of_nat 0 = local_day d) by (simpl; lia).
  case_bool_decide as Hin.
  - destruct (IH (setDate d (getDate d - 1)) (S s) 0%nat ltac:(lia))
      as (k & Hk & Heq & Hno & Hstop).
    exists (S k). split; [lia |]. split; [| split].
    + rewrite Heq. cbn [seq List.filter]. rewrite H0.
      rewrite bool_decide_eq_true_2 by done. cbn [length].
      rewrite count_seq_shift.
      rewrite (List.filter_ext _
                 (fun i => bool_decide (ymd_of_day (local_day d - Z.of_nat (S i)) ∈ set)))
        by (intros i; by rewrite Hday).
      lia.
    + intros [|[|j]] Hi [Hmiss Hprev].
      * apply Hmiss. by rewrite H0.
      * apply Hprev. by rewrite H0.
      * apply (Hno (S j) ltac:(lia)). rewrite !Hday. done.
    + destruct Hstop as [-> | [Hmiss Hprev]]; [by left | right].
      destruct k as [|j]; [discriminate |]. rewrite !Hday in *. done.
  - assert (m = 0 \/ m = 1)%nat as [-> | ->] by lia; simpl Nat.leb; cbv iota.
    + destruct (IH (setDate d (getDate d - 1)) s 1%nat ltac:(lia))
        as (k & Hk & Heq & Hno & Hstop).
      exists (S k). split; [lia |]. split; [| split].
      * rewrite Heq. cbn [seq List.filter]. rewrite H0.
        rewrite bool_decide_eq_false_2 by done.
        rewrite count_seq_shift.
        rewrite (List.filter_ext _
                   (fun i => bool_decide (ymd_of_day (local_day d - Z.of_nat (S i)) ∈ set)))
          by (intros i; by rewrite Hday).
        lia.
      * intros [|[|j]] Hi [Hmiss Hprev].
        -- discriminate.
        -- apply (Hno 0%nat ltac:(lia)). rewrite Hday. done.
        -- apply (Hno (S j) ltac:(lia)). rewrite !Hday. done.
      * destruct Hstop as [-> | [Hmiss Hprev]]; [by left | right].
        destruct k as [|j]; rewrite ?Hday in *; [by rewrite H0 | done].
    + exists 0%nat. split; [lia |]. split; [simpl; lia |]. split; [intros i Hi; lia |].
      right. by rewrite H0.
Qed.

Lemma mapM_app_Some {A B} (f : A -> option B) l1 l2 :
  mapM f (l1 ++ l2)
  = match mapM f l1, mapM f l2 with
    | Some k1, Some k2 => Some (k1 ++ k2)
    | _, _ => None
    end.
Proof.
  induction l1 as [|x l1 IH]; simpl.
  - by destruct (mapM f l2).
  - destruct (f x) as [y|]; simpl; [| done].
    rewrite IH. by destruct (mapM f l1), (mapM f l2).
Qed.

Section DashboardFacts.

Variable now : Date.
Variable parseDate : string -> option Date.

Local Abbreviation key := (entry_key now parseDate).
Local Abbreviation day_of := (entry_day now parseDate).
Local Abbreviation entry_on := (has_entry_on now parseDate).
Local Abbreviation miss := (missed now parseDate).
Local Abbreviation miss2 := (second_miss now parseDate).
Local Abbreviation counted := (days_with_entries now parseDate).
Local Abbreviation streak_of := (computeStreakWithGrace now parseDate).
Local Abbreviation weekly := (computeWeeklyTop1Counts now parseDate).

(** The key of an entry is the rendering of its local day. *)
Lemma entry_key_day it : key it = ymd_of_day <$> day_of it.
Proof.
  unfold entry_key, entry_day.
  destruct (parseLocalDateFromISOish now parseDate (created_at it)) as [d|]; [| done].
  simpl. by rewrite ymd_local_day.
Qed.

Lemma has_entry_on_true items day :
  entry_on items day = true <-> exists it, it ∈ items /\ day_of it = Some day.
Proof.
  unfold has_entry_on. rewrite existsb_exists. split.
  - intros (it & Hin & Hk). apply bool_decide_eq_true in Hk.
    exists it. split; [by apply list_elem_of_In | done].
  - intros (it & Hin & Hk). exists it. split; [by apply list_elem_of_In |].
    by apply bool_decide_eq_true.
Qed.

Lemma dated_key it : dated it = true -> is_Some (key it).
Proof.
  unfold dated, entry_key, parseLocalDateFromISOish.
  destruct (truthy (created_at it)); [| done]. intros _.
  destruct (parseDate s); eauto.
Qed.

Lemma key_dated it k : key it = Some k -> dated it = true.
Proof.
  unfold dated, entry_key, parseLocalDateFromISOish.
  destruct (truthy (created_at it)); [done | discriminate].
Qed.

(** The keys are collected exactly when every entry is dated. *)
Lemma keys_collected items :
  forallb dated items = true -> is_Some (mapM key items).
Proof.
  induction items as [|it items IH]; simpl; [eauto |].
  intros [Hd Hrest]%andb_prop.
  destruct (dated_key it Hd) as [k Hk]. destruct (IH Hrest) as [ks Hks].
  rewrite Hk. simpl. rewrite Hks. simpl. eauto.
Qed.

Lemma keys_missing items :
  forallb dated items = false -> mapM key items = None.
Proof.
  intros Hnd. destruct (mapM key items) as [ks|] eqn:Hks; [| done].
  exfalso. apply mapM_Some in Hks.
  assert (forallb dated items = true); [| congruence].
  apply forallb_forall. intros it Hin%list_elem_of_In.
  apply list_elem_of_lookup in Hin as [i Hi].
  destruct (Forall2_lookup_l _ _ _ _ _ Hks Hi) as (k & _ & Hk).
  by eapply key_dated.
Qed.

(** The keys in the [Set] are those of the entries. *)
Lemma keys_of_entries items ks k :
  mapM key items = Some ks ->
  k ∈ ks <-> exists it, it ∈ items /\ key it = Some k.
Proof.
  rewrite mapM_Some. intros HF. split.
  - intros Hin. apply list_elem_of_lookup in Hin as [i Hi].
    destruct (Forall2_lookup_r _ _ _ _ _ HF Hi) as (it & Hit & Hk).
    exists it. split; [| done]. apply list_elem_of_lookup. eauto.
  - intros (it & Hin & Hk). apply list_elem_of_lookup in Hin as [i Hi].
    destruct (Forall2_lookup_l _ _ _ _ _ HF Hi) as (k' & Hki & Hk').
    assert (k' = k) as -> by congruence.
    apply list_elem_of_lookup. eauto.
Qed.

(** A day is in the [Set], under its rendering, exactly when it has an
    entry. *)
Lemma keys_member items ks day :
  mapM key items = Some ks ->
  ymd_of_day day ∈ ks <-> entry_on items day = true.
Proof.
  intros Hks. rewrite (keys_of_entries _ _ _ Hks), has_entry_on_true.
  split; intros (it & Hin & Hk); exists it; (split; [done |]).
  - rewrite entry_key_day in Hk. destruct (day_of it) as [day'|]; [| done].
    simpl in Hk. injection Hk as Hk. apply ymd_of_day_inj in Hk. by subst.
  - rewrite entry_key_day, Hk. done.
Qed.

Lemma streak_of_dated items ks :
  mapM key items = Some ks ->
  streak_of items = Some (streak_loop (list_to_set ks) 365 (setHours0 now) 0 0).
Proof. intros Hks. unfold computeStreakWithGrace. by rewrite Hks. Qed.

Lemma key_set_member items ks i :
  mapM key items = Some ks ->
  bool_decide (ymd_of_day (local_day (setHours0 now) - Z.of_nat i)
                 ∈ (list_to_set ks : gset string))
  = negb (miss items i).
Proof.
  intros Hks. unfold missed. rewrite negb_involutive, local_day_setHours0.
  apply eq_true_iff_eq. rewrite bool_decide_eq_true, elem_of_list_to_set.
  by apply keys_member.
Qed.

Lemma second_miss_match items ks i :
  mapM key items = Some ks ->
  ((ymd_of_day (local_day (setHours0 now) - Z.of_nat i) ∉ (list_to_set ks : gset string)) /\
   match i with
   | O => 0%nat = 1%nat
   | S j => ymd_of_day (local_day (setHours0 now) - Z.of_nat j)
              ∉ (list_to_set ks : gset string)
   end) <-> miss2 items i.
Proof.
  intros Hks.
  assert (Hm : forall j,
             ymd_of_day (local_day (setHours0 now) - Z.of_nat j)
               ∉ (list_to_set ks : gset string)
             <-> miss items j = true).
  { intros j. rewrite <- (negb_involutive (miss items j)), <- (key_set_member _ _ _ Hks).
    rewrite negb_true_iff, bool_decide_eq_false. done. }
  unfold second_miss. split.
  - intros [Hi Hprev]. destruct i as [|j]; [discriminate |].
    exists j. rewrite <- !Hm. done.
  - intros (j & -> & Hj & HSj). rewrite !Hm. done.
Qed.

Lemma missed_at items ks d i :
  mapM key items = Some ks ->
  local_day d = local_day now - Z.of_nat i ->
  bool_decide (ymd d ∈ (list_to_set ks : gset string)) = negb (miss items i).
Proof.
  intros Hks Hd. unfold missed. rewrite negb_involutive, <- Hd.
  apply eq_true_iff_eq. rewrite bool_decide_eq_true, elem_of_list_to_set, ymd_local_day.
  by apply keys_member.
Qed.

(** The loop performs the scan day by day. *)
Lemma streak_loop_scans items ks n d i s m :
  mapM key items = Some ks ->
  local_day d = local_day now - Z.of_nat i ->
  scans now parseDate items n i s m (streak_loop (list_to_set ks) n d s m).
Proof.
  intros Hks. revert d i s m. induction n as [|n IH]; intros d i s m Hd.
  { rewrite streak_loop_0. constructor. }
  rewrite streak_loop_S, (missed_at _ _ _ i Hks Hd).
  assert (Hd' : local_day (setDate d (getDate d - 1)) = local_day now - Z.of_nat (S i))
    by (rewrite local_day_setDate_back; lia).
  destruct (miss items i) eqn:Hmiss; simpl negb; cbv iota.
  - destruct (2 <=? S m)%nat eqn:Hm.
    + apply scans_stop; [done |]. by apply Nat.leb_le.
    + apply scans_miss; [done | |].
      * apply Nat.leb_gt in Hm. lia.
      * by apply IH.
  - apply scans_present; [done |]. by apply IH.
Qed.

(** The scan has one result. *)
Lemma scans_functional items n i s m r1 r2 :
  scans now parseDate items n i s m r1 -> scans now parseDate items n i s m r2 -> r1 = r2.
Proof.
  intros H1. revert r2. induction H1; intros r2 H2; inversion H2; subst;
    try done; try congruence; try lia; auto.
Qed.

(** The streak computed by the code is the one the backward scan
    describes. *)
Lemma streak_of_is_grace_streak items :
  forallb dated items = true ->
  exists streak, streak_of items = Some streak /\ grace_streak now parseDate items streak.
Proof.
  intros Hd. destruct (keys_collected _ Hd) as [ks Hks].
  rewrite (streak_of_dated _ _ Hks). eexists. split; [done |].
  destruct (streak_loop_scan (list_to_set ks) 365 (setHours0 now) 0 0 ltac:(lia))
    as (k & Hk & Heq & Hno & Hstop).
  exists k. split; [done |]. split; [| split].
  - rewrite Heq. unfold days_with_entries. simpl. f_equal.
    apply List.filter_ext. intros i. by apply key_set_member.
  - intros i Hi Hsm. apply (Hno i Hi). by apply (second_miss_match _ _ _ Hks).
  - destruct Hstop as [-> | Hs]; [by left | right].
    by apply (second_miss_match _ _ _ Hks).
Qed.

(** The description pins the streak down. *)
Lemma grace_streak_unique items s1 s2 :
  grace_streak now parseDate items s1 -> grace_streak now parseDate items s2 -> s1 = s2.
Proof.
  intros (k1 & Hk1 & -> & Hno1 & Hstop1) (k2 & Hk2 & -> & Hno2 & Hstop2).
  assert (k1 = k2) as ->; [| done].
  destruct (Nat.lt_trichotomy k1 k2) as [Hlt | [-> | Hlt]]; [| done |].
  - destruct Hstop1 as [-> | Hs]; [lia |]. by destruct (Hno2 _ Hlt).
  - destruct Hstop2 as [-> | Hs]; [lia |]. by destruct (Hno1 _ Hlt).
Qed.

Lemma streak_loop_three_days (set : gset string) d :
  (forall day, ymd_of_day day ∈ set <->
               day = local_day d \/ day = local_day d - 1 \/ day = local_day d - 3) ->
  streak_loop set 365 d 0 0 = 3%nat.
Proof.
  intros Hset.
  assert (Hin : forall e, (local_day e = local_day d \/ local_day e = local_day d - 1 \/
                           local_day e = local_day d - 3) ->
                          bool_decide (ymd e ∈ set) = true).
  { intros e He. apply bool_decide_eq_true. rewrite ymd_local_day. by apply Hset. }
  assert (Hout : forall e, ~ (local_day e = local_day d \/ local_day e = local_day d - 1 \/
                              local_day e = local_day d - 3) ->
                           bool_decide (ymd e ∈ set) = false).
  { intros e He. apply bool_decide_eq_false. rewrite ymd_local_day. by rewrite Hset. }
  rewrite streak_loop_S, Hin by lia.
  rewrite streak_loop_S, Hin by (rewrite ?local_day_setDate_back; lia).
  rewrite streak_loop_S, Hout by (rewrite ?local_day_setDate_back; lia).
  simpl Nat.leb. cbv iota.
  rewrite streak_loop_S, Hin by (rewrite ?local_day_setDate_back; lia).
  rewrite streak_loop_S, Hout by (rewrite ?local_day_setDate_back; lia).
  simpl Nat.leb. cbv iota.
  rewrite streak_loop_S, Hout by (rewrite ?local_day_setDate_back; lia).
  reflexivity.
Qed.

(** C6: for every entry list whose entries carry a date, the streak
    returned by [computeStreakWithGrace] is the result of the scan that
    goes backward from today over at most 365 days, adds one to the
    streak and resets the miss counter on each day with at least one
    entry, adds one to the miss counter on each empty day and stops
    only when two missed days in a row have been met; it is the number
    of days with an entry before the stopping point; when the days with
    an entry are exactly today, yesterday and three days ago, the streak
    is 3. *)
Theorem streak_scans_back_with_one_grace_day items :
  forallb dated items = true ->
  exists streak,
    computeStreakWithGrace now parseDate items = Some streak /\
    scans now parseDate items 365 0 0 0 streak /\
    grace_streak now parseDate items streak /\
    ((forall day, has_entry_on now parseDate items day = true <->
                  day = local_day now \/ day = local_day now - 1 \/
                  day = local_day now - 3) ->
     streak = 3%nat).
Proof.
  intros Hd. destruct (streak_of_is_grace_streak _ Hd) as (streak & Hs & Hg).
  destruct (keys_collected _ Hd) as [ks Hks].
  pose proof Hs as Hs'. rewrite (streak_of_dated _ _ Hks) in Hs'.
  apply (inj Some) in Hs'.
  exists streak. split; [done |]. split; [| split; [done |]].
  { rewrite <- Hs'. apply streak_loop_scans; [done |].
    rewrite local_day_setHours0. simpl. lia. }
  intros Hdays. rewrite <- Hs'.
  apply streak_loop_three_days. intros day.
  rewrite elem_of_list_to_set, (keys_member _ _ _ Hks), local_day_setHours0.
  apply Hdays.
Qed.

Lemma streak_of_same_keys items1 items2 ks1 ks2 :
  mapM key items1 = Some ks1 ->
  mapM key items2 = Some ks2 ->
  (forall k, k ∈ ks1 <-> k ∈ ks2) ->
  streak_of items1 = streak_of items2.
Proof.
  intros Hks1 Hks2 Hsame.
  rewrite (streak_of_dated _ _ Hks1), (streak_of_dated _ _ Hks2).
  do 2 f_equal. apply set_eq. intros k. by rewrite !elem_of_list_to_set.
Qed.

(** C9: the streak depends on the entries only through the set of
    their local dates, rendered as year-month-day; in particular an
    extra entry on a date that already has one leaves the streak as it
    is. *)
Theorem streak_counts_days_not_entries :
  (forall items1 items2 ks1 ks2,
      mapM (entry_key now parseDate) items1 = Some ks1 ->
      mapM (entry_key now parseDate) items2 = Some ks2 ->
      (forall k, k ∈ ks1 <-> k ∈ ks2) ->
      computeStreakWithGrace now parseDate items1
      = computeStreakWithGrace now parseDate items2) /\
  (forall before after extra k,
      entry_key now parseDate extra = Some k ->
      (exists it, it ∈ before ++ after /\ entry_key now parseDate it = Some k) ->
      computeStreakWithGrace now parseDate (before ++ extra :: after)
      = computeStreakWithGrace now parseDate (before ++ after)).
Proof.
  split; [apply streak_of_same_keys |].
  intros before after extra k Hk Hpresent.
  destruct (mapM key (before ++ after)) as [ks|] eqn:Hks.
  - pose proof Hks as Hks'. rewrite mapM_app_Some in Hks'.
    destruct (mapM key before) as [kb|] eqn:Hb; [| done].
    destruct (mapM key after) as [ka|] eqn:Ha; [| done].
    injection Hks' as <-.
    apply (streak_of_same_keys _ _ (kb ++ k :: ka) (kb ++ ka)); [| done |].
    + rewrite mapM_app_Some, Hb. simpl. by rewrite Hk, Ha.
    + intros k'. rewrite !elem_of_app, elem_of_cons.
      assert (k ∈ kb ++ ka) as Hin by (by apply (keys_of_entries _ _ _ Hks)).
      apply elem_of_app in Hin. split; [| tauto].
      intros [? | [-> | ?]]; tauto.
  - unfold computeStreakWithGrace. rewrite Hks.
    rewrite mapM_app_Some in Hks |- *. simpl.
    destruct (mapM key before) as [kb|]; [| done].
    rewrite Hk. simpl. by destruct (mapM key after).
Qed.

(** *** Weekly counts *)

Lemma weekly_step_lookup start counts it l :
  start = daysAgoDate now 6 ->
  weekly_step now parseDate start counts it !! l
  = if in_window_with_top now parseDate l it
    then Some (S (default 0%nat (counts !! l)))
    else counts !! l.
Proof.
  intros ->. unfold weekly_step, in_window_with_top.
  destruct (parseLocalDateFromISOish now parseDate (created_at it)) as [d|]; [| done].
  destruct (d <? daysAgoDate now 6); [done |]. simpl.
  destruct (top_label it) as [l'|].
  - case_bool_decide as Heq.
    + injection Heq as ->. rewrite lookup_insert_eq. f_equal. lia.
    + rewrite lookup_insert_ne; [done | congruence].
  - by rewrite bool_decide_eq_false_2.
Qed.

Lemma weekly_fold_lookup items counts l :
  foldl (weekly_step now parseDate (daysAgoDate now 6)) counts items !! l
  = match length (List.filter (in_window_with_top now parseDate l) items) with
    | O => counts !! l
    | S n => Some (default 0%nat (counts !! l) + S n)%nat
    end.
Proof.
  revert counts. induction items as [|it items IH]; intros counts; [done |].
  simpl. rewrite IH, weekly_step_lookup by done.
  destruct (in_window_with_top now parseDate l it); simpl.
  - destruct (length _); simpl; f_equal; lia.
  - done.
Qed.

(** Each label is counted once per entry of the window that has it on
    top. *)
Lemma weekly_lookup items l :
  weekly items !! l
  = match length (List.filter (in_window_with_top now parseDate l) items) with
    | O => None
    | S n => Some (S n)
    end.
Proof.
  unfold computeWeeklyTop1Counts. rewrite weekly_fold_lookup.
  by rewrite lookup_empty.
Qed.

Lemma now_in_window : (now <? daysAgoDate now 6) = false.
Proof.
  apply Z.ltb_ge. unfold daysAgoDate. rewrite setDate_back.
  pose proof (setHours0_le now). unfold msPerDay. lia.
Qed.

Lemma streak_loop_ge (set : gset string) n d s m :
  (m <= 1)%nat -> (s <= streak_loop set n d s m)%nat.
Proof.
  intros Hm. destruct (streak_loop_scan set n d s m Hm) as (k & _ & -> & _). lia.
Qed.

(** C10: an entry whose [created_at] is present (a non-empty string,
    which is what the guard of [parseLocalDateFromISOish] lets through)
    but is rejected by the date parser is dated at the current moment:
    it lies inside the weekly window, so its top emotion, when it has
    one, is counted there once more than without the entry, and its key
    is today's, which makes today a day with an entry, so the streak is
    at least 1. *)
Theorem unparsable_date_counts_as_now it s :
  truthy (created_at it) = Some s ->
  parseDate s = None ->
  parseLocalDateFromISOish now parseDate (created_at it) = Some now /\
  (forall l, in_window_with_top now parseDate l it = bool_decide (top_label it = Some l)) /\
  (forall before after l,
      top_label it = Some l ->
      computeWeeklyTop1Counts now parseDate (before ++ it :: after) !! l
      = Some (S (default 0%nat (computeWeeklyTop1Counts now parseDate (before ++ after) !! l)))) /\
  entry_key now parseDate it = Some (ymd now) /\
  (forall items, it ∈ items -> has_entry_on now parseDate items (local_day now) = true) /\
  (forall items,
      it ∈ items -> forallb dated items = true ->
      exists streak,
        computeStreakWithGrace now parseDate items = Some streak /\ (1 <= streak)%nat).
Proof.
  intros Hc Hp.
  assert (Hnow : parseLocalDateFromISOish now parseDate (created_at it) = Some now).
  { unfold parseLocalDateFromISOish. by rewrite Hc, Hp. }
  assert (Hwin : forall l, in_window_with_top now parseDate l it
                           = bool_decide (top_label it = Some l)).
  { intros l. unfold in_window_with_top. by rewrite Hnow, now_in_window. }
  assert (Hkey : key it = Some (ymd now)).
  { unfold entry_key. by rewrite Hnow. }
  assert (Htoday : forall items, it ∈ items -> entry_on items (local_day now) = true).
  { intros items Hin. apply has_entry_on_true. exists it. split; [done |].
    unfold entry_day. by rewrite Hnow. }
  split; [done |]. split; [done |]. split; [| split; [done | split; [done |]]].
  - intros before after l Htop. rewrite !weekly_lookup.
    rewrite !List.filter_app, !length_app. simpl.
    rewrite Hwin, bool_decide_eq_true_2 by done. simpl.
    rewrite Nat.add_succ_r.
    destruct (length _ + length _)%nat; done.
  - intros items Hin Hd. destruct (keys_collected _ Hd) as [ks Hks].
    rewrite (streak_of_dated _ _ Hks). eexists. split; [done |].
    rewrite streak_loop_S, bool_decide_eq_true_2.
    + apply (streak_loop_ge _ _ _ 1%nat 0%nat). lia.
    + rewrite elem_of_list_to_set, ymd_local_day, (keys_member _ _ _ Hks).
      rewrite local_day_setHours0. by apply Htoday.
Qed.

End DashboardFacts.

Lemma streak_scan_witness :
  forallb dated Sample.week = true /\
  exists streak,
    computeStreakWithGrace Sample.now Sample.parse Sample.week = Some streak /\
    scans Sample.now Sample.parse Sample.week 365 0 0 0 streak /\
    grace_streak Sample.now Sample.parse Sample.week streak /\
    ((forall day, has_entry_on Sample.now Sample.parse Sample.week day = true <->
                  day = local_day Sample.now \/ day = local_day Sample.now - 1 \/
                  day = local_day Sample.now - 3) ->
     streak = 3%nat).
Proof.
  split; [reflexivity |].
  apply (streak_scans_back_with_one_grace_day Sample.now Sample.parse Sample.week).
  reflexivity.
Defined.

Lemma streak_days_witness :
  computeStreakWithGrace Sample.now Sample.parse
    ([Sample.entry 1 "2024-04-10T08:15:00" "joy"]
       ++ Sample.entry 5 "2024-04-10T08:15:00" "calm"
       :: [Sample.entry 2 "2024-04-09T21:00:00" "joy"])
  = computeStreakWithGrace Sample.now Sample.parse
      ([Sample.entry 1 "2024-04-10T08:15:00" "joy"]
         ++ [Sample.entry 2 "2024-04-09T21:00:00" "joy"]).
Proof.
  apply (proj2 (streak_counts_days_not_entries Sample.now Sample.parse)
           _ _ _ "2024-04-10"%string).
  - vm_compute. reflexivity.
  - exists (Sample.entry 1 "2024-04-10T08:15:00" "joy"). split.
    + apply list_elem_of_here.
    + vm_compute. reflexivity.
Defined.

Lemma unparsable_date_witness :
  parseLocalDateFromISOish Sample.now Sample.parse (created_at Sample.garbled)
  = Some Sample.now /\
  entry_key Sample.now Sample.parse Sample.garbled = Some "2024-04-10"%string /\
  has_entry_on Sample.now Sample.parse [Sample.garbled] (local_day Sample.now) = true.
Proof.
  destruct (unparsable_date_counts_as_now Sample.now Sample.parse Sample.garbled
              "yesterday-ish" eq_refl eq_refl)
    as (Hnow & _ & _ & Hkey & Htoday & _).
  split; [exact Hnow |]. split; [exact Hkey |]. apply Htoday. apply list_elem_of_here.
Defined.

(** ** Strings *)

Lemma prefix_append (t s : string) :
  String.prefix t s = true <-> exists rest, s = String.append t rest.
Proof.
  revert s. induction t as [|a t IH]; intros [|b s]; simpl.
  - split; [intros _; by exists EmptyString | done].
  - split; [intros _; by exists (String b s) | done].
  - split; [done | intros [rest Hr]; discriminate].
  - destruct (ascii_dec a b) as [-> | Hne].
    + rewrite IH. split; intros [rest Hr]; exists rest; congruence.
    + split; [done | intros [rest Hr]; congruence].
Qed.

(** [includes] decides the substring relation. *)
Lemma includes_substring (s t : string) :
  JsString.includes s t = true <-> substring_of t s.
Proof.
  unfold substring_of. induction s as [|c s IH].
  - destruct t as [|a t]; simpl.
    + split; [intros _; by exists EmptyString, EmptyString | done].
    + split; [done |]. intros ([|b before] & after & Hs); discriminate.
  - change (JsString.includes (String c s) t)
      with (String.prefix t (String c s) || JsString.includes s t).
    rewrite orb_true_iff, prefix_append, IH. split.
    + intros [[rest Hr] | (before & after & Hs)].
      * by exists EmptyString, rest.
      * exists (String c before), after. simpl. by rewrite Hs.
    + intros ([|b before] & after & Hs); simpl in Hs.
      * left. by exists after.
      * right. exists before, after. congruence.
Qed.

Lemma trimStart_blank (s : string) :
  forallb JsString.is_space (list_ascii_of_string s) = true ->
  JsString.trimStart s = EmptyString.
Proof.
  induction s as [|c s IH]; simpl; [done |].
  intros [-> Hs]%andb_prop. by apply IH.
Qed.

(** A blank query is trimmed to the empty string. *)
Lemma trim_blank (s : string) :
  forallb JsString.is_space (list_ascii_of_string s) = true ->
  JsString.trim s = EmptyString.
Proof. intros Hs. unfold JsString.trim. by rewrite trimStart_blank. Qed.

Lemma lower_char_not_upper (c : ascii) :
  JsString.is_upper (JsString.lower_char c) = false.
Proof.
  destruct c as [[] [] [] [] [] [] [] []]; reflexivity.
Qed.

Lemma toLowerCase_chars (s : string) c :
  In c (list_ascii_of_string (JsString.toLowerCase s)) -> JsString.is_upper c = false.
Proof.
  induction s as [|a s IH]; simpl; [done |].
  intros [<- | Hin]; [apply lower_char_not_upper | by apply IH].
Qed.

Lemma list_ascii_append (s1 s2 : string) :
  list_ascii_of_string (String.append s1 s2)
  = list_ascii_of_string s1 ++ list_ascii_of_string s2.
Proof. induction s1 as [|c s1 IH]; simpl; [done | by rewrite IH]. Qed.

(** Every piece cut by [split_go] is made of characters of the input
    that are not separators. *)
Lemma split_go_pieces (sep : ascii -> bool) (s cur : string) (in_run : bool) piece c :
  (forall a, In a (list_ascii_of_string cur) ->
             sep a = false /\ In a (list_ascii_of_string (String.append cur s))) ->
  In piece (JsString.split_go sep s cur in_run) ->
  In c (list_ascii_of_string piece) ->
  sep c = false /\ In c (list_ascii_of_string (String.append cur s)).
Proof.
  revert cur in_run. induction s as [|a s IH]; intros cur in_run Hcur; simpl.
  - intros [<- | []] Hc. by apply Hcur.
  - destruct (sep a) eqn:Hsep.
    + assert (Hempty : forall x, In x (list_ascii_of_string EmptyString) ->
                sep x = false /\ In x (list_ascii_of_string (String.append EmptyString s)))
        by (intros x []).
      assert (Htail : forall x, In x (list_ascii_of_string s) ->
                In x (list_ascii_of_string (String.append cur (String a s)))).
      { intros x Hx. rewrite list_ascii_append. apply in_or_app. right. simpl. by right. }
      destruct in_run.
      * intros Hp Hc.
        assert (Hcur' : forall x, In x (list_ascii_of_string cur) ->
                  sep x = false /\ In x (list_ascii_of_string (String.append cur s))).
        { intros x Hx. split; [by apply Hcur |].
          rewrite list_ascii_append. apply in_or_app. by left. }
        destruct (IH cur true Hcur' Hp Hc) as [Hs Hin]. split; [done |].
        rewrite list_ascii_append in Hin |- *. apply in_app_or in Hin as [Hin | Hin];
          apply in_or_app; [by left | right; simpl; by right].
      * intros [<- | Hp] Hc; [by apply Hcur |].
        destruct (IH EmptyString true Hempty Hp Hc) as [Hs Hin].
        split; [done |]. by apply Htail.
    + intros Hp Hc.
      assert (Hcur' : forall x,
                In x (list_ascii_of_string (String.append cur (String a EmptyString))) ->
                sep x = false /\
                In x (list_ascii_of_string
                        (String.append (String.append cur (String a EmptyString)) s))).
      { intros x Hx. rewrite !list_ascii_append in *. simpl in *.
        apply in_app_or in Hx as [Hx | [<- | []]].
        - split; [by apply Hcur |]. apply in_or_app. left. apply in_or_app. by left.
        - split; [done |]. apply in_or_app. left. apply in_or_app. right. by left. }
      destruct (IH _ false Hcur' Hp Hc) as [Hs Hin]. split; [done |].
      rewrite !list_ascii_append in *. simpl in *.
      apply in_app_or in Hin as [Hin | Hin]; [| apply in_or_app; right; by right].
      apply in_app_or in Hin as [Hin | [<- | []]]; apply in_or_app;
        [by left | right; by left].
Qed.

(** The terms of a query are lower-case words. *)
Lemma query_terms_are_terms (q : string) :
  Forall is_term (query_terms q).
Proof.
  apply List.Forall_forall. intros t Hin.
  unfold query_terms, JsString.filter_Boolean in Hin.
  apply List.filter_In in Hin as [Hin Hne]. split.
  - destruct t; [discriminate | done].
  - intros c Hc.
    destruct (split_go_pieces JsString.is_space (JsString.toLowerCase q)
                EmptyString false t c) as [Hs Hq]; [by intros a [] | done | done |].
    split; [done |]. by eapply toLowerCase_chars.
Qed.

(** ** Entry cache and search *)

Lemma ensure_call_hydrated (st : Store) i it :
  allEntries st !! i = Some it -> hydrated it = true -> ensure_call i st = (false, st).
Proof. intros Hi Hh. unfold ensure_call. by rewrite Hi, Hh. Qed.

Lemma hydration_step_keeps (st : Store) ev i it :
  allEntries st !! i = Some it -> hydrated it = true ->
  exists it', allEntries (hydration_step st ev) !! i = Some it' /\ hydrated it' = true.
Proof.
  intros Hi Hh. destruct ev as [j | j [e | full]]; simpl.
  - unfold ensure_call. destruct (allEntries st !! j) as [it0|]; [| by eauto].
    destruct (hydrated it0); simpl; eauto.
  - eauto.
  - destruct (allEntries st !! j) as [it0|] eqn:Hj; simpl; [| by eauto].
    destruct (decide (j = i)) as [-> | Hne].
    + exists (memoize it0 full). split; [| done].
      apply list_lookup_insert_eq. by eapply lookup_lt_Some.
    + exists it. by rewrite list_lookup_insert_ne.
Qed.

(** Nothing un-hydrates an entry: whatever the calls in progress do,
    a hydrated object stays hydrated. *)
Lemma run_schedule_keeps (sched : list HydrationStep) (st : Store) i it :
  allEntries st !! i = Some it -> hydrated it = true ->
  exists it', allEntries (run_schedule st sched) !! i = Some it' /\ hydrated it' = true.
Proof.
  revert st it. induction sched as [|ev sched IH]; intros st it Hi Hh; simpl; [by eauto |].
  destruct (hydration_step_keeps st ev i it Hi Hh) as (it' & Hi' & Hh').
  by apply (IH _ it').
Qed.

Section SearchFacts.

Variable remote : nat -> Thrown FullEntry.

Local Abbreviation ensure := (ensureEntryCached remote).
Local Abbreviation hydrate := (hydrate_with remote).
Local Abbreviation search := (renderHistoryWithQuery remote).

Lemma hydrated_hydrate it : servable remote it = true -> hydrated (hydrate it) = true.
Proof.
  unfold servable, hydrate_with. destruct (hydrated it) eqn:Hh; [done |]. simpl.
  by destruct (remote (id it)).
Qed.

Lemma hydrate_hydrated it : hydrated it = true -> hydrate it = it.
Proof. unfold hydrate_with. by intros ->. Qed.

(** One uninterrupted call on a servable entry: the object ends up
    hydrated and a request is sent only if it was not. *)
Lemma ensure_at entries log i it :
  entries !! i = Some it ->
  servable remote it = true ->
  ensure i {| allEntries := entries; fetchLog := log |}
  = (inr tt, {| allEntries := <[ i := hydrate it ]> entries;
                fetchLog := log ++ (if hydrated it then [] else [id it]) |}).
Proof.
  intros Hi Hs. unfold ensureEntryCached, ensure_call, hydrate_with, servable in *.
  simpl. rewrite Hi. destruct (hydrated it) eqn:Hh.
  - by rewrite list_insert_id, app_nil_r.
  - simpl in *. rewrite Hi. destruct (remote (id it)) as [e | full]; [done |].
    simpl. by rewrite Hi.
Qed.

Lemma ensure_success (st st1 : Store) i it :
  allEntries st !! i = Some it ->
  ensure i st = (inr tt, st1) ->
  servable remote it = true.
Proof.
  intros Hi. unfold ensureEntryCached, ensure_call, servable.
  rewrite Hi. destruct (hydrated it); [done |]. simpl. rewrite Hi.
  by destruct (remote (id it)).
Qed.

Lemma search_loop_S terms n i results st :
  search_loop remote terms (S n) i results st
  = match ensure i st with
    | (inl e, st') => (inl e, st')
    | (inr _, st') =>
        match allEntries st' !! i with
        | Some it =>
            search_loop remote terms n (S i)
              (if entry_ok terms it then results ++ [it] else results) st'
        | None => search_loop remote terms n (S i) results st'
        end
    end.
Proof. reflexivity. Qed.

(** The loop over servable entries: every object from position [i] on
    is hydrated in place, the unhydrated ones are fetched once each, in
    order, and the matching ones are appended to the results. *)
Lemma search_loop_servable terms n i results entries log :
  (i + n = length entries)%nat ->
  forallb (servable remote) (drop i entries) = true ->
  search_loop remote terms n i results {| allEntries := entries; fetchLog := log |}
  = (inr (results ++ List.filter (entry_ok terms) (List.map hydrate (drop i entries))),
     {| allEntries := take i entries ++ List.map hydrate (drop i entries);
        fetchLog := log ++ List.map id
                      (List.filter (fun it => negb (hydrated it)) (drop i entries)) |}).
Proof.
  revert i results entries log.
  induction n as [|n IH]; intros i results entries log Hlen Hserv.
  - rewrite drop_ge by lia. rewrite take_ge by lia. simpl.
    by rewrite !app_nil_r.
  - destruct (lookup_lt_is_Some_2 entries i ltac:(lia)) as [it Hi].
    rewrite (drop_S _ _ _ Hi) in Hserv |- *. simpl in Hserv.
    apply andb_prop in Hserv as [Hit Hrest].
    rewrite search_loop_S, (ensure_at _ _ _ _ Hi Hit). simpl.
    rewrite list_lookup_insert_eq by (by eapply lookup_lt_Some).
    rewrite IH; [| rewrite length_insert; lia | rewrite drop_insert_lt by lia; done].
    rewrite drop_insert_lt by lia.
    rewrite (take_S_r _ _ (hydrate it))
      by (apply list_lookup_insert_eq; by eapply lookup_lt_Some).
    rewrite take_insert_ge by lia. simpl.
    f_equal.
    + f_equal. destruct (entry_ok terms (hydrate it)); by rewrite <- ?app_assoc.
    + f_equal; [by rewrite <- app_assoc |].
      rewrite <- app_assoc. f_equal. by destruct (hydrated it).
Qed.

Lemma search_loop_success terms n i results (st st1 : Store) shown :
  (i + n = length (allEntries st))%nat ->
  search_loop remote terms n i results st = (inr shown, st1) ->
  forallb (servable remote) (drop i (allEntries st)) = true.
Proof.
  revert i results st.
  induction n as [|n IH]; intros i results [entries log] Hlen; simpl in Hlen.
  - intros _. by rewrite drop_ge by (simpl; lia).
  - destruct (lookup_lt_is_Some_2 entries i ltac:(lia)) as [it Hi].
    rewrite search_loop_S.
    destruct (ensure i _) as [[e | []] st'] eqn:He; [done |].
    pose proof (ensure_success {| allEntries := entries; fetchLog := log |} _ _ _ Hi He)
      as Hit.
    rewrite (ensure_at _ _ _ _ Hi Hit) in He. injection He as <-.
    simpl. rewrite list_lookup_insert_eq by (by eapply lookup_lt_Some).
    intros Hloop. apply IH in Hloop; [| simpl; rewrite length_insert; lia].
    simpl in Hloop. rewrite drop_insert_lt in Hloop by lia.
    rewrite (drop_S _ _ _ Hi). simpl. by rewrite Hit, Hloop.
Qed.

Lemma entry_ok_spec terms it :
  entry_ok terms it = true <->
  forall t, In t terms ->
            substring_of t (entry_text it) \/ substring_of t (entry_tags it).
Proof.
  unfold entry_ok. rewrite forallb_forall.
  split; intros H t Ht; specialize (H t Ht).
  - apply orb_true_iff in H. by rewrite <- !includes_substring.
  - apply orb_true_iff. by rewrite !includes_substring.
Qed.

(** A search over a hydrated cache reads the cache and nothing else. *)
Lemma search_hydrated (st : Store) query :
  forallb hydrated (allEntries st) = true ->
  snd (search query st) = st.
Proof.
  intros Hh. unfold renderHistoryWithQuery.
  destruct (JsString.is_empty _); [done |].
  destruct st as [entries log]. simpl in *.
  assert (Hall : forall it, In it entries -> hydrated it = true)
    by (by apply forallb_forall).
  rewrite search_loop_servable; [| done |].
  - simpl. f_equal.
    + rewrite <- (List.map_id entries) at 2.
      apply List.map_ext_in. intros it Hin. apply hydrate_hydrated. by apply Hall.
    + rewrite <- (app_nil_r log) at 2. f_equal.
      induction entries as [|it entries IH]; simpl; [done |].
      rewrite (Hall it) by (by left). simpl. apply IH.
      * by apply andb_prop in Hh as [_ ?].
      * intros it' Hin. apply Hall. by right.
  - simpl. apply forallb_forall. intros it Hin. unfold servable.
    by rewrite (Hall it Hin).
Qed.

Lemma is_empty_true s : JsString.is_empty s = true <-> s = EmptyString.
Proof. destruct s; simpl; split; congruence. Qed.

Lemma search_servable (st : Store) query :
  forallb (servable remote) (allEntries st) = true ->
  JsString.trim (default EmptyString query) <> EmptyString ->
  search query st
  = (inr (List.filter (entry_ok (query_terms (JsString.trim (default EmptyString query))))
            (List.map hydrate (allEntries st))),
     {| allEntries := List.map hydrate (allEntries st);
        fetchLog := fetchLog st ++ List.map id
                      (List.filter (fun it => negb (hydrated it)) (allEntries st)) |}).
Proof.
  intros Hs Hq. unfold renderHistoryWithQuery.
  destruct (JsString.is_empty _) eqn:He; [by apply is_empty_true in He |].
  destruct st as [entries log]. simpl in *.
  by rewrite search_loop_servable.
Qed.

(** C4 (as amended): the search returns, in cache order, exactly the
    entries for which every term of the query -- the lower-cased words
    obtained by splitting the query on white space -- occurs in the
    lower-cased transcript or in the joined image tags; a blank query
    returns the whole cache unfiltered; on the three sample entries the
    query "happy quiet" returns the second entry only. *)
Theorem search_keeps_entries_matching_every_term (st : Store) (query : option string) :
  forallb (servable remote) (allEntries st) = true ->
  exists shown st',
    renderHistoryWithQuery remote query st = (inr shown, st') /\
    (forallb JsString.is_space (list_ascii_of_string (default EmptyString query)) = true ->
     shown = allEntries st /\ st' = st) /\
    (JsString.trim (default EmptyString query) <> EmptyString ->
     let terms := query_terms (JsString.trim (default EmptyString query)) in
     allEntries st' = List.map (hydrate_with remote) (allEntries st) /\
     shown = List.filter (entry_ok terms) (allEntries st') /\
     Forall is_term terms /\
     forall it,
       In it shown <->
       In it (allEntries st') /\
       forall t, In t terms ->
                 substring_of t (entry_text it) \/ substring_of t (entry_tags it)) /\
    fst (renderHistoryWithQuery Sample.offline (Some "happy quiet"%string) Sample.journal)
    = inr [Sample.entry2].
Proof.
  intros Hs.
  destruct (JsString.is_empty (JsString.trim (default EmptyString query))) eqn:He.
  - exists (allEntries st), st. apply is_empty_true in He.
    split; [| split; [done | split; [done | reflexivity]]].
    unfold renderHistoryWithQuery. by rewrite He.
  - assert (Hq : JsString.trim (default EmptyString query) <> EmptyString).
    { intros Hq. by rewrite Hq in He. }
    eexists _, _. split; [by apply search_servable |].
    split; [| split; [| reflexivity]].
    + intros Hblank. by apply trim_blank in Hblank.
    + intros _. simpl. split; [done |]. split; [done |].
      split; [apply query_terms_are_terms |].
      intros it. by rewrite List.filter_In, entry_ok_spec.
Qed.

Lemma NoDup_map_filter {A B} (f : A -> B) (P : A -> bool) l :
  NoDup (List.map f l) -> NoDup (List.map f (List.filter P l)).
Proof.
  induction l as [|x l IH]; simpl; [done |].
  intros [Hx Hl]%NoDup_cons. destruct (P x); simpl; [| by apply IH].
  apply NoDup_cons. split; [| by apply IH].
  intros Hin. apply Hx. apply list_elem_of_In in Hin. apply list_elem_of_In.
  apply List.in_map_iff in Hin as (y & <- & Hy). apply List.in_map_iff.
  exists y. split; [done |]. by apply List.filter_In in Hy as [? _].
Qed.

(** Once every entry is hydrated, searches made one after another
    change nothing. *)
Lemma sequential_searches_hydrated queries (st : Store) :
  forallb hydrated (allEntries st) = true ->
  sequential_searches remote st queries = st.
Proof.
  intros Hh. induction queries as [|q queries IH]; [done |].
  unfold sequential_searches in *. simpl. by rewrite search_hydrated.
Qed.

(** Searches made one after another on a fresh cache whose entries the
    remote store can serve request no entry twice. *)
Lemma sequential_searches_fetch_once queries (st : Store) :
  NoDup (List.map id (allEntries st)) ->
  fetchLog st = [] ->
  forallb (servable remote) (allEntries st) = true ->
  fetched_at_most_once (sequential_searches remote st queries).
Proof.
  intros Hids Hlog Hs. unfold fetched_at_most_once.
  induction queries as [|q queries IH];
    [unfold sequential_searches; simpl; rewrite Hlog; constructor |].
  unfold sequential_searches in *. simpl.
  destruct (JsString.is_empty (JsString.trim (default EmptyString q))) eqn:He.
  - unfold renderHistoryWithQuery at 2. by rewrite He.
  - assert (Hq : JsString.trim (default EmptyString q) <> EmptyString).
    { intros Hq. by rewrite Hq in He. }
    rewrite (search_servable _ _ Hs Hq). simpl.
    pose proof (sequential_searches_hydrated queries
                  {| allEntries := List.map hydrate (allEntries st);
                     fetchLog := fetchLog st ++ List.map id
                       (List.filter (fun it => negb (hydrated it)) (allEntries st)) |})
      as Hrest.
    unfold sequential_searches in Hrest. rewrite Hrest.
    + simpl. rewrite Hlog. simpl. by apply NoDup_map_filter.
    + simpl. apply forallb_forall. intros it' (it & <- & Hin)%List.in_map_iff.
      apply hydrated_hydrate. revert it Hin. by apply forallb_forall.
Qed.

(** C8 (as amended): an uninterrupted hydration request sends at most
    one fetch and leaves the entry hydrated, so repeating it sends
    nothing and changes nothing; a hydrated entry stays hydrated
    whatever the requests in progress do, and a request that starts on
    it sends nothing; after a search that completed, every entry is
    hydrated and later searches leave the store, and with it the list of
    requests sent, as it is; searches made one after another on a fresh
    cache therefore request no entry twice. *)
Theorem hydration_is_memoized :
  (forall (st st1 : Store) i,
      ensureEntryCached remote i st = (inr tt, st1) ->
      ensureEntryCached remote i st1 = (inr tt, st1) /\
      exists sent, fetchLog st1 = fetchLog st ++ sent /\ (length sent <= 1)%nat) /\
  (forall (st : Store) i it,
      allEntries st !! i = Some it -> hydrated it = true ->
      ensure_call i st = (false, st) /\
      ensureEntryCached remote i st = (inr tt, st) /\
      forall sched, exists it',
          allEntries (run_schedule st sched) !! i = Some it' /\ hydrated it' = true) /\
  (forall (st st1 : Store) query shown,
      JsString.trim (default EmptyString query) <> EmptyString ->
      renderHistoryWithQuery remote query st = (inr shown, st1) ->
      forallb hydrated (allEntries st1) = true /\
      forall query', snd (renderHistoryWithQuery remote query' st1) = st1) /\
  (forall (st : Store) queries,
      NoDup (List.map id (allEntries st)) ->
      fetchLog st = [] ->
      forallb (servable remote) (allEntries st) = true ->
      fetched_at_most_once (sequential_searches remote st queries)).
Proof.
  split; [| split; [| split]]; [| | | intros; by apply sequential_searches_fetch_once].
  - intros [entries log] st1 i. unfold ensureEntryCached at 1, ensure_call. simpl.
    destruct (entries !! i) as [it|] eqn:Hi.
    + destruct (hydrated it) eqn:Hh; simpl.
      * intros [= <-]. split; [| exists []; rewrite app_nil_r; split; [done | simpl; lia]].
        unfold ensureEntryCached, ensure_call. simpl. by rewrite Hi, Hh.
      * rewrite Hi. destruct (remote (id it)) as [e | full]; [done |]. simpl.
        rewrite Hi. intros [= <-]. split; [| exists [id it]; split; [done | simpl; lia]].
        unfold ensureEntryCached, ensure_call. simpl.
        by rewrite list_lookup_insert_eq by (by eapply lookup_lt_Some).
    + intros [= <-]. split; [| exists []; rewrite app_nil_r; split; [done | simpl; lia]].
      unfold ensureEntryCached, ensure_call. simpl. by rewrite Hi.
  - intros st i it Hi Hh. split; [by eapply ensure_call_hydrated |]. split.
    + unfold ensureEntryCached. by rewrite (ensure_call_hydrated _ _ _ Hi Hh).
    + intros sched. by eapply run_schedule_keeps.
  - intros st st1 query shown Hq Hsearch.
    assert (Hs : forallb (servable remote) (allEntries st) = true).
    { unfold renderHistoryWithQuery in Hsearch.
      destruct (JsString.is_empty _) eqn:He; [by apply is_empty_true in He |].
      apply search_loop_success in Hsearch; [| simpl; lia]. done. }
    rewrite (search_servable _ _ Hs Hq) in Hsearch. injection Hsearch as _ <-.
    assert (Hall : forallb hydrated (List.map hydrate (allEntries st)) = true).
    { apply forallb_forall. intros it' (it & <- & Hin)%List.in_map_iff.
      apply hydrated_hydrate. revert it Hin. by apply forallb_forall. }
    split; [done |]. intros query'. by apply search_hydrated.
Qed.

End SearchFacts.

(** C4, as stated: on the three sample entries the query "happy quiet"
    does not return entries 2 and 3; the third entry has "happy" among
    its tags but "quiet" nowhere. *)
Lemma happy_quiet_rejects_third_entry :
  fst (renderHistoryWithQuery Sample.offline (Some "happy quiet"%string) Sample.journal)
  <> inr [Sample.entry2; Sample.entry3].
Proof. vm_compute. intros H. discriminate H. Qed.

Lemma search_witness :
  exists shown st',
    renderHistoryWithQuery Sample.offline (Some "happy quiet"%string) Sample.journal
    = (inr shown, st') /\ shown = [Sample.entry2].
Proof.
  destruct (search_keeps_entries_matching_every_term Sample.offline Sample.journal
              (Some "happy quiet"%string) eq_refl)
    as (shown & st' & Hrun & _ & _ & _).
  exists shown, st'. split; [exact Hrun |].
  vm_compute in Hrun. injection Hrun as <- _. reflexivity.
Defined.

(** C8, as stated: two searches in progress at the same time both find
    entry 7 not yet hydrated and both request it. *)
Lemma overlapping_searches_fetch_twice :
  fetchLog (run_schedule Sample.unhydrated
              [Call 0; Call 0; Resume 0 (inr Sample.full7); Resume 0 (inr Sample.full7)])
  = [7%nat; 7%nat] /\
  ~ fetched_at_most_once
      (run_schedule Sample.unhydrated
         [Call 0; Call 0; Resume 0 (inr Sample.full7); Resume 0 (inr Sample.full7)]).
Proof.
  split; [reflexivity |].
  unfold fetched_at_most_once. vm_compute. intros H.
  apply NoDup_cons_1_1 in H. apply H. apply list_elem_of_here.
Qed.

Lemma hydration_witness :
  ensureEntryCached Sample.online 0
    (snd (ensureEntryCached Sample.online 0 Sample.unhydrated))
  = (inr tt, snd (ensureEntryCached Sample.online 0 Sample.unhydrated)).
Proof.
  apply (proj1 (hydration_is_memoized Sample.online) Sample.unhydrated).
  reflexivity.
Defined.

(** ** Recording *)

(** *** What the handlers leave alone *)

Lemma onChunkSettled_frame res w :
  mediaRecorder (onChunkSettled res w) = mediaRecorder w /\
  session (onChunkSettled res w) = session w /\
  network (onChunkSettled res w) = network w /\
  trace (onChunkSettled res w) = trace w.
Proof.
  unfold onChunkSettled. destruct res as [| [] j]; try done.
  destruct (is_recording w && _); [| done].
  by destruct (liveSessionId (session w)).
Qed.

Lemma on_settlements_frame l w :
  mediaRecorder (on_events w (settlements l)) = mediaRecorder w /\
  session (on_events w (settlements l)) = session w /\
  network (on_events w (settlements l)) = network w /\
  trace (on_events w (settlements l)) = trace w.
Proof.
  revert w. induction l as [|[p res] l IH]; intros w; [done |].
  simpl. destruct (IH (onChunkSettled res w)) as (-> & -> & -> & ->).
  apply onChunkSettled_frame.
Qed.

Lemma slice_last_length {A} n (l : list A) : (length (slice_last n l) <= n)%nat.
Proof. unfold slice_last. rewrite length_drop. lia. Qed.

Lemma slice_last_suffix {A} n (l : list A) :
  exists dropped, l = dropped ++ slice_last n l.
Proof. exists (take (length l - n) l). unfold slice_last. by rewrite take_drop. Qed.

Lemma upload_silent w : has_audio w = false -> uploadCumulativeBlob w = w.
Proof.
  unfold has_audio, uploadCumulativeBlob. intros H%negb_false_iff. by rewrite H.
Qed.

(** One submission, field by field. *)
Lemma upload_submits w :
  has_audio w = true ->
  let w' := uploadCumulativeBlob w in
  let pushed := pendingUploads (session w) ++ [length (network w)] in
  mediaRecorder w' = mediaRecorder w /\
  page w' = page w /\
  liveSessionId (session w') = liveSessionId (session w) /\
  recordedChunks (session w') = recordedChunks (session w) /\
  chunkCounter (session w') = S (chunkCounter (session w)) /\
  pendingUploads (session w') = (if (8 <? length pushed)%nat then slice_last 8 pushed else pushed) /\
  network w' = network w ++ [next_request w] /\
  trace w' = trace w ++ [Submit (length (network w))].
Proof.
  unfold has_audio, uploadCumulativeBlob. intros H%negb_true_iff. by rewrite H.
Qed.

Lemma upload_tracks_new w :
  has_audio w = true ->
  length (network w) ∈ pendingUploads (session (uploadCumulativeBlob w)).
Proof.
  intros H. destruct (upload_submits w H) as (_ & _ & _ & _ & _ & -> & _).
  destruct (8 <? _)%nat eqn:Hcap.
  - unfold slice_last. apply list_elem_of_lookup.
    exists (length (pendingUploads (session w) ++ [length (network w)])
            - (length (pendingUploads (session w) ++ [length (network w)]) - 8) - 1)%nat.
    apply Nat.ltb_lt in Hcap. rewrite lookup_drop.
    rewrite length_app in *. simpl in *.
    rewrite lookup_app_r by lia.
    replace (_ - length (pendingUploads (session w)))%nat with 0%nat by lia. done.
  - apply elem_of_app. right. apply list_elem_of_here.
Qed.

Lemma capped_upload w : capped w -> capped (uploadCumulativeBlob w).
Proof.
  unfold capped. intros Hw. destruct (has_audio w) eqn:Ha.
  - destruct (upload_submits w Ha) as (_ & _ & _ & _ & _ & -> & _).
    destruct (8 <? _)%nat eqn:Hcap; [apply slice_last_length |].
    by apply Nat.ltb_ge in Hcap.
  - by rewrite upload_silent.
Qed.

Lemma capped_event w ev : capped w -> capped (on_event w ev).
Proof.
  intros Hw. destruct ev as [data | p res]; simpl.
  - unfold ondataavailable. destruct (length data =? 0)%nat; [done |].
    by apply capped_upload.
  - unfold capped. by destruct (onChunkSettled_frame res w) as (_ & -> & _).
Qed.

Lemma capped_events evs w : capped w -> capped (on_events w evs).
Proof.
  revert w. induction evs as [|ev evs IH]; intros w Hw; [done |].
  simpl. by apply IH, capped_event.
Qed.

Create HintDb capped.
#[local] Hint Resolve capped_upload capped_event capped_events : capped.

Lemma capped_stop env w : capped w -> capped (stop_until_finalize env w).
Proof.
  intros Hw.
  assert (H1 : capped (stop_flush env w)).
  { unfold stop_flush. apply (capped_event _ (DataAvailable _)). auto with capped. }
  assert (H2 : capped (stop_release env (stop_flush env w))).
  { unfold stop_release.
    pose proof (capped_events (while_stopping env)
                  (emit StopRecorder (with_recorder (Some inactive) (stop_flush env w))) H1).
    done. }
  assert (H3 : capped (stop_final_upload env (stop_release env (stop_flush env w)))).
  { unfold stop_final_upload. auto with capped. }
  assert (H4 : capped (stop_settle env
                         (stop_final_upload env (stop_release env (stop_flush env w))))).
  { unfold stop_settle. destruct (pendingUploads _) eqn:Hps; [done |].
    apply capped_events. done. }
  unfold stop_until_finalize, stop_send_finalize. apply capped_events. done.
Qed.

(** C7: a submission leaves at most 8 promises in [pendingUploads]:
    the new one is added and, beyond 8, only the 8 most recent are
    kept; the ones dropped are the oldest, and dropping them removes
    nothing from the requests on the network; no handler ever lets the list grow beyond 8, and from the
    start of a recording on, however many fragments arrive, it holds at
    most 8. *)
Theorem pending_uploads_capped_at_eight :
  (forall w,
      has_audio w = true ->
      let w' := uploadCumulativeBlob w in
      (length (pendingUploads (session w')) <= 8)%nat /\
      length (pendingUploads (session w'))
      = Nat.min 8 (S (length (pendingUploads (session w)))) /\
      (exists oldest,
          pendingUploads (session w) ++ [length (network w)]
          = oldest ++ pendingUploads (session w')) /\
      network w' = network w ++ [next_request w]) /\
  (forall w,
      capped w ->
      (forall ev, capped (on_event w ev)) /\
      (forall env, capped (recordBtn_click env w))) /\
  (forall first evs w0,
      is_recording w0 = false ->
      getUserMedia (for_start first) = inr tt ->
      capped (on_events (recordBtn_click first w0) evs)).
Proof.
  split; [| split].
  - intros w Ha w'. subst w'.
    destruct (upload_submits w Ha) as (_ & _ & _ & _ & _ & Hp & Hn & _).
    rewrite Hp, Hn. split; [| split; [| split; [| done]]].
    + destruct (8 <? _)%nat eqn:Hcap; [apply slice_last_length |].
      by apply Nat.ltb_ge in Hcap.
    + destruct (8 <? _)%nat eqn:Hcap.
      * apply Nat.ltb_lt in Hcap. unfold slice_last.
        rewrite length_drop. rewrite length_app in *. cbn [length] in *. lia.
      * apply Nat.ltb_ge in Hcap. rewrite length_app in *. cbn [length] in *. lia.
    + destruct (8 <? _)%nat; [apply slice_last_suffix | by exists []].
  - intros w Hw. split; [intros ev; by apply capped_event |].
    intros env. unfold recordBtn_click. destruct (is_recording w).
    + unfold stop_branch. pose proof (capped_stop (for_stop env) w Hw) as Hfin.
      destruct (finalize_outcome _); [done |]. unfold capped. simpl. lia.
    + unfold start_branch. destruct (getUserMedia _); [done |]. unfold capped. simpl. lia.
  - intros first evs w0 Hidle Hok. apply capped_events.
    unfold recordBtn_click, start_branch. rewrite Hidle, Hok.
    unfold capped. simpl. lia.
Qed.

Lemma pending_cap_witness :
  capped (uploadCumulativeBlob Sample.one_slice_recorded) /\
  capped (on_event Sample.one_slice_recorded (DataAvailable (Sample.frag Byte.x02))).
Proof.
  split.
  - apply (proj1 pending_uploads_capped_at_eight Sample.one_slice_recorded). reflexivity.
  - apply (proj1 (proj2 pending_uploads_capped_at_eight) Sample.one_slice_recorded).
    unfold capped. vm_compute. lia.
Defined.

(** *** Responses *)

(** C2 (as amended): whatever session a chunk response belongs to
    (the handler does not look at it), handling it changes neither the session (chunk sequence, index
    counter, tracked promises, identifier) nor the recorder nor the
    requests sent; it leaves the page alone when no recording is in
    progress, and when it does change the page it is because a recording
    is in progress and the response is a success with a non-blank
    transcript, which becomes the preview under the banner of the live
    session. *)
Theorem response_only_rewrites_preview_while_recording w p res :
  let w' := on_event w (Settled p res) in
  (forall q, on_event w (Settled q res) = w') /\
  session w' = session w /\
  mediaRecorder w' = mediaRecorder w /\
  network w' = network w /\
  (is_recording w = false -> page w' = page w) /\
  (page w' <> page w ->
   is_recording w = true /\
   exists j sid,
     res = ChunkResponded true j /\
     liveSessionId (session w) = Some sid /\
     JsString.trim (default EmptyString (truthy (chunk_transcript j))) <> EmptyString /\
     page w' =
       set_transcript (JsString.trim (default EmptyString (truthy (chunk_transcript j))))
         (set_status (live_banner sid) (page w))).
Proof.
  simpl. destruct (onChunkSettled_frame res w) as (Hr & Hs & Hn & _).
  split; [done |]. split; [done |]. split; [done |]. split; [done |].
  unfold onChunkSettled. destruct res as [| [] j]; try done.
  destruct (is_recording w) eqn:Hrec; simpl; [| done].
  destruct (JsString.is_empty _) eqn:He; simpl; [done |].
  destruct (liveSessionId (session w)) as [sid|] eqn:Hsid; [| done].
  split; [done |]. intros _. split; [done |].
  exists j, sid. split; [done |]. split; [done |]. split; [| done].
  intros Hq. by rewrite Hq in He.
Qed.

(** C2, as stated: the first upload of the first session is no longer
    tracked when that session stops, so the stop does not wait for it;
    its response arrives during the second recording and replaces the
    preview of the second session. *)
Lemma stale_response_rewrites_preview :
  stale Sample.second_recording 0 /\
  In (AwaitAllSettled [2; 3; 4; 5; 6; 7; 8; 9]%nat) (trace Sample.second_recording) /\
  transcriptBox (page Sample.second_recording) = EmptyString /\
  transcriptBox (page (on_event Sample.second_recording Sample.late_answer))
  = "words of the first session"%string.
Proof.
  split; [| split; [| split]].
  - eexists. split; [vm_compute; reflexivity |]. vm_compute. intros H. discriminate H.
  - vm_compute. do 15 right. by left.
  - reflexivity.
  - reflexivity.
Qed.

Lemma response_witness :
  page (on_event Sample.after_first_session Sample.late_answer)
  = page Sample.after_first_session.
Proof.
  destruct (response_only_rewrites_preview_while_recording Sample.after_first_session 0
              (ChunkResponded true
                 {| chunk_detail := None;
                    chunk_transcript := Some "words of the first session"%string |}))
    as (_ & _ & _ & _ & Hidle & _).
  apply Hidle. reflexivity.
Defined.

(** *** Fragments *)

Lemma new_Blob_snoc parts data :
  length (new_Blob (parts ++ [data])) = (length (new_Blob parts) + length data)%nat.
Proof. unfold new_Blob. rewrite concat_app, length_app. simpl. by rewrite app_nil_r. Qed.

(** A non-empty fragment is appended and uploaded at once. *)
Lemma ondataavailable_fields data w :
  length data <> 0%nat ->
  let w' := ondataavailable data w in
  mediaRecorder w' = mediaRecorder w /\
  page w' = page w /\
  liveSessionId (session w') = liveSessionId (session w) /\
  recordedChunks (session w') = recordedChunks (session w) ++ [data] /\
  chunkCounter (session w') = S (chunkCounter (session w)) /\
  network w' = network w ++
    [ {| req_session_id := default "null"%string (liveSessionId (session w));
         req_index := chunkCounter (session w);
         req_file := new_Blob (recordedChunks (session w) ++ [data]) |} ] /\
  trace w' = trace w ++ [Submit (length (network w))].
Proof.
  intros Hd. unfold ondataavailable.
  destruct (length data =? 0)%nat eqn:He; [by apply Nat.eqb_eq in He |].
  match goal with |- context [uploadCumulativeBlob ?x] => set (w1 := x) end.
  assert (Ha : has_audio w1 = true).
  { unfold has_audio, w1. simpl. rewrite new_Blob_snoc.
    apply negb_true_iff, Nat.eqb_neq. lia. }
  destruct (upload_submits w1 Ha) as (-> & -> & -> & -> & -> & _ & -> & ->). done.
Qed.

Lemma ondataavailable_empty data w : length data = 0%nat -> ondataavailable data w = w.
Proof. intros Hd. unfold ondataavailable. by rewrite Hd. Qed.

Lemma fragments_of_cons_data data evs :
  fragments_of (DataAvailable data :: evs)
  = (if (length data =? 0)%nat then [] else [data]) ++ fragments_of evs.
Proof. unfold fragments_of. simpl. by destruct (length data =? 0)%nat. Qed.


(** What a run of events does to the recorder, the session identifier,
    the chunk sequence and the trace. *)
Lemma on_events_fields evs w :
  mediaRecorder (on_events w evs) = mediaRecorder w /\
  liveSessionId (session (on_events w evs)) = liveSessionId (session w) /\
  recordedChunks (session (on_events w evs)) = recordedChunks (session w) ++ fragments_of evs /\
  exists more,
    trace (on_events w evs) = trace w ++ more /\ forallb is_submit more = true.
Proof.
  revert w. induction evs as [|ev evs IH]; intros w.
  { simpl. rewrite app_nil_r. repeat split. exists []. by rewrite app_nil_r. }
  simpl. destruct (IH (on_event w ev)) as (-> & -> & -> & more & -> & Hmore).
  destruct ev as [data | p res]; simpl.
  - rewrite fragments_of_cons_data.
    destruct (length data =? 0)%nat eqn:He.
    + apply Nat.eqb_eq in He. rewrite ondataavailable_empty by done.
      repeat split. by exists more.
    + apply Nat.eqb_neq in He.
      destruct (ondataavailable_fields data w He) as (-> & _ & -> & -> & _ & _ & ->).
      split; [done |]. split; [done |]. split; [by rewrite <- app_assoc |].
      exists (Submit (length (network w)) :: more). by rewrite <- app_assoc.
  - destruct (onChunkSettled_frame res w) as (-> & -> & _ & ->).
    repeat split. by exists more.
Qed.

(** *** The stop branch, step by step *)

Lemma stop_flush_fields env w :
  let w1 := stop_flush env w in
  mediaRecorder w1 = mediaRecorder w /\
  liveSessionId (session w1) = liveSessionId (session w) /\
  recordedChunks (session w1)
  = recordedChunks (session w) ++ fragments_of [DataAvailable (flush_data env)] /\
  exists a, trace w1 = trace w ++ RequestData :: a ++ [AwaitFlushed] /\
            forallb is_submit a = true.
Proof.
  unfold stop_flush.
  match goal with |- context [on_events ?x (settlements ?l)] =>
    destruct (on_settlements_frame l x) as (Hr & Hs & _ & Ht);
    set (wa := on_events x (settlements l)) in * end.
  destruct (on_events_fields [DataAvailable (flush_data env)] wa)
    as (Hr' & Hl' & Hc' & a & Ht' & Ha).
  simpl in Hr', Hl', Hc', Ht' |- *.
  rewrite Hr', Hl', Hc', Ht', Hr, Hs, Ht. simpl.
  repeat split. exists a. by rewrite <- !app_assoc.
Qed.

Lemma stop_release_fields env w :
  let w2 := stop_release env w in
  mediaRecorder w2 = Some inactive /\
  liveSessionId (session w2) = liveSessionId (session w) /\
  recordedChunks (session w2) = recordedChunks (session w) ++ fragments_of (while_stopping env) /\
  exists b, trace w2 = trace w ++ StopRecorder :: b ++ [ReleaseMicrophone; AwaitStopped] /\
            forallb is_submit b = true.
Proof.
  unfold stop_release.
  destruct (on_events_fields (while_stopping env)
              (emit StopRecorder (with_recorder (Some inactive) w)))
    as (Hr & Hl & Hc & b & Ht & Hb).
  simpl in *. rewrite Hr, Hl, Hc, Ht.
  repeat split. exists b. split; [| done].
  by rewrite <- !app_assoc.
Qed.

Lemma stop_final_upload_fields env w :
  let w3 := stop_final_upload env w in
  mediaRecorder w3 = mediaRecorder w /\
  liveSessionId (session w3) = liveSessionId (session w) /\
  (if has_audio w
   then exists p, trace w3 = trace w ++ [Submit p] /\ p ∈ pendingUploads (session w3)
   else trace w3 = trace w /\ session w3 = session w).
Proof.
  unfold stop_final_upload.
  destruct (on_settlements_frame (while_uploading env) (uploadCumulativeBlob w))
    as (-> & -> & _ & ->).
  destruct (has_audio w) eqn:Ha.
  - pose proof (upload_tracks_new w Ha) as Hin.
    destruct (upload_submits w Ha) as (-> & _ & -> & _ & _ & _ & _ & ->).
    repeat split. by exists (length (network w)).
  - by rewrite upload_silent.
Qed.

Lemma stop_settle_fields env w :
  let w4 := stop_settle env w in
  mediaRecorder w4 = mediaRecorder w /\
  session w4 = session w /\
  network w4 = network w /\
  trace w4 = trace w ++ match pendingUploads (session w) with
                        | [] => []
                        | ps => [AwaitAllSettled ps]
                        end.
Proof.
  unfold stop_settle. destruct (pendingUploads (session w)) as [|p ps] eqn:Hps.
  - by rewrite app_nil_r.
  - by destruct (on_settlements_frame (while_settling env)
                   (emit (AwaitAllSettled (p :: ps)) w)) as (-> & -> & -> & ->).
Qed.

Lemma stop_send_finalize_fields env w :
  let w5 := stop_send_finalize env w in
  mediaRecorder w5 = mediaRecorder w /\
  session w5 = session w /\
  network w5 = network w /\
  trace w5 = trace w ++ [FinalizeCall (liveSessionId (session w))].
Proof.
  unfold stop_send_finalize.
  by destruct (on_settlements_frame (while_finalizing env)
                 (emit (FinalizeCall (liveSessionId (session w))) w))
    as (-> & -> & -> & ->).
Qed.

(** The recorder and the session identifier when the finalize request
    has been sent. *)
Lemma stop_until_finalize_fields env w :
  mediaRecorder (stop_until_finalize env w) = Some inactive /\
  liveSessionId (session (stop_until_finalize env w)) = liveSessionId (session w).
Proof.
  unfold stop_until_finalize.
  destruct (stop_send_finalize_fields env
              (stop_settle env (stop_final_upload env (stop_release env (stop_flush env w)))))
    as (-> & -> & _).
  destruct (stop_settle_fields env
              (stop_final_upload env (stop_release env (stop_flush env w))))
    as (-> & -> & _).
  destruct (stop_final_upload_fields env (stop_release env (stop_flush env w)))
    as (-> & -> & _).
  destruct (stop_release_fields env (stop_flush env w)) as (-> & -> & _).
  by destruct (stop_flush_fields env w) as (_ & -> & _).
Qed.

Lemma stop_branch_frame env w :
  mediaRecorder (stop_branch env w) = mediaRecorder (stop_until_finalize env w) /\
  network (stop_branch env w) = network (stop_until_finalize env w) /\
  trace (stop_branch env w) = trace (stop_until_finalize env w).
Proof. unfold stop_branch. by destruct (finalize_outcome _). Qed.



(** *** Failure of the finalize request *)

(** When the finalize request fails, control passes to the [catch]
    block: the message is shown and the session is left as the stop
    found it, apart from what the stop itself uploaded. *)
Lemma finalize_failure_skips_reset env w msg :
  is_recording w = true ->
  finalize_outcome (finalize_result (for_stop env)) = inl msg ->
  let w' := recordBtn_click env w in
  session w' = session (stop_until_finalize (for_stop env) w) /\
  liveSessionId (session w') = liveSessionId (session w) /\
  mediaRecorder w' = Some inactive /\
  transcriptBox (page w') = String.append "❌ Mic error: " msg /\
  statusLine (page w') = EmptyString.
Proof.
  intros Hrec Hfail. unfold recordBtn_click. rewrite Hrec. unfold stop_branch.
  rewrite Hfail. simpl.
  destruct (stop_until_finalize_fields (for_stop env) w) as (Hr & Hl).
  by rewrite Hr, Hl.
Qed.

(** The other path: a finalize request that succeeds is followed by the
    reset. *)
Lemma finalize_success_resets env w j :
  is_recording w = true ->
  finalize_outcome (finalize_result (for_stop env)) = inr j ->
  session (recordBtn_click env w) = reset_session.
Proof.
  intros Hrec Hok. unfold recordBtn_click. rewrite Hrec. unfold stop_branch.
  by rewrite Hok.
Qed.

(** C5, evaluated: one slice is recorded and the finalize request is
    answered with status 500. The error is shown and the recorder is
    inactive, but the session identifier, the chunk sequence, the
    tracked uploads and the index counter are not reset. *)
Theorem finalize_failure_leaves_session_state :
  transcriptBox (page Sample.failed_stop) = "❌ Mic error: Finalize failed (500)"%string /\
  mediaRecorder Sample.failed_stop = Some inactive /\
  liveSessionId (session Sample.failed_stop) = Some Sample.first_id /\
  recordedChunks (session Sample.failed_stop) = [Sample.frag Byte.x01] /\
  pendingUploads (session Sample.failed_stop) = [0; 1]%nat /\
  chunkCounter (session Sample.failed_stop) = 2%nat /\
  session Sample.failed_stop <> reset_session.
Proof.
  repeat split; try reflexivity.
  vm_compute. intros H. discriminate H.
Qed.

(** *** Cumulative uploads *)

Lemma cumulative_request_app sid frags more k :
  (k < length frags)%nat ->
  cumulative_request sid (frags ++ more) k = cumulative_request sid frags k.
Proof.
  intros Hk. unfold cumulative_request. f_equal. f_equal.
  by rewrite take_app_le by lia.
Qed.

Lemma cumulative_requests_app sid frags more :
  List.map (cumulative_request sid (frags ++ more)) (seq 0 (length frags))
  = List.map (cumulative_request sid frags) (seq 0 (length frags)).
Proof.
  apply List.map_ext_in. intros k Hk%in_seq. apply cumulative_request_app. lia.
Qed.


Lemma recording_inv_frame sid base w w' :
  session w' = session w -> network w' = network w ->
  recording_inv sid base w -> recording_inv sid base w'.
Proof. unfold recording_inv. by intros -> ->. Qed.

Lemma recording_inv_data sid base data w :
  recording_inv sid base w -> recording_inv sid base (ondataavailable data w).
Proof.
  intros (Hsid & Hne & Hcnt & Hnet).
  destruct (Nat.eq_dec (length data) 0%nat) as [He | He].
  { by rewrite ondataavailable_empty. }
  destruct (ondataavailable_fields data w He) as (_ & _ & Hl & Hc & Hi & Hn & _).
  unfold recording_inv. rewrite Hl, Hc, Hi, Hn, Hsid, Hcnt, Hnet.
  split; [done |]. split; [| split].
  - apply Forall_app. split; [done |]. by apply Forall_singleton.
  - rewrite length_app. simpl. lia.
  - rewrite length_app. simpl. rewrite Nat.add_1_r, seq_S, List.map_app.
    rewrite cumulative_requests_app. simpl.
    rewrite <- app_assoc. do 2 f_equal.
    unfold cumulative_request. rewrite take_ge by (rewrite length_app; simpl; lia).
    done.
Qed.

Lemma recording_inv_events sid base evs w :
  recording_inv sid base w -> recording_inv sid base (on_events w evs).
Proof.
  revert w. induction evs as [|[data | p res] evs IH]; intros w Hinv; [done | |].
  - simpl. by apply IH, recording_inv_data.
  - simpl. apply IH.
    destruct (onChunkSettled_frame res w) as (_ & Hs & Hn & _).
    by apply (recording_inv_frame _ _ w).
Qed.

Lemma recording_inv_start env w :
  getUserMedia env = inr tt ->
  recording_inv (randomUUID env) (network w) (start_branch env w) /\
  is_recording (start_branch env w) = true.
Proof.
  intros Hok. unfold start_branch. rewrite Hok. split; [| done].
  unfold recording_inv. simpl. by rewrite app_nil_r.
Qed.



(** ** Further properties of the dashboard aggregates *)

Section DashboardMore.

Variable now : Date.
Variable parseDate : string -> option Date.

Lemma daysAgoDate_midnight (n : Z) : daysAgoDate now n = (local_day now - n) * msPerDay.
Proof.
  unfold daysAgoDate. cbv zeta. rewrite setDate_back.
  unfold setHours0, local_day, msPerDay.
  pose proof (Z.div_mod now 86400000 ltac:(lia)). lia.
Qed.

Lemma before_midnight (d : Date) (z : Z) : (d <? z * msPerDay) = (local_day d <? z).
Proof.
  unfold local_day, msPerDay. apply eq_true_iff_eq. rewrite !Z.ltb_lt.
  pose proof (Z.div_mod d 86400000 ltac:(lia)).
  pose proof (Z.mod_pos_bound d 86400000 ltac:(lia)). split; nia.
Qed.

(** X1: [daysAgoDate n] is the local midnight that begins the day [n]
    days before today, so a date lies before it exactly when its local
    day is more than [n] days back. *)
Theorem daysAgoDate_is_local_midnight (n : Z) :
  daysAgoDate now n = (local_day now - n) * msPerDay /\
  local_day (daysAgoDate now n) = local_day now - n /\
  daysAgoDate now n mod msPerDay = 0 /\
  forall d : Date, (d <? daysAgoDate now n) = (local_day d <? local_day now - n).
Proof.
  rewrite daysAgoDate_midnight. split; [done |]. split; [apply local_day_of_day |].
  split; [apply Z.mod_mul; unfold msPerDay; lia |].
  intros d. apply before_midnight.
Qed.

Lemma in_window_since l it :
  in_window_with_top now parseDate l it
  = since_six_days_ago now parseDate it && bool_decide (top_label it = Some l).
Proof.
  unfold in_window_with_top, since_six_days_ago.
  destruct (parseLocalDateFromISOish now parseDate (created_at it)) as [d|]; [| done].
  f_equal. rewrite daysAgoDate_midnight, before_midnight.
  apply eq_true_iff_eq. rewrite negb_true_iff, Z.ltb_ge, Z.leb_le. done.
Qed.

(** X2: the weekly table holds, for each label, the number of entries
    whose top emotion has that label and whose date falls on one of the
    seven local days ending today or later; a label without such an
    entry has no row. *)
Theorem weekly_counts_top_labels_since_six_days_ago items l :
  computeWeeklyTop1Counts now parseDate items !! l
  = match length (List.filter
                    (fun it => since_six_days_ago now parseDate it
                               && bool_decide (top_label it = Some l)) items) with
    | O => None
    | S n => Some (S n)
    end.
Proof.
  rewrite weekly_lookup.
  by rewrite (List.filter_ext _ _ (in_window_since l)).
Qed.

End DashboardMore.
Section DashboardOrder.

Variable now : Date.
Variable parseDate : string -> option Date.

Lemma filter_length_Permutation {A} (f : A -> bool) (l1 l2 : list A) :
  l1 ≡ₚ l2 -> length (List.filter f l1) = length (List.filter f l2).
Proof.
  induction 1 as [| x l1 l2 _ IH | x y l | l1 l2 l3 _ IH1 _ IH2]; simpl.
  - done.
  - destruct (f x); simpl; by rewrite IH.
  - by destruct (f x), (f y).
  - by rewrite IH1.
Qed.

Lemma forallb_Permutation {A} (f : A -> bool) (l1 l2 : list A) :
  l1 ≡ₚ l2 -> forallb f l1 = forallb f l2.
Proof.
  induction 1 as [| x l1 l2 _ IH | x y l | l1 l2 l3 _ IH1 _ IH2]; simpl.
  - done.
  - by rewrite IH.
  - by destruct (f x), (f y).
  - by rewrite IH1.
Qed.

(** X3: neither aggregate depends on the order in which the server
    lists the entries. *)
Theorem aggregates_ignore_entry_order (items1 items2 : list Entry) :
  items1 ≡ₚ items2 ->
  computeWeeklyTop1Counts now parseDate items1 = computeWeeklyTop1Counts now parseDate items2 /\
  computeStreakWithGrace now parseDate items1 = computeStreakWithGrace now parseDate items2.
Proof.
  intros Hp. split.
  - apply map_eq. intros l. rewrite !weekly_lookup.
    by rewrite (filter_length_Permutation _ _ _ Hp).
  - destruct (forallb dated items1) eqn:Hd.
    + pose proof Hd as Hd2. rewrite (forallb_Permutation _ _ _ Hp) in Hd2.
      destruct (keys_collected now parseDate _ Hd) as [ks1 Hks1].
      destruct (keys_collected now parseDate _ Hd2) as [ks2 Hks2].
      apply (streak_of_same_keys now parseDate _ _ ks1 ks2); [done | done |].
      intros k. rewrite (keys_of_entries now parseDate _ _ _ Hks1).
      rewrite (keys_of_entries now parseDate _ _ _ Hks2).
      split; intros (it & Hin & Hk); exists it; split; try done.
      * by rewrite <- Hp.
      * by rewrite Hp.
    + pose proof Hd as Hd2. rewrite (forallb_Permutation _ _ _ Hp) in Hd2.
      unfold computeStreakWithGrace.
      by rewrite (keys_missing now parseDate _ Hd), (keys_missing now parseDate _ Hd2).
Qed.

(** *** Bounds of the streak *)

Lemma filter_nil_false {A} (f : A -> bool) (l : list A) :
  (forall x, In x l -> f x = false) -> List.filter f l = [].
Proof.
  induction l as [|x l IH]; intros H; simpl; [done |].
  rewrite (H x) by (by left). apply IH. intros y Hy. apply H. by right.
Qed.

Lemma filter_orb_length {A} (f g : A -> bool) (l : list A) :
  (length (List.filter (fun x => f x || g x) l)
   <= length (List.filter f l) + length (List.filter g l))%nat.
Proof.
  induction l as [|x l IH]; simpl; [lia |].
  destruct (f x), (g x); simpl; lia.
Qed.

(** At most one of the scanned days is the day of a given entry. *)
Lemma one_day_per_entry (e : option Z) (t : Z) a k :
  (length (List.filter (fun i : nat => bool_decide (e = Some (t - Z.of_nat i)%Z)) (seq a k))
   <= 1)%nat.
Proof.
  revert a. induction k as [|k IH]; intros a; simpl; [lia |].
  case_bool_decide as Ha; [| by rewrite IH; lia].
  simpl. rewrite filter_nil_false; [simpl; lia |].
  intros i Hi. apply in_seq in Hi. apply bool_decide_eq_false.
  rewrite Ha. intros [=]. lia.
Qed.

Lemma days_with_entries_le items k :
  (days_with_entries now parseDate items k <= length items)%nat.
Proof.
  unfold days_with_entries, missed.
  induction items as [|it items IH].
  - rewrite filter_nil_false; [simpl; lia | done].
  - simpl length.
    etransitivity; [| apply (Nat.add_le_mono _ 1 _ (length items)
                               (one_day_per_entry (entry_day now parseDate it)
                                  (local_day now) 0 k) IH)].
    etransitivity; [| apply filter_orb_length].
    apply Nat.eq_le_incl. f_equal. apply List.filter_ext. intros i.
    simpl. by rewrite !negb_involutive.
Qed.

Lemma days_with_entries_horizon items k :
  (days_with_entries now parseDate items k <= k)%nat.
Proof.
  unfold days_with_entries.
  etransitivity; [apply List.filter_length_le |]. by rewrite length_seq.
Qed.

(** X4: the streak never exceeds the 365 days the scan covers, nor the
    number of entries; in particular it is 0 for an empty history. *)
Theorem streak_at_most_horizon_and_entries items streak :
  computeStreakWithGrace now parseDate items = Some streak ->
  (streak <= 365)%nat /\ (streak <= length items)%nat.
Proof.
  intros Hs.
  assert (Hd : forallb dated items = true).
  { destruct (forallb dated items) eqn:Hd; [done |].
    unfold computeStreakWithGrace in Hs.
    by rewrite (keys_missing now parseDate _ Hd) in Hs. }
  destruct (streak_of_is_grace_streak now parseDate _ Hd) as (s & Hs' & k & Hk & -> & _).
  rewrite Hs in Hs'. apply (inj Some) in Hs' as ->. split.
  - etransitivity; [apply days_with_entries_horizon | done].
  - apply days_with_entries_le.
Qed.

(** X5: the streak is 0 exactly when neither today nor yesterday has
    an entry. *)
Theorem streak_zero_iff_two_latest_days_missed items :
  forallb dated items = true ->
  computeStreakWithGrace now parseDate items = Some 0%nat <->
  missed now parseDate items 0 = true /\ missed now parseDate items 1 = true.
Proof.
  intros Hd. destruct (keys_collected now parseDate _ Hd) as [ks Hks].
  rewrite (streak_of_dated now parseDate _ _ Hks).
  rewrite streak_loop_S.
  rewrite (missed_at now parseDate items ks _ 0%nat Hks)
    by (rewrite local_day_setHours0; simpl; lia).
  destruct (missed now parseDate items 0) eqn:H0; simpl negb; cbv iota.
  - simpl Nat.leb. cbv iota. rewrite streak_loop_S.
    rewrite (missed_at now parseDate items ks _ 1%nat Hks)
      by (rewrite local_day_setDate_back, local_day_setHours0; simpl; lia).
    destruct (missed now parseDate items 1) eqn:H1; simpl negb; cbv iota.
    + simpl Nat.leb. cbv iota. done.
    + pose proof (streak_loop_ge (list_to_set ks) 363
                    (setDate (setDate (setHours0 now) (getDate (setHours0 now) - 1))
                             (getDate (setDate (setHours0 now) (getDate (setHours0 now) - 1)) - 1))
                    1 0 ltac:(lia)) as Hge.
      split; [| intros [_ [=]]]. intros [= Hz]. rewrite Hz in Hge. lia.
  - pose proof (streak_loop_ge (list_to_set ks) 364
                  (setDate (setHours0 now) (getDate (setHours0 now) - 1))
                  1 0 ltac:(lia)) as Hge.
    split; [| intros [[=] _]]. intros [= Hz]. rewrite Hz in Hge. lia.
Qed.

Lemma streak_loop_mono (set1 set2 : gset string) n d s1 m1 s2 m2 :
  set1 ⊆ set2 -> (s1 <= s2)%nat -> (m2 <= m1)%nat ->
  (streak_loop set1 n d s1 m1 <= streak_loop set2 n d s2 m2)%nat.
Proof.
  intros Hsub. revert d s1 m1 s2 m2.
  induction n as [|n IH]; intros d s1 m1 s2 m2 Hs Hm.
  { by rewrite !streak_loop_0. }
  rewrite !streak_loop_S.
  case_bool_decide as H1.
  - rewrite bool_decide_eq_true_2 by (by apply Hsub). apply IH; lia.
  - case_bool_decide as H2.
    + destruct (2 <=? S m1)%nat eqn:Hstop.
      * etransitivity; [| apply streak_loop_ge]; lia.
      * apply IH; lia.
    + destruct (2 <=? S m1)%nat eqn:Hstop1; destruct (2 <=? S m2)%nat eqn:Hstop2.
      * done.
      * apply Nat.leb_gt in Hstop2.
        etransitivity; [| apply streak_loop_ge]; lia.
      * apply Nat.leb_le in Hstop2. apply Nat.leb_gt in Hstop1. lia.
      * apply IH; lia.
Qed.

(** X6: entries that are added to a history never shorten the
    streak. *)
Theorem streak_grows_with_entries (items1 items2 : list Entry) :
  items1 ⊆ items2 ->
  forallb dated items2 = true ->
  exists s1 s2,
    computeStreakWithGrace now parseDate items1 = Some s1 /\
    computeStreakWithGrace now parseDate items2 = Some s2 /\
    (s1 <= s2)%nat.
Proof.
  intros Hsub Hd2.
  assert (Hd1 : forallb dated items1 = true).
  { apply forallb_forall. intros it Hin.
    apply (proj1 (forallb_forall _ _) Hd2).
    apply list_elem_of_In, Hsub. by apply list_elem_of_In. }
  destruct (keys_collected now parseDate _ Hd1) as [ks1 Hks1].
  destruct (keys_collected now parseDate _ Hd2) as [ks2 Hks2].
  rewrite (streak_of_dated now parseDate _ _ Hks1), (streak_of_dated now parseDate _ _ Hks2).
  eexists _, _. split; [done |]. split; [done |].
  apply streak_loop_mono; [| lia | lia].
  intros k. rewrite !elem_of_list_to_set.
  rewrite (keys_of_entries now parseDate _ _ _ Hks1), (keys_of_entries now parseDate _ _ _ Hks2).
  intros (it & Hin & Hk). exists it. split; [by apply Hsub | done].
Qed.

Lemma weekly_fold_skips_undated start counts items :
  foldl (weekly_step now parseDate start) counts (List.filter dated items)
  = foldl (weekly_step now parseDate start) counts items.
Proof.
  revert counts. induction items as [|it items IH]; intros counts; simpl; [done |].
  destruct (dated it) eqn:Hd; simpl; [apply IH |].
  rewrite IH. f_equal. unfold weekly_step, parseLocalDateFromISOish.
  unfold dated in Hd. by destruct (truthy (created_at it)).
Qed.

(** X7: an entry without a usable [created_at] makes the streak
    computation throw, and only such an entry does; the weekly table
    merely passes over these entries. *)
Theorem undated_entry_breaks_streak_not_weekly items :
  (computeStreakWithGrace now parseDate items = None <-> forallb dated items = false) /\
  computeWeeklyTop1Counts now parseDate items
  = computeWeeklyTop1Counts now parseDate (List.filter dated items).
Proof.
  split; [split |].
  - intros Hn. destruct (forallb dated items) eqn:Hd; [| done].
    destruct (keys_collected now parseDate _ Hd) as [ks Hks].
    by rewrite (streak_of_dated now parseDate _ _ Hks) in Hn.
  - intros Hd. unfold computeStreakWithGrace.
    by rewrite (keys_missing now parseDate _ Hd).
  - unfold computeWeeklyTop1Counts. cbv zeta. by rewrite weekly_fold_skips_undated.
Qed.

End DashboardOrder.

(** X8: two dates get the same [ymd] key exactly when they fall on the
    same local day. *)
Theorem ymd_agrees_on_same_local_day (d1 d2 : Date) :
  ymd d1 = ymd d2 <-> local_day d1 = local_day d2.
Proof.
  rewrite !ymd_local_day. split; [apply ymd_of_day_inj | by intros ->].
Qed.
Lemma entry_order_witness :
  computeWeeklyTop1Counts Sample.now Sample.parse Sample.week
  = computeWeeklyTop1Counts Sample.now Sample.parse (rev Sample.week) /\
  computeStreakWithGrace Sample.now Sample.parse Sample.week
  = computeStreakWithGrace Sample.now Sample.parse (rev Sample.week).
Proof.
  apply (aggregates_ignore_entry_order Sample.now Sample.parse Sample.week (rev Sample.week)).
  apply Permutation_rev.
Defined.

Lemma streak_bounds_witness :
  computeStreakWithGrace Sample.now Sample.parse Sample.week = Some 3%nat /\
  (3 <= 365)%nat /\ (3 <= length Sample.week)%nat.
Proof.
  assert (H : computeStreakWithGrace Sample.now Sample.parse Sample.week = Some 3%nat)
    by (vm_compute; reflexivity).
  split; [exact H |].
  exact (streak_at_most_horizon_and_entries Sample.now Sample.parse Sample.week 3 H).
Defined.

Lemma streak_zero_witness :
  forallb dated [Sample.entry 3 "2024-04-07T07:30:00" "calm"] = true /\
  (computeStreakWithGrace Sample.now Sample.parse [Sample.entry 3 "2024-04-07T07:30:00" "calm"]
   = Some 0%nat <->
   missed Sample.now Sample.parse [Sample.entry 3 "2024-04-07T07:30:00" "calm"] 0 = true /\
   missed Sample.now Sample.parse [Sample.entry 3 "2024-04-07T07:30:00" "calm"] 1 = true).
Proof.
  split; [reflexivity |].
  apply (streak_zero_iff_two_latest_days_missed Sample.now Sample.parse
           [Sample.entry 3 "2024-04-07T07:30:00" "calm"]).
  reflexivity.
Defined.

Lemma streak_growth_witness :
  exists s1 s2,
    computeStreakWithGrace Sample.now Sample.parse
      [Sample.entry 2 "2024-04-09T21:00:00" "joy"] = Some s1 /\
    computeStreakWithGrace Sample.now Sample.parse Sample.week = Some s2 /\
    (s1 <= s2)%nat.
Proof.
  apply (streak_grows_with_entries Sample.now Sample.parse
           [Sample.entry 2 "2024-04-09T21:00:00" "joy"] Sample.week).
  - intros it Hin. apply list_elem_of_singleton in Hin. rewrite Hin.
    apply list_elem_of_further, list_elem_of_here.
  - reflexivity.
Defined.
(** ** Further properties of the query and tag strings *)

Lemma is_space_lower_char (c : ascii) :
  JsString.is_space (JsString.lower_char c) = JsString.is_space c.
Proof. by destruct c as [[] [] [] [] [] [] [] []]. Qed.

Lemma lower_char_idemp (c : ascii) :
  JsString.lower_char (JsString.lower_char c) = JsString.lower_char c.
Proof. by destruct c as [[] [] [] [] [] [] [] []]. Qed.

Lemma toLowerCase_idemp (s : string) :
  JsString.toLowerCase (JsString.toLowerCase s) = JsString.toLowerCase s.
Proof. induction s as [|c s IH]; simpl; [done |]. by rewrite lower_char_idemp, IH. Qed.

Lemma toLowerCase_append (s t : string) :
  JsString.toLowerCase (String.append s t)
  = String.append (JsString.toLowerCase s) (JsString.toLowerCase t).
Proof. induction s as [|c s IH]; simpl; [done |]. by rewrite IH. Qed.

Lemma is_empty_toLowerCase (s : string) :
  JsString.is_empty (JsString.toLowerCase s) = JsString.is_empty s.
Proof. by destruct s. Qed.

Lemma trimStart_toLowerCase (s : string) :
  JsString.trimStart (JsString.toLowerCase s) = JsString.toLowerCase (JsString.trimStart s).
Proof.
  induction s as [|c s IH]; simpl; [done |].
  rewrite is_space_lower_char. by destruct (JsString.is_space c).
Qed.

Lemma trimEnd_toLowerCase (s : string) :
  JsString.trimEnd (JsString.toLowerCase s) = JsString.toLowerCase (JsString.trimEnd s).
Proof.
  induction s as [|c s IH]; simpl; [done |].
  rewrite is_space_lower_char, IH, is_empty_toLowerCase.
  by destruct (JsString.is_space c && JsString.is_empty (JsString.trimEnd s)).
Qed.

Lemma trim_toLowerCase (s : string) :
  JsString.trim (JsString.toLowerCase s) = JsString.toLowerCase (JsString.trim s).
Proof. unfold JsString.trim. by rewrite trimStart_toLowerCase, trimEnd_toLowerCase. Qed.

(** *** Splitting and white space *)

Lemma filter_Boolean_cons (s : string) (l : list string) :
  JsString.filter_Boolean (s :: l)
  = (if JsString.is_empty s then [] else [s]) ++ JsString.filter_Boolean l.
Proof. unfold JsString.filter_Boolean. simpl. by destruct (JsString.is_empty s). Qed.

(** Whether a separator precedes the text does not change its words. *)
Lemma words_after_separator (sep : ascii -> bool) (s : string) :
  JsString.filter_Boolean (JsString.split_go sep s EmptyString true)
  = JsString.filter_Boolean (JsString.split_go sep s EmptyString false).
Proof.
  destruct s as [|c s]; simpl; [done |].
  destruct (sep c); [| done]. by rewrite filter_Boolean_cons.
Qed.

(** The words of a text cut at a separator are the words of the two
    parts. *)
Lemma words_split_at (sep : ascii -> bool) (s1 s2 cur : string) (in_run : bool) (c : ascii) :
  sep c = true ->
  (in_run = true -> cur = EmptyString) ->
  JsString.filter_Boolean (JsString.split_go sep (String.append s1 (String c s2)) cur in_run)
  = JsString.filter_Boolean (JsString.split_go sep s1 cur in_run)
    ++ JsString.filter_Boolean (JsString.split_go sep s2 EmptyString false).
Proof.
  intros Hc. revert cur in_run.
  induction s1 as [|a s1 IH]; intros cur in_run Hinv; simpl.
  - rewrite Hc, <- words_after_separator. destruct in_run.
    + by rewrite (Hinv eq_refl).
    + rewrite !filter_Boolean_cons. by destruct (JsString.is_empty cur).
  - destruct (sep a).
    + destruct in_run.
      * by apply IH.
      * rewrite !filter_Boolean_cons, <- app_assoc. f_equal. by apply IH.
    + by apply IH.
Qed.

Lemma words_trimStart (s : string) (in_run : bool) :
  JsString.filter_Boolean
    (JsString.split_go JsString.is_space (JsString.trimStart s) EmptyString in_run)
  = JsString.filter_Boolean (JsString.split_go JsString.is_space s EmptyString in_run).
Proof.
  revert in_run. induction s as [|c s IH]; intros in_run; [done |].
  cbn [JsString.trimStart]. destruct (JsString.is_space c) eqn:Hc; [| done].
  cbn [JsString.split_go]. rewrite Hc. destruct in_run.
  - apply IH.
  - rewrite filter_Boolean_cons. simpl. rewrite <- words_after_separator. apply IH.
Qed.

Lemma words_trimEnd (s cur : string) (in_run : bool) :
  JsString.filter_Boolean (JsString.split_go JsString.is_space (JsString.trimEnd s) cur in_run)
  = JsString.filter_Boolean (JsString.split_go JsString.is_space s cur in_run).
Proof.
  revert cur in_run. induction s as [|c s IH]; intros cur in_run; [done |].
  cbn [JsString.trimEnd]. cbv zeta.
  destruct (JsString.is_space c) eqn:Hc; simpl andb.
  - destruct (JsString.is_empty (JsString.trimEnd s)) eqn:He.
    + apply is_empty_true in He.
      cbn [JsString.split_go]. rewrite Hc.
      destruct in_run.
      * by rewrite <- IH, He.
      * rewrite !filter_Boolean_cons. f_equal. by rewrite <- IH, He.
    + cbn [JsString.split_go]. rewrite Hc. destruct in_run.
      * apply IH.
      * rewrite !filter_Boolean_cons. f_equal. apply IH.
  - cbn [JsString.split_go]. rewrite Hc. apply IH.
Qed.

(** Trimming a query does not change its terms. *)
Lemma query_terms_trim (q : string) : query_terms (JsString.trim q) = query_terms q.
Proof.
  unfold query_terms, JsString.split_runs.
  rewrite <- trim_toLowerCase. unfold JsString.trim.
  by rewrite words_trimEnd, words_trimStart.
Qed.

(** The terms of two queries joined by a blank. *)
Lemma query_terms_join (q1 q2 : string) :
  query_terms (String.append q1 (String " " q2)) = query_terms q1 ++ query_terms q2.
Proof.
  unfold query_terms, JsString.split_runs.
  rewrite toLowerCase_append. simpl JsString.toLowerCase.
  change (JsString.lower_char " ") with " "%char.
  by apply words_split_at.
Qed.

Lemma trimStart_empty (s : string) :
  JsString.trimStart s = EmptyString ->
  forallb JsString.is_space (list_ascii_of_string s) = true.
Proof.
  induction s as [|c s IH]; simpl; [done |].
  destruct (JsString.is_space c); [apply IH | done].
Qed.

Lemma trimEnd_empty (s : string) :
  JsString.trimEnd s = EmptyString ->
  forallb JsString.is_space (list_ascii_of_string s) = true.
Proof.
  induction s as [|c s IH]; simpl; [done |].
  destruct (JsString.is_space c); simpl; [| done].
  destruct (JsString.is_empty (JsString.trimEnd s)) eqn:He; [| done].
  intros _. apply IH. by apply is_empty_true.
Qed.

Lemma trimStart_suffix (s : string) :
  exists blank, s = String.append blank (JsString.trimStart s) /\
                forallb JsString.is_space (list_ascii_of_string blank) = true.
Proof.
  induction s as [|c s (blank & Hs & Hb)]; simpl.
  - by exists EmptyString.
  - destruct (JsString.is_space c) eqn:Hc.
    + exists (String c blank). simpl. rewrite Hc. split; [by f_equal | done].
    + by exists EmptyString.
Qed.

(** A string trims to nothing exactly when it is blank. *)
Lemma trim_empty_iff (s : string) :
  JsString.trim s = EmptyString <->
  forallb JsString.is_space (list_ascii_of_string s) = true.
Proof.
  split; [| apply trim_blank].
  unfold JsString.trim. intros He. apply trimEnd_empty in He.
  destruct (trimStart_suffix s) as (blank & Hs & Hb).
  rewrite Hs, list_ascii_append, forallb_app. by rewrite Hb, He.
Qed.
(** ** Further properties of the entry cache and the search *)

Lemma dedup_fold_elem (l acc : list string) (x : string) :
  x ∈ foldl (fun acc x => if bool_decide (x ∈ acc) then acc else acc ++ [x]) acc l
  <-> x ∈ acc \/ x ∈ l.
Proof.
  revert acc. induction l as [|y l IH]; intros acc; simpl.
  - rewrite elem_of_nil. tauto.
  - rewrite IH, elem_of_cons. case_bool_decide as Hy.
    + split; [tauto |]. intros [? | [-> | ?]]; tauto.
    + rewrite elem_of_app, list_elem_of_singleton. tauto.
Qed.

Lemma dedup_fold_NoDup (l acc : list string) :
  NoDup acc ->
  NoDup (foldl (fun acc x => if bool_decide (x ∈ acc) then acc else acc ++ [x]) acc l).
Proof.
  revert acc. induction l as [|y l IH]; intros acc Hacc; simpl; [done |].
  apply IH. case_bool_decide as Hy; [done |].
  apply NoDup_app. split; [done |]. split; [| apply NoDup_singleton].
  intros x Hx Hx'. apply list_elem_of_singleton in Hx'. by subst.
Qed.

Lemma image_words_lower (im : Image) (t : string) (c : ascii) :
  t ∈ image_words im -> In c (list_ascii_of_string t) -> JsString.is_upper c = false.
Proof.
  unfold image_words. rewrite elem_of_app. intros [Ht | Ht] Hc.
  - apply list_elem_of_In, in_map_iff in Ht as (t0 & <- & _).
    by eapply toLowerCase_chars.
  - destruct (truthy (caption im)) as [cap|]; [| by apply elem_of_nil in Ht].
    apply list_elem_of_In in Ht. unfold JsString.filter_Boolean in Ht.
    apply filter_In in Ht as [Ht _].
    destruct (split_go_pieces _ _ EmptyString false t c
                ltac:(by intros a []) Ht Hc) as [_ Hin].
    by eapply toLowerCase_chars.
Qed.

(** X9: the tags memoized on an entry are the words of its images
    (the lower-cased tags and the words of the captions), each listed
    once and free of upper-case letters; every tag of every image is
    among them in lower case. *)
Theorem memoized_tags_are_distinct_lowercase_words (it : Entry) (full : FullEntry) :
  exists tgs,
    _imageTags (memoize it full) = Some tgs /\
    NoDup tgs /\
    (forall t, t ∈ tgs <->
               exists im, im ∈ default [] (images full) /\ t ∈ image_words im) /\
    (forall t c, t ∈ tgs -> In c (list_ascii_of_string t) -> JsString.is_upper c = false) /\
    (forall im t, im ∈ default [] (images full) -> t ∈ default [] (tags im) ->
                  JsString.toLowerCase t ∈ tgs).
Proof.
  eexists. split; [reflexivity |].
  assert (Hmem : forall t,
    t ∈ JsString.dedup (List.concat (List.map image_words (default [] (images full))))
    <-> exists im, im ∈ default [] (images full) /\ t ∈ image_words im).
  { intros t. unfold JsString.dedup. rewrite dedup_fold_elem, elem_of_nil.
    rewrite list_elem_of_In, in_concat. split.
    - intros [[] | (ws & Hws & Ht)]. apply in_map_iff in Hws as (im & <- & Him).
      exists im. by rewrite !list_elem_of_In.
    - intros (im & Him & Ht). right. exists (image_words im).
      split; [apply in_map; by apply list_elem_of_In | by apply list_elem_of_In]. }
  split; [apply dedup_fold_NoDup, NoDup_nil_2 |]. split; [done |]. split.
  - intros t c Ht. apply Hmem in Ht as (im & _ & Ht). by apply (image_words_lower im).
  - intros im t Him Ht. apply Hmem. exists im. split; [done |].
    unfold image_words. apply elem_of_app. left.
    apply list_elem_of_In, in_map. by apply list_elem_of_In.
Qed.

Section SearchMore.

Variable remote : nat -> Thrown FullEntry.

Lemma query_terms_toLowerCase (q : string) :
  query_terms (JsString.toLowerCase q) = query_terms q.
Proof. unfold query_terms. by rewrite toLowerCase_idemp. Qed.

(** X10: the search does not distinguish upper-case from lower-case
    letters in the query. *)
Theorem search_ignores_query_case (query : option string) (st : Store) :
  renderHistoryWithQuery remote (JsString.toLowerCase <$> query) st
  = renderHistoryWithQuery remote query st.
Proof.
  unfold renderHistoryWithQuery. cbv zeta.
  assert (Hq : default EmptyString (JsString.toLowerCase <$> query)
               = JsString.toLowerCase (default EmptyString query)) by (by destruct query).
  by rewrite Hq, trim_toLowerCase, is_empty_toLowerCase, query_terms_toLowerCase.
Qed.

Lemma entry_ok_app (t1 t2 : list string) (it : Entry) :
  entry_ok (t1 ++ t2) it = entry_ok t1 it && entry_ok t2 it.
Proof. unfold entry_ok. apply forallb_app. Qed.

Lemma filter_andb {A} (f g : A -> bool) (l : list A) :
  List.filter (fun x => f x && g x) l = List.filter g (List.filter f l).
Proof.
  induction l as [|x l IH]; simpl; [done |].
  destruct (f x); simpl; [| done]. destruct (g x); by rewrite IH.
Qed.

Lemma joined_query_not_blank (q1 q2 : string) :
  JsString.trim q1 <> EmptyString ->
  JsString.trim (String.append q1 (String " " q2)) <> EmptyString /\
  JsString.trim (String.append q2 (String " " q1)) <> EmptyString.
Proof.
  intros Hne. split; intros He; apply Hne; apply trim_empty_iff in He;
    apply trim_empty_iff; rewrite list_ascii_append, forallb_app in He;
    apply andb_prop in He as [H1 H2]; [done |].
  by simpl in H2.
Qed.

(** X11: extending a query by further words keeps, of the entries it
    showed, the ones that match the new words as well; the order in
    which the two parts are typed makes no difference. *)
Theorem refined_query_filters_previous_result (q1 q2 : string) (st : Store) :
  forallb (servable remote) (allEntries st) = true ->
  JsString.trim q1 <> EmptyString ->
  exists shown st',
    renderHistoryWithQuery remote (Some q1) st = (inr shown, st') /\
    renderHistoryWithQuery remote (Some (String.append q1 (String " " q2))) st
    = (inr (List.filter (entry_ok (query_terms q2)) shown), st') /\
    renderHistoryWithQuery remote (Some (String.append q2 (String " " q1))) st
    = (inr (List.filter (entry_ok (query_terms q2)) shown), st').
Proof.
  intros Hs Hne. destruct (joined_query_not_blank q1 q2 Hne) as [H12 H21].
  eexists _, _. split; [by apply search_servable |].
  rewrite !search_servable by done. simpl default.
  rewrite !query_terms_trim, !query_terms_join.
  split; f_equal; f_equal; rewrite <- filter_andb; apply List.filter_ext; intros it;
    rewrite entry_ok_app; [done | apply andb_comm].
Qed.

(** The loop up to the first entry that cannot be fetched. *)
Lemma search_loop_fails terms mid : forall n i results entries log bad post e,
  (i + n = length entries)%nat ->
  drop i entries = mid ++ bad :: post ->
  forallb (servable remote) mid = true ->
  hydrated bad = false ->
  remote (id bad) = inl e ->
  search_loop remote terms n i results {| allEntries := entries; fetchLog := log |}
  = (inl e,
     {| allEntries := take i entries ++ List.map (hydrate_with remote) mid ++ bad :: post;
        fetchLog := log ++ List.map id (List.filter (fun it => negb (hydrated it)) mid)
                        ++ [id bad] |}).
Proof.
  induction mid as [|it mid IH]; intros n i results entries log bad post e Hlen Hd Hs Hb He.
  - assert (Hi : entries !! i = Some bad).
    { rewrite <- (Nat.add_0_r i), <- lookup_drop, Hd. done. }
    pose proof (lookup_lt_Some _ _ _ Hi) as Hlt.
    destruct n as [|n]; [lia |].
    rewrite search_loop_S. unfold ensureEntryCached, ensure_call. simpl.
    rewrite Hi, Hb. simpl. rewrite Hi, He. simpl.
    simpl in Hd. by rewrite <- Hd, take_drop.
  - assert (Hi : entries !! i = Some it).
    { rewrite <- (Nat.add_0_r i), <- lookup_drop, Hd. done. }
    pose proof (lookup_lt_Some _ _ _ Hi) as Hlt.
    destruct n as [|n]; [lia |].
    simpl in Hs. apply andb_prop in Hs as [Hit Hs].
    rewrite search_loop_S, (ensure_at remote _ _ _ _ Hi Hit). simpl.
    rewrite list_lookup_insert_eq by done.
    assert (Hd' : drop (S i) (<[i:=hydrate_with remote it]> entries) = mid ++ bad :: post).
    { rewrite drop_insert_lt by lia. rewrite (drop_S _ _ _ Hi) in Hd. by injection Hd. }
    rewrite (IH n (S i) _ _ _ bad post e); [| rewrite length_insert; lia | done..].
    rewrite (take_S_r _ _ (hydrate_with remote it)) by (by apply list_lookup_insert_eq).
    rewrite take_insert_ge by lia.
    f_equal. f_equal; [by rewrite <- app_assoc |].
    rewrite <- !app_assoc. f_equal. by destruct (hydrated it).
Qed.

(** X12: a search stops at the first entry that cannot be fetched.
    The error is raised and nothing is shown; the entries in front of
    it have been hydrated and stay so, the ones behind it have not been
    requested. *)
Theorem search_stops_at_first_failed_fetch (query : option string) (st : Store)
    (pre post : list Entry) (bad : Entry) (e : string) :
  JsString.trim (default EmptyString query) <> EmptyString ->
  allEntries st = pre ++ bad :: post ->
  forallb (servable remote) pre = true ->
  hydrated bad = false ->
  remote (id bad) = inl e ->
  renderHistoryWithQuery remote query st
  = (inl e,
     {| allEntries := List.map (hydrate_with remote) pre ++ bad :: post;
        fetchLog := fetchLog st
                    ++ List.map id (List.filter (fun it => negb (hydrated it)) pre)
                    ++ [id bad] |}).
Proof.
  intros Hne Hall Hs Hb He. unfold renderHistoryWithQuery. cbv zeta.
  destruct (JsString.is_empty _) eqn:Hq; [by apply is_empty_true in Hq |].
  destruct st as [entries log]. simpl in *.
  by rewrite (search_loop_fails _ pre _ 0 [] entries log bad post e).
Qed.

(** *** What a search leaves alone *)

Lemma same_header_refl (a : Entry) : same_header a a.
Proof. by repeat split. Qed.

Lemma same_header_trans (a b c : Entry) :
  same_header a b -> same_header b c -> same_header a c.
Proof. intros (? & ? & ?) (? & ? & ?). repeat split; congruence. Qed.

Lemma same_headers_refl (l : list Entry) : Forall2 same_header l l.
Proof. induction l; constructor; [apply same_header_refl | done]. Qed.

Lemma same_headers_trans (l1 l2 l3 : list Entry) :
  Forall2 same_header l1 l2 -> Forall2 same_header l2 l3 -> Forall2 same_header l1 l3.
Proof.
  intros H12. revert l3. induction H12 as [|a b l1 l2 Hab _ IH]; intros l3 H23.
  - by inversion H23.
  - inversion H23 as [|? c ? l3' Hbc H23']; subst. constructor.
    + by eapply same_header_trans.
    + by apply IH.
Qed.

Lemma same_headers_insert (l : list Entry) i it it' :
  l !! i = Some it -> same_header it it' -> Forall2 same_header l (<[i:=it']> l).
Proof.
  revert i. induction l as [|a l IH]; intros [|i] Hi Hh; simpl in *; try done.
  - injection Hi as ->. constructor; [done | apply same_headers_refl].
  - constructor; [apply same_header_refl | by eapply IH].
Qed.

Lemma ensure_headers i (st : Store) :
  Forall2 same_header (allEntries st) (allEntries (snd (ensureEntryCached remote i st))).
Proof.
  unfold ensureEntryCached, ensure_call.
  destruct (allEntries st !! i) as [it|] eqn:Hi; [| apply same_headers_refl].
  destruct (hydrated it); [apply same_headers_refl |]. simpl. rewrite Hi.
  unfold ensure_resume. destruct (remote (id it)) as [e | full]; [apply same_headers_refl |].
  simpl. rewrite Hi. simpl. by eapply same_headers_insert.
Qed.

Lemma search_loop_headers terms n : forall i results (st : Store),
  Forall2 same_header (allEntries st)
    (allEntries (snd (search_loop remote terms n i results st))).
Proof.
  induction n as [|n IH]; intros i results st; [apply same_headers_refl |].
  rewrite search_loop_S. pose proof (ensure_headers i st) as He.
  destruct (ensureEntryCached remote i st) as [[e | u] st']; simpl in He; [done |].
  destruct (allEntries st' !! i); (eapply same_headers_trans; [exact He | apply IH]).
Qed.

Lemma weekly_fold_headers now parseDate start (l1 l2 : list Entry) :
  Forall2 same_header l1 l2 ->
  forall counts, foldl (weekly_step now parseDate start) counts l1
                 = foldl (weekly_step now parseDate start) counts l2.
Proof.
  induction 1 as [|a b l1 l2 (_ & Hc & Ht) _ IH]; intros counts; simpl; [done |].
  rewrite IH. f_equal. unfold weekly_step, top_label. by rewrite Hc, Ht.
Qed.

Lemma keys_headers now parseDate (l1 l2 : list Entry) :
  Forall2 same_header l1 l2 ->
  mapM (entry_key now parseDate) l1 = mapM (entry_key now parseDate) l2.
Proof.
  induction 1 as [|a b l1 l2 (_ & Hc & _) _ IH]; [done |].
  assert (Hk : entry_key now parseDate a = entry_key now parseDate b)
    by (unfold entry_key; by rewrite Hc).
  cbn [mapM]. by rewrite Hk, IH.
Qed.

(** X13: a search, finished or failed, changes neither the number nor
    the order of the cached entries, nor their ids, dates and top
    emotions; the weekly table and the streak computed from the cache
    are the same before and after. *)
Theorem search_leaves_listed_fields_and_aggregates (query : option string) (st : Store)
    (now : Date) (parseDate : string -> option Date) :
  let st' := snd (renderHistoryWithQuery remote query st) in
  Forall2 same_header (allEntries st) (allEntries st') /\
  computeWeeklyTop1Counts now parseDate (allEntries st')
  = computeWeeklyTop1Counts now parseDate (allEntries st) /\
  computeStreakWithGrace now parseDate (allEntries st')
  = computeStreakWithGrace now parseDate (allEntries st).
Proof.
  intros st'.
  assert (Hh : Forall2 same_header (allEntries st) (allEntries st')).
  { subst st'. unfold renderHistoryWithQuery. cbv zeta.
    destruct (JsString.is_empty _); [apply same_headers_refl | apply search_loop_headers]. }
  split; [done |]. split.
  - unfold computeWeeklyTop1Counts. cbv zeta. symmetry. by apply weekly_fold_headers.
  - unfold computeStreakWithGrace. by rewrite (keys_headers now parseDate _ _ Hh).
Qed.

End SearchMore.
Lemma refined_query_witness :
  exists shown st',
    renderHistoryWithQuery Sample.offline (Some "happy"%string) Sample.journal
    = (inr shown, st') /\
    renderHistoryWithQuery Sample.offline (Some "happy quiet"%string) Sample.journal
    = (inr (List.filter (entry_ok (query_terms "quiet")) shown), st') /\
    renderHistoryWithQuery Sample.offline (Some "quiet happy"%string) Sample.journal
    = (inr (List.filter (entry_ok (query_terms "quiet")) shown), st').
Proof.
  apply (refined_query_filters_previous_result Sample.offline "happy" "quiet" Sample.journal).
  - reflexivity.
  - vm_compute. discriminate.
Defined.

Lemma failed_fetch_witness :
  renderHistoryWithQuery Sample.offline (Some "walk"%string)
    {| allEntries := [Sample.entry1; Sample.fresh7; Sample.entry2]; fetchLog := [] |}
  = (inl "Failed to fetch"%string,
     {| allEntries := [Sample.entry1; Sample.fresh7; Sample.entry2]; fetchLog := [7%nat] |}).
Proof.
  apply (search_stops_at_first_failed_fetch Sample.offline (Some "walk"%string)
           {| allEntries := [Sample.entry1; Sample.fresh7; Sample.entry2]; fetchLog := [] |}
           [Sample.entry1] [Sample.entry2] Sample.fresh7 "Failed to fetch").
  - vm_compute. discriminate.
  - reflexivity.
  - reflexivity.
  - reflexivity.
  - reflexivity.
Defined.
(** ** Further properties of the recording coordinator *)

Lemma onChunkSettled_button res w :
  recordBtn (page (onChunkSettled res w)) = recordBtn (page w).
Proof.
  unfold onChunkSettled. destruct res as [| [] j]; try done.
  destruct (is_recording w && _); [| done].
  by destruct (liveSessionId (session w)).
Qed.

Lemma onChunkSettled_idle res w : is_recording w = false -> onChunkSettled res w = w.
Proof.
  intros Hr. unfold onChunkSettled. destruct res as [| [] j]; try done.
  by rewrite Hr.
Qed.

Lemma on_settlements_idle l w : is_recording w = false -> on_events w (settlements l) = w.
Proof.
  intros Hr. induction l as [|[p res] l IH]; [done |].
  simpl. by rewrite (onChunkSettled_idle _ _ Hr).
Qed.

Lemma upload_page w : page (uploadCumulativeBlob w) = page w.
Proof. unfold uploadCumulativeBlob. by destruct (length _ =? 0)%nat. Qed.

Lemma ondataavailable_page data w : page (ondataavailable data w) = page w.
Proof.
  unfold ondataavailable. destruct (length data =? 0)%nat; [done |].
  by rewrite upload_page.
Qed.

Lemma on_event_button w ev : recordBtn (page (on_event w ev)) = recordBtn (page w).
Proof.
  destruct ev as [data | p res]; simpl.
  - by rewrite ondataavailable_page.
  - apply onChunkSettled_button.
Qed.

Lemma on_events_button evs w : recordBtn (page (on_events w evs)) = recordBtn (page w).
Proof.
  revert w. induction evs as [|ev evs IH]; intros w; [done |].
  simpl. unfold on_events in IH. by rewrite IH, on_event_button.
Qed.

Lemma stop_until_finalize_button env w :
  recordBtn (page (stop_until_finalize env w)) = "● Record"%string.
Proof.
  unfold stop_until_finalize, stop_send_finalize. rewrite on_events_button. simpl.
  unfold stop_settle.
  assert (Hb : recordBtn (page (stop_final_upload env (stop_release env (stop_flush env w))))
               = "● Record"%string).
  { unfold stop_final_upload. rewrite on_events_button, upload_page.
    unfold stop_release. simpl. rewrite on_events_button. simpl.
    unfold stop_flush. simpl. rewrite ondataavailable_page, on_events_button. done. }
  destruct (pendingUploads _); [done |].
  by rewrite on_events_button.
Qed.

Lemma stop_branch_button env w : recordBtn (page (stop_branch env w)) = "● Record"%string.
Proof.
  unfold stop_branch. cbv zeta.
  destruct (finalize_outcome (finalize_result env)); simpl; apply stop_until_finalize_button.
Qed.

Lemma click_while_recording_stops env w :
  is_recording w = true ->
  mediaRecorder (recordBtn_click env w) = Some inactive /\
  is_recording (recordBtn_click env w) = false.
Proof.
  intros Hr. unfold recordBtn_click. rewrite Hr.
  destruct (stop_branch_frame (for_stop env) w) as (Hm & _ & _).
  destruct (stop_until_finalize_fields (for_stop env) w) as (Hm' & _).
  split; [by rewrite Hm |]. unfold is_recording. by rewrite Hm, Hm'.
Qed.

(** X14: a click made while recording always ends the recording,
    whether the finalize request succeeds or fails: the recorder is
    inactive, the button reads "Record" again, and an upload that
    settles afterwards changes nothing at all. *)
Theorem stop_always_ends_recording env w :
  is_recording w = true ->
  let w' := recordBtn_click env w in
  mediaRecorder w' = Some inactive /\
  is_recording w' = false /\
  recordBtn (page w') = "● Record"%string /\
  forall l, on_events w' (settlements l) = w'.
Proof.
  intros Hr w'. subst w'.
  destruct (click_while_recording_stops env w Hr) as (Hm & Hi).
  split; [done |]. split; [done |]. split.
  - unfold recordBtn_click. rewrite Hr. apply stop_branch_button.
  - intros l. by apply on_settlements_idle.
Qed.

(** *** Starting again *)

(** X15: whatever a stop has left behind, also after a failed
    finalize, the next click starts from nothing when the microphone
    is granted: a fresh session whose uploads carry only audio of the
    new recording; when the microphone is refused, the click only
    writes the error message. *)
Theorem next_click_after_stop env1 env2 w :
  is_recording w = true ->
  let w1 := recordBtn_click env1 w in
  let w2 := recordBtn_click env2 w1 in
  (getUserMedia (for_start env2) = inr tt ->
   session w2 = fresh_session (randomUUID (for_start env2)) /\
   is_recording w2 = true /\
   forall evs,
     recording_inv (randomUUID (for_start env2)) (network w1) (on_events w2 evs)) /\
  (forall msg,
     getUserMedia (for_start env2) = inl msg ->
     session w2 = session w1 /\ mediaRecorder w2 = Some inactive /\
     network w2 = network w1 /\ trace w2 = trace w1 /\
     transcriptBox (page w2) = String.append "❌ Mic error: " msg /\
     statusLine (page w2) = EmptyString).
Proof.
  intros Hr w1 w2.
  destruct (click_while_recording_stops env1 w Hr) as (Hm & Hi).
  fold w1 in Hm, Hi.
  assert (Hw2 : w2 = start_branch (for_start env2) w1)
    by (subst w2; unfold recordBtn_click; by rewrite Hi).
  rewrite Hw2. clear Hw2 w2. split.
  - intros Hg. destruct (recording_inv_start (for_start env2) w1 Hg) as [Hinv Hrec].
    split; [| split; [done |]].
    + unfold start_branch. by rewrite Hg.
    + intros evs. by apply recording_inv_events.
  - intros msg Hd. unfold start_branch. rewrite Hd. by simpl.
Qed.
(** *** Which promises are tracked *)

Lemma slice_last_short {A} n (l : list A) : (length l <= n)%nat -> slice_last n l = l.
Proof. intros H. unfold slice_last. by replace (length l - n)%nat with 0%nat by lia. Qed.

Lemma slice_last_snoc {A} n (l : list A) x :
  (1 <= n)%nat -> slice_last n (slice_last n l ++ [x]) = slice_last n (l ++ [x]).
Proof.
  intros Hn. destruct (Nat.le_gt_cases (length l) n) as [Hl | Hl].
  { by rewrite (slice_last_short n l). }
  unfold slice_last. rewrite !length_app, length_drop. simpl.
  replace (length l - (length l - n) + 1 - n)%nat with 1%nat by lia.
  rewrite !drop_app_le by (rewrite ?length_drop; lia).
  rewrite drop_drop. do 2 f_equal. lia.
Qed.

Lemma pushed_slice (l : list nat) :
  (if (8 <? length l)%nat then slice_last 8 l else l) = slice_last 8 l.
Proof.
  destruct (8 <? length l)%nat eqn:H; [done |].
  apply Nat.ltb_ge in H. by rewrite slice_last_short.
Qed.

Lemma tracks_frame b w w' :
  session w' = session w -> network w' = network w ->
  tracks_latest b w -> tracks_latest b w'.
Proof. unfold tracks_latest. by intros -> ->. Qed.

Lemma tracks_upload b w : tracks_latest b w -> tracks_latest b (uploadCumulativeBlob w).
Proof.
  intros [Hb Hp]. destruct (has_audio w) eqn:Ha; [| by rewrite upload_silent].
  destruct (upload_submits w Ha) as (_ & _ & _ & _ & _ & Hp' & Hn & _).
  unfold tracks_latest. rewrite Hp', Hn, pushed_slice, Hp, length_app. simpl.
  split; [lia |].
  rewrite slice_last_snoc by lia.
  replace (length (network w) + 1 - b)%nat with (S (length (network w) - b)) by lia.
  rewrite seq_S. do 3 f_equal. lia.
Qed.

Lemma tracks_data b data w : tracks_latest b w -> tracks_latest b (ondataavailable data w).
Proof.
  intros H. unfold ondataavailable. destruct (length data =? 0)%nat; [done |].
  by apply tracks_upload.
Qed.

Lemma tracks_event b ev w : tracks_latest b w -> tracks_latest b (on_event w ev).
Proof.
  intros H. destruct ev as [data | p res]; simpl.
  - by apply tracks_data.
  - destruct (onChunkSettled_frame res w) as (_ & Hs & Hn & _).
    by apply (tracks_frame b w).
Qed.

Lemma tracks_events b evs w : tracks_latest b w -> tracks_latest b (on_events w evs).
Proof.
  revert w. induction evs as [|ev evs IH]; intros w H; [done |].
  simpl. apply IH. by apply tracks_event.
Qed.

Lemma tracks_stop b env w : tracks_latest b w -> tracks_latest b (stop_until_finalize env w).
Proof.
  intros H. unfold stop_until_finalize.
  assert (H1 : tracks_latest b (stop_flush env w)).
  { unfold stop_flush. cbv zeta. apply (tracks_frame b (ondataavailable (flush_data env)
      (on_events (emit RequestData
         (with_page (fun p => set_status "Finalizing…" (set_button "● Record" p)) w))
         (settlements (while_flushing env))))); [done | done |].
    apply tracks_data, tracks_events. by apply (tracks_frame b w). }
  assert (H2 : tracks_latest b (stop_release env (stop_flush env w))).
  { unfold stop_release. cbv zeta.
    eapply tracks_frame; [| | apply tracks_events; eapply tracks_frame; [| | exact H1]];
      done. }
  assert (H3 : tracks_latest b (stop_final_upload env (stop_release env (stop_flush env w)))).
  { unfold stop_final_upload. by apply tracks_events, tracks_upload. }
  destruct (stop_settle_fields env
              (stop_final_upload env (stop_release env (stop_flush env w))))
    as (_ & Hs4 & Hn4 & _).
  destruct (stop_send_finalize_fields env
              (stop_settle env (stop_final_upload env (stop_release env (stop_flush env w)))))
    as (_ & Hs5 & Hn5 & _).
  eapply tracks_frame; [exact Hs5 | exact Hn5 |].
  eapply tracks_frame; [exact Hs4 | exact Hn4 | exact H3].
Qed.

(** X16: during a recording the tracked promises are exactly those of
    the eight most recent chunk requests of the session (all of them
    while there are at most eight); this still holds when the stop has
    made its final upload, so the stop waits for these and for no
    earlier upload. *)
Theorem tracked_uploads_are_the_latest_eight first evs stop w0 :
  is_recording w0 = false ->
  getUserMedia (for_start first) = inr tt ->
  let w := on_events (recordBtn_click first w0) evs in
  tracks_latest (length (network w0)) w /\
  tracks_latest (length (network w0)) (stop_until_finalize stop w).
Proof.
  intros Hr Hg w.
  assert (Hw : tracks_latest (length (network w0)) w).
  { subst w. apply tracks_events. unfold recordBtn_click. rewrite Hr.
    unfold start_branch, tracks_latest. rewrite Hg. simpl.
    split; [lia |]. by rewrite Nat.sub_diag. }
  split; [done |]. by apply tracks_stop.
Qed.

Lemma stop_ends_recording_witness :
  mediaRecorder Sample.failed_stop = Some inactive /\
  is_recording Sample.failed_stop = false /\
  recordBtn (page Sample.failed_stop) = "● Record"%string /\
  forall l, on_events Sample.failed_stop (settlements l) = Sample.failed_stop.
Proof.
  apply (stop_always_ends_recording
           (Sample.press Sample.first_id (Sample.stop_with [] [] Sample.server_error))
           Sample.one_slice_recorded).
  reflexivity.
Defined.

Lemma next_click_witness :
  session (recordBtn_click (Sample.press Sample.second_id
                              (Sample.stop_with [] [] Sample.finalized)) Sample.failed_stop)
  = fresh_session Sample.second_id /\
  is_recording (recordBtn_click (Sample.press Sample.second_id
                                   (Sample.stop_with [] [] Sample.finalized))
                  Sample.failed_stop) = true.
Proof.
  destruct (next_click_after_stop
              (Sample.press Sample.first_id (Sample.stop_with [] [] Sample.server_error))
              (Sample.press Sample.second_id (Sample.stop_with [] [] Sample.finalized))
              Sample.one_slice_recorded eq_refl) as [Hgranted _].
  destruct (Hgranted eq_refl) as (Hs & Hr & _).
  split; [exact Hs | exact Hr].
Defined.

Lemma tracked_uploads_witness :
  tracks_latest 0
    (on_events (recordBtn_click (Sample.press Sample.first_id
                                   (Sample.stop_with [] [] Sample.finalized)) Sample.idle)
       Sample.nine_slices) /\
  tracks_latest 0
    (stop_until_finalize (Sample.stop_with [] [] Sample.finalized)
       (on_events (recordBtn_click (Sample.press Sample.first_id
                                      (Sample.stop_with [] [] Sample.finalized)) Sample.idle)
          Sample.nine_slices)).
Proof.
  apply (tracked_uploads_are_the_latest_eight
           (Sample.press Sample.first_id (Sample.stop_with [] [] Sample.finalized))
           Sample.nine_slices (Sample.stop_with [] [] Sample.finalized) Sample.idle);
    reflexivity.
Defined.
(** ** The staged images *)

Lemma staged_idemp (im : Image) : staged (staged im) = staged im.
Proof.
  unfold staged. simpl. f_equal. by destruct (caption im) as [[|c s]|].
Qed.

Lemma staged_images_idemp (images : option (list Image)) :
  List.map staged (staged_images images) = staged_images images.
Proof.
  unfold staged_images. destruct images as [l|]; simpl; [| done].
  rewrite List.map_map. apply List.map_ext. intros im. apply staged_idemp.
Qed.

Lemma uploadOneImage_staged (r : Reply ImageJson) (meta : Image) :
  uploadOneImage r = inr meta -> staged meta = meta.
Proof.
  destruct r as [m | ok status m | [] status detail j]; simpl; try done.
  intros [= <-]. unfold staged. simpl. f_equal.
  by destruct (img_caption j) as [[|c s]|].
Qed.

Lemma omap_cons_eq {A B} (f : A -> option B) (x : A) (l : list A) :
  omap f (x :: l) = match f x with Some y => y :: omap f l | None => omap f l end.
Proof. reflexivity. Qed.

(** The images and the alerts a list of uploads yields. *)
Lemma add_images_fold (files : list (Reply ImageJson)) (d : Desk) :
  let d' := foldl add_image d files in
  pendingImages d'
  = pendingImages d
    ++ omap (fun r => match uploadOneImage r with inr meta => Some meta | inl _ => None end)
         files /\
  alerts d'
  = alerts d
    ++ omap (fun r => match uploadOneImage r with
                      | inr _ => None
                      | inl m => Some (String.append "Image failed: " m)
                      end) files /\
  saveStatus d' = saveStatus d /\ posted d' = posted d /\
  historyPanel d' = historyPanel d /\ streakBadge d' = streakBadge d /\
  imageUploadBtn_disabled d' = imageUploadBtn_disabled d /\
  imageUploadBtn_text d' = imageUploadBtn_text d.
Proof.
  revert d. induction files as [|r files IH]; intros d.
  { simpl. by rewrite !app_nil_r. }
  rewrite !omap_cons_eq. cbn [foldl]. cbv zeta.
  destruct (IH (add_image d r)) as (-> & -> & -> & -> & -> & -> & -> & ->).
  unfold add_image. destruct (uploadOneImage r) as [m | meta]; cbv beta iota;
    cbn [pendingImages alerts saveStatus posted historyPanel streakBadge
         imageUploadBtn_disabled imageUploadBtn_text with_images alert];
    by rewrite <- ?app_assoc.
Qed.

Lemma uploads_partition (files : list (Reply ImageJson)) :
  (length (omap (fun r => match uploadOneImage r with
                          | inr meta => Some meta
                          | inl _ => None
                          end) files)
   + length (omap (fun r => match uploadOneImage r with
                            | inr _ => None
                            | inl m => Some (String.append "Image failed: " m)
                            end) files)
   = length files)%nat.
Proof.
  induction files as [|r files IH]; [done |].
  rewrite !omap_cons_eq. destruct (uploadOneImage r); cbv beta iota; cbn [length]; lia.
Qed.

Lemma uploads_staged (files : list (Reply ImageJson)) :
  List.map staged (omap (fun r => match uploadOneImage r with
                                  | inr meta => Some meta
                                  | inl _ => None
                                  end) files)
  = omap (fun r => match uploadOneImage r with inr meta => Some meta | inl _ => None end)
      files.
Proof.
  induction files as [|r files IH]; [done |].
  rewrite !omap_cons_eq. destruct (uploadOneImage r) as [m | meta] eqn:Hr; [done |].
  cbn [List.map]. by rewrite IH, (uploadOneImage_staged r meta Hr).
Qed.

(** X17: selecting image files appends, in the order of selection,
    the images whose upload succeeded, in the form in which they will
    be saved, and raises one alert for each upload that failed; a
    failure does not stop the remaining uploads, and the button is
    enabled again at the end. *)
Theorem selected_images_are_staged_in_order (files : list (Reply ImageJson)) (d : Desk) :
  let d' := imageInput_change files d in
  let added :=
    omap (fun r => match uploadOneImage r with inr meta => Some meta | inl _ => None end)
      files in
  let failures :=
    omap (fun r => match uploadOneImage r with
                   | inr _ => None
                   | inl m => Some (String.append "Image failed: " m)
                   end) files in
  pendingImages d' = pendingImages d ++ added /\
  alerts d' = alerts d ++ failures /\
  (length added + length failures = length files)%nat /\
  List.map staged added = added /\
  saveStatus d' = saveStatus d /\ posted d' = posted d /\
  (files = [] /\ d' = d \/
   imageUploadBtn_disabled d' = false /\ imageUploadBtn_text d' = "➕ Add images"%string).
Proof.
  intros d' added failures.
  pose proof (uploads_partition files) as Hlen.
  pose proof (uploads_staged files) as Hst.
  subst d'. destruct files as [|r files].
  { simpl. rewrite !app_nil_r. repeat split; try done. by left. }
  unfold imageInput_change.
  destruct (add_images_fold (r :: files) (set_imageUploadBtn true "Adding…" d))
    as (Hp & Ha & Hs & Hpo & _).
  cbv zeta in Hp, Ha, Hs, Hpo.
  split; [exact Hp |]. split; [exact Ha |]. split; [exact Hlen |]. split; [exact Hst |].
  split; [exact Hs |]. split; [exact Hpo |]. by right.
Qed.

(** X18: removing the card at a position takes exactly the image at
    that position out of the staged list and keeps the others in their
    order; an image added last is removed again by the card at the old
    length. *)
Theorem remove_deletes_by_position (idx : nat) (d : Desk) :
  (forall im, pendingImages d !! idx = Some im ->
     pendingImages (remove_click idx d)
     = take idx (pendingImages d) ++ drop (S idx) (pendingImages d) /\
     pendingImages d
     = take idx (pendingImages d) ++ im :: drop (S idx) (pendingImages d)) /\
  (pendingImages d !! idx = None -> remove_click idx d = d) /\
  (forall r meta,
     uploadOneImage r = inr meta ->
     pendingImages (remove_click (length (pendingImages d)) (imageInput_change [r] d))
     = pendingImages d).
Proof.
  split; [| split].
  - intros im Him. simpl. split.
    + apply delete_take_drop.
    + by rewrite <- (take_drop_middle _ _ _ Him) at 1.
  - intros Hnone. unfold remove_click.
    apply lookup_ge_None in Hnone.
    rewrite delete_take_drop, take_ge, drop_ge, app_nil_r by lia. by destruct d.
  - intros r meta Hr. unfold imageInput_change, add_image. simpl. rewrite Hr. simpl.
    by rewrite delete_middle, app_nil_r.
Qed.
(** ** Saving, opening and uploading *)

Lemma trimStart_head (s : string) :
  JsString.trimStart s = EmptyString \/
  exists c t, JsString.trimStart s = String c t /\ JsString.is_space c = false.
Proof.
  induction s as [|c s IH]; simpl; [by left |].
  destruct (JsString.is_space c) eqn:Hc; [done |]. right. by exists c, s.
Qed.

Lemma trimEnd_idemp (s : string) : JsString.trimEnd (JsString.trimEnd s) = JsString.trimEnd s.
Proof.
  induction s as [|c s IH]; simpl; [done |].
  destruct (JsString.is_space c && JsString.is_empty (JsString.trimEnd s)) eqn:Hc; [done |].
  simpl. by rewrite IH, Hc.
Qed.

(** Trimming twice is trimming once. *)
Lemma trim_idemp (s : string) : JsString.trim (JsString.trim s) = JsString.trim s.
Proof.
  unfold JsString.trim.
  assert (Hs : JsString.trimStart (JsString.trimEnd (JsString.trimStart s))
               = JsString.trimEnd (JsString.trimStart s)).
  { destruct (trimStart_head s) as [-> | (c & t & -> & Hc)]; [done |].
    simpl. rewrite Hc. simpl. by rewrite Hc. }
  by rewrite Hs, trimEnd_idemp.
Qed.

Section EditorFacts.

Variable now : Date.
Variable parseDate : string -> option Date.
Variable remote : nat -> Thrown FullEntry.
Variable typeError : string.

(** What a refresh leaves alone. *)
Lemma refresh_frame listing value (a : App) :
  let a' := snd (refreshHistoryCache now parseDate remote typeError listing value a) in
  app_page a' = app_page a /\
  pendingImages (app_desk a') = pendingImages (app_desk a) /\
  saveStatus (app_desk a') = saveStatus (app_desk a) /\
  alerts (app_desk a') = alerts (app_desk a) /\
  posted (app_desk a') = posted (app_desk a) /\
  imageUploadBtn_disabled (app_desk a') = imageUploadBtn_disabled (app_desk a) /\
  imageUploadBtn_text (app_desk a') = imageUploadBtn_text (app_desk a).
Proof.
  unfold refreshHistoryCache.
  destruct (fetchEntries listing) as [m | items]; [done |]. cbv zeta.
  destruct (computeStreakWithGrace now parseDate items) as [s|]; [| done].
  by destruct (renderHistoryWithQuery remote _ _) as [[m | shown] st].
Qed.

(** What [Save] posts when a named transcription result is at hand. *)
Lemma save_with_name saving reading listing value (a : App) last c name :
  lastTranscribe (app_page a) = Some last ->
  lt_filename last = Some (String c name) ->
  let a' := saveBtn_click now parseDate remote typeError saving reading listing value a in
  posted (app_desk a')
  = posted (app_desk a)
    ++ [ {| save_filename := Some (String c name);
            save_transcript := JsString.trim (transcriptBox (app_page a));
            save_images := List.map staged (pendingImages (app_desk a)) |} ] /\
  alerts (app_desk a') = alerts (app_desk a) /\
  lastTranscribe (app_page a') = lastTranscribe (app_page a) /\
  transcriptBox (app_page a') = transcriptBox (app_page a).
Proof.
  intros Hl Hf a'. subst a'. unfold saveBtn_click. rewrite Hl, Hf.
  simpl truthy. cbv iota zeta beta.
  destruct saving as [m | ok status m | [] status detail j]; try by simpl.
  destruct (fetchEntry reading) as [m | entry]; [by simpl |].
  match goal with |- context [refreshHistoryCache _ _ _ _ _ _ ?x] =>
    destruct (refresh_frame listing value x) as (Hp & _ & _ & Ha & Hpo & _) end.
  cbv zeta in Hp, Ha, Hpo. rewrite Hp, Ha, Hpo.
  destruct (det_emotions_top3 entry) as [[|e rest]|]; by simpl.
Qed.

Lemma save_without_name saving reading listing value (a : App) :
  match lastTranscribe (app_page a) with
  | Some last => truthy (lt_filename last) = None
  | None => True
  end ->
  saveBtn_click now parseDate remote typeError saving reading listing value a
  = on_desk (set_saveStatus "⚠️ Nothing to save yet (upload or record first).") a.
Proof.
  unfold saveBtn_click. destruct (lastTranscribe (app_page a)) as [last|]; [| done].
  by intros ->.
Qed.

(** X19: [Save] refuses to act unless a transcription result with a
    file name is at hand: it then only writes its warning. Otherwise
    it posts exactly one request, whatever the server replies; the
    request names that file and carries the trimmed text of the box
    and the staged images. *)
Theorem save_posts_name_text_and_staged_images saving reading listing value (a : App) :
  let a' := saveBtn_click now parseDate remote typeError saving reading listing value a in
  match lastTranscribe (app_page a) with
  | Some {| lt_filename := Some (String c name) |} =>
      posted (app_desk a')
      = posted (app_desk a)
        ++ [ {| save_filename := Some (String c name);
                save_transcript := JsString.trim (transcriptBox (app_page a));
                save_images := List.map staged (pendingImages (app_desk a)) |} ] /\
      alerts (app_desk a') = alerts (app_desk a) /\
      lastTranscribe (app_page a') = lastTranscribe (app_page a) /\
      transcriptBox (app_page a') = transcriptBox (app_page a)
  | _ =>
      a' = on_desk (set_saveStatus "⚠️ Nothing to save yet (upload or record first).") a
  end.
Proof.
  intros a'. subst a'.
  destruct (lastTranscribe (app_page a)) as [[[[|c name]|] text]|] eqn:Hl.
  - apply save_without_name. by rewrite Hl.
  - rewrite <- Hl. by eapply save_with_name.
  - apply save_without_name. by rewrite Hl.
  - apply save_without_name. by rewrite Hl.
Qed.

(** X20: opening an entry replaces the staged images by the images of
    that entry, and a [Save] made right after sends the entry back as
    it was read: its audio file name, its trimmed transcript and the
    same images. When the entry cannot be read, the staged images and
    the transcription result stay as they were. *)
Theorem opened_entry_is_saved_back reply saving reading listing value (a : App) :
  let a1 := row_click reply a in
  let a2 := saveBtn_click now parseDate remote typeError saving reading listing value a1 in
  (forall entry c name,
     fetchEntry reply = inr entry ->
     det_audio_filename entry = Some (String c name) ->
     pendingImages (app_desk a1) = staged_images (det_images entry) /\
     posted (app_desk a2)
     = posted (app_desk a)
       ++ [ {| save_filename := det_audio_filename entry;
               save_transcript :=
                 JsString.trim (default EmptyString (truthy (det_transcript entry)));
               save_images := staged_images (det_images entry) |} ]) /\
  (forall m,
     fetchEntry reply = inl m ->
     pendingImages (app_desk a1) = pendingImages (app_desk a) /\
     lastTranscribe (app_page a1) = lastTranscribe (app_page a) /\
     transcriptBox (app_page a1) = String.append "❌ " m /\
     app_store a1 = app_store a).
Proof.
  intros a1 a2. split.
  - intros entry c name He Hf.
    assert (Ha1 : a1 = on_desk (with_images (staged_images (det_images entry)))
      (on_page (fun p =>
         renderPlayer (det_audio_filename entry)
           (set_lastTranscribe
              {| lt_filename := det_audio_filename entry;
                 lt_transcript := default EmptyString (truthy (det_transcript entry)) |}
              (set_transcript (default EmptyString (truthy (det_transcript entry)))
                 (set_status
                    (String.append "🗂 "
                       (String.append (fmt (det_created_at entry))
                          (String.append " ("
                             (String.append
                                (default "undefined"%string (det_audio_filename entry))
                                ")")))) p))))
         (on_page (fun p => renderPlayer None
                     (set_transcript EmptyString (set_status "Loading entry…" p))) a))).
    { subst a1. unfold row_click. by rewrite He. }
    split; [by rewrite Ha1 |].
    destruct (save_with_name saving reading listing value a1
                {| lt_filename := det_audio_filename entry;
                   lt_transcript := default EmptyString (truthy (det_transcript entry)) |}
                c name) as (Hp & _); [by rewrite Ha1 | done |].
    fold a2 in Hp. rewrite Hp, Ha1. simpl. by rewrite staged_images_idemp, Hf.
  - intros m He. subst a1. unfold row_click. by rewrite He.
Qed.

End EditorFacts.
(** *** From a recording or an upload to [Save] *)

Lemma onChunkSettled_last res w :
  lastTranscribe (page (onChunkSettled res w)) = lastTranscribe (page w).
Proof.
  unfold onChunkSettled. destruct res as [| [] j]; try done.
  destruct (is_recording w && _); [| done].
  by destruct (liveSessionId (session w)).
Qed.

Lemma on_events_last evs w : lastTranscribe (page (on_events w evs)) = lastTranscribe (page w).
Proof.
  revert w. induction evs as [|ev evs IH]; intros w; [done |].
  simpl. unfold on_events in IH. rewrite IH.
  destruct ev as [data | p res]; simpl.
  - by rewrite ondataavailable_page.
  - apply onChunkSettled_last.
Qed.

Lemma stop_until_finalize_last env w :
  lastTranscribe (page (stop_until_finalize env w)) = lastTranscribe (page w).
Proof.
  unfold stop_until_finalize, stop_send_finalize. rewrite on_events_last. simpl.
  unfold stop_settle.
  assert (Hb : lastTranscribe
                 (page (stop_final_upload env (stop_release env (stop_flush env w))))
               = lastTranscribe (page w)).
  { unfold stop_final_upload. rewrite on_events_last, upload_page.
    unfold stop_release. simpl. rewrite on_events_last. simpl.
    unfold stop_flush. simpl. rewrite ondataavailable_page, on_events_last. done. }
  destruct (pendingUploads _); [done |].
  by rewrite on_events_last.
Qed.

Section SaveAfter.

Variable now : Date.
Variable parseDate : string -> option Date.
Variable remote : nat -> Thrown FullEntry.
Variable typeError : string.

(** X21: the result of a finished recording is what [Save] sends: the
    audio file name and the final transcript returned by the finalize
    request, trimmed, with the staged images. When finalize returns no
    audio file name, [Save] refuses; when finalize fails, [Save] still
    refers to the transcription result that was there before and sends
    it with the error text now standing in the box. *)
Theorem recording_result_reaches_save env w (d : Desk) (st : Store)
    saving reading listing value :
  is_recording w = true ->
  let a := {| app_page := page (recordBtn_click env w); app_desk := d; app_store := st |} in
  let a' := saveBtn_click now parseDate remote typeError saving reading listing value a in
  (forall status j,
     finalize_result (for_stop env) = FinalizeResponded true status j ->
     match truthy (audio_filename j) with
     | Some f =>
         posted (app_desk a')
         = posted d
           ++ [ {| save_filename := Some f;
                   save_transcript :=
                     JsString.trim (default EmptyString (truthy (final_transcript j)));
                   save_images := List.map staged (pendingImages d) |} ]
     | None =>
         a' = on_desk (set_saveStatus "⚠️ Nothing to save yet (upload or record first).") a
     end) /\
  (forall m last c name,
     finalize_outcome (finalize_result (for_stop env)) = inl m ->
     lastTranscribe (page w) = Some last ->
     lt_filename last = Some (String c name) ->
     posted (app_desk a')
     = posted d
       ++ [ {| save_filename := Some (String c name);
               save_transcript := JsString.trim (String.append "❌ Mic error: " m);
               save_images := List.map staged (pendingImages d) |} ]).
Proof.
  intros Hr a a'. split.
  - intros status j Hfin.
    assert (Hpage : lastTranscribe (app_page a)
                    = Some {| lt_filename := truthy (audio_filename j);
                              lt_transcript :=
                                default EmptyString (truthy (final_transcript j)) |} /\
                    transcriptBox (app_page a)
                    = default EmptyString (truthy (final_transcript j))).
    { subst a. simpl. unfold recordBtn_click, stop_branch. rewrite Hr, Hfin. by simpl. }
    destruct Hpage as [Hl Ht].
    destruct (truthy (audio_filename j)) as [f|] eqn:Hf.
    + assert (exists c name, f = String c name) as (c & name & ->).
      { destruct (audio_filename j) as [[|c name]|]; simpl in Hf; try done.
        injection Hf as <-. by eexists _, _. }
      destruct (save_with_name now parseDate remote typeError saving reading listing value
                  a _ c name Hl eq_refl) as (Hp & _).
      fold a' in Hp. by rewrite Hp, Ht.
    + apply save_without_name. by rewrite Hl.
  - intros m last c name Hfin Hl Hf.
    assert (Hpage : lastTranscribe (app_page a) = Some last /\
                    transcriptBox (app_page a) = String.append "❌ Mic error: " m).
    { subst a. simpl. unfold recordBtn_click, stop_branch. rewrite Hr, Hfin. simpl.
      by rewrite stop_until_finalize_last. }
    destruct Hpage as [Hl' Ht].
    destruct (save_with_name now parseDate remote typeError saving reading listing value
                a last c name Hl' Hf) as (Hp & _).
    fold a' in Hp. by rewrite Hp, Ht.
Qed.

(** X22: an upload without a selected file only raises an alert. A
    successful upload shows the trimmed transcript and makes the
    returned file name and that transcript the result that [Save]
    sends; a failed one writes the error into the box and leaves the
    earlier result and the staged images in place. *)
Theorem upload_outcomes reply (a : App) saving reading listing value :
  uploadBtn_click false reply a = on_desk (alert "Please select a .wav or .mp3 first.") a /\
  (forall status detail data c name,
     reply = Body true status detail data ->
     up_filename data = Some (String c name) ->
     let a1 := uploadBtn_click true reply a in
     transcriptBox (app_page a1)
     = JsString.trim (default EmptyString (truthy (up_transcript data))) /\
     posted (app_desk (saveBtn_click now parseDate remote typeError
                         saving reading listing value a1))
     = posted (app_desk a)
       ++ [ {| save_filename := up_filename data;
               save_transcript :=
                 JsString.trim (default EmptyString (truthy (up_transcript data)));
               save_images := List.map staged (pendingImages (app_desk a)) |} ]) /\
  (forall m,
     (reply = NoReply m \/
      (exists status unread,
         reply = BadBody false status unread /\
         m = failure_message "Upload failed" status None) \/
      (exists status detail data,
         reply = Body false status detail data /\
         m = failure_message "Upload failed" status detail)) ->
     let a1 := uploadBtn_click true reply a in
     transcriptBox (app_page a1) = String.append "❌ Error: " m /\
     statusLine (app_page a1) = EmptyString /\
     lastTranscribe (app_page a1) = lastTranscribe (app_page a) /\
     app_desk a1 = app_desk a /\ app_store a1 = app_store a).
Proof.
  split; [done |]. split.
  - intros status detail data c name -> Hf a1.
    assert (Hl : lastTranscribe (app_page a1)
                 = Some {| lt_filename := up_filename data;
                           lt_transcript :=
                             JsString.trim (default EmptyString
                                              (truthy (up_transcript data))) |})
      by done.
    assert (Ht : transcriptBox (app_page a1)
                 = JsString.trim (default EmptyString (truthy (up_transcript data))))
      by done.
    split; [done |].
    destruct (save_with_name now parseDate remote typeError saving reading listing value
                a1 _ c name Hl Hf) as (Hp & _).
    rewrite Hp, Ht, trim_idemp, Hf. done.
  - intros m [-> | [(status & unread & -> & ->) | (status & detail & data & -> & ->)]];
      by simpl.
Qed.

End SaveAfter.
(** ** The history panel *)

Lemma fetchEntries_fresh listing items :
  fetchEntries listing = inr items -> Forall (fun it => hydrated it = false) items.
Proof.
  destruct listing as [m | ok status m | [] status detail ls]; simpl; try done.
  intros [= <-]. apply Forall_forall. intros it Hin.
  apply list_elem_of_In, in_map_iff in Hin as (l & <- & _). done.
Qed.

Lemma filter_all {A} (f : A -> bool) (l : list A) :
  Forall (fun x => f x = true) l -> List.filter f l = l.
Proof. induction 1 as [|x l Hx _ IH]; simpl; [done |]. by rewrite Hx, IH. Qed.

Section HistoryFacts.

Variable now : Date.
Variable parseDate : string -> option Date.
Variable remote : nat -> Thrown FullEntry.
Variable typeError : string.

(** X23: what the history button leaves behind. When the list cannot
    be loaded, the cache is untouched and the panel shows the error.
    When the list holds an entry without a usable date, the cache has
    been replaced, but the streak computation has thrown: the panel
    shows that error, the badge keeps its text and no entry is
    requested. Otherwise, with an empty search box, the cache is the
    list, the badge shows its streak and the panel lists all of it. *)
Theorem history_button_outcomes listing value (a : App) :
  let a' := historyBtn_click now parseDate remote typeError listing value a in
  (forall m,
     fetchEntries listing = inl m ->
     a' = on_desk (set_historyPanel (PanelText (String.append "❌ " m))) a) /\
  (forall items,
     fetchEntries listing = inr items ->
     forallb dated items = false ->
     a' = on_desk (set_historyPanel (PanelText (String.append "❌ " typeError)))
            (on_store (fun st => {| allEntries := items; fetchLog := fetchLog st |}) a)) /\
  (forall items,
     fetchEntries listing = inr items ->
     forallb dated items = true ->
     JsString.trim value = EmptyString ->
     exists s,
       computeStreakWithGrace now parseDate items = Some s /\
       a' = on_desk (set_historyPanel (renderHistoryList items))
              (on_desk (set_streakBadge (streak_text s))
                 (on_store (fun st => {| allEntries := items; fetchLog := fetchLog st |})
                    a))).
Proof.
  intros a'. subst a'. unfold historyBtn_click, refreshHistoryCache. cbv zeta.
  split; [| split].
  - intros m ->. done.
  - intros items -> Hd.
    assert (Hs : computeStreakWithGrace now parseDate items = None).
    { unfold computeStreakWithGrace. by rewrite (keys_missing now parseDate _ Hd). }
    by rewrite Hs.
  - intros items -> Hd Hq.
    destruct (keys_collected now parseDate _ Hd) as [ks Hks].
    rewrite (streak_of_dated now parseDate _ _ Hks).
    exists (streak_loop (list_to_set ks) 365 (setHours0 now) 0 0).
    split; [reflexivity |].
    generalize (streak_loop (list_to_set ks) 365 (setHours0 now) 0 0). intros s.
    unfold renderHistoryWithQuery. simpl default. rewrite Hq.
    change (JsString.is_empty (JsString.trim EmptyString)) with true.
    reflexivity.
Qed.

End HistoryFacts.
Section RefreshFacts.

Variable now : Date.
Variable parseDate : string -> option Date.
Variable remote : nat -> Thrown FullEntry.
Variable typeError : string.

(** X24: a refresh replaces the cache objects by new ones, on which
    nothing is memoized. With a query in the search box, the search
    that the refresh runs therefore requests every listed entry again,
    once each and in list order, whatever had been cached before. *)
Theorem refresh_requests_every_entry_again listing value (a : App) items :
  fetchEntries listing = inr items ->
  forallb dated items = true ->
  forallb (servable remote) items = true ->
  JsString.trim value <> EmptyString ->
  exists a',
    refreshHistoryCache now parseDate remote typeError listing value a = (inr tt, a') /\
    allEntries (app_store a') = List.map (hydrate_with remote) items /\
    fetchLog (app_store a') = fetchLog (app_store a) ++ List.map id items /\
    historyPanel (app_desk a')
    = renderHistoryList
        (List.filter (entry_ok (query_terms value))
           (List.map (hydrate_with remote) items)).
Proof.
  intros Hf Hd Hs Hq. unfold refreshHistoryCache. rewrite Hf. cbv zeta.
  destruct (keys_collected now parseDate _ Hd) as [ks Hks].
  rewrite (streak_of_dated now parseDate _ _ Hks).
  generalize (streak_loop (list_to_set ks) 365 (setHours0 now) 0 0). intros s.
  rewrite (search_servable remote); [| done | simpl; by rewrite trim_idemp].
  eexists. split; [reflexivity |]. simpl.
  rewrite !query_terms_trim.
  rewrite (filter_all (fun it => negb (hydrated it)) items); [done |].
  eapply Forall_impl; [by apply (fetchEntries_fresh listing) |].
  by intros it ->.
Qed.

(** X25: the note "Entry deleted" is written only when the deletion
    was confirmed and both the deletion and the refresh that follows
    it succeeded. A confirmed deletion that fails, or whose refresh
    fails although the entry is gone, raises one "Delete failed" alert
    instead; without confirmation nothing happens. *)
Theorem delete_reports_success_or_failure yes deletion listing value (a : App) :
  let a' := delete_click now parseDate remote typeError yes deletion listing value a in
  let refreshed := refreshHistoryCache now parseDate remote typeError listing value a in
  (yes = false -> a' = a) /\
  (yes = true ->
   match deleteEntry deletion, fst refreshed with
   | inr _, inr _ =>
       saveStatus (app_desk a') = "🗑️ Entry deleted"%string /\
       alerts (app_desk a') = alerts (app_desk a) /\
       app_store a' = app_store (snd refreshed)
   | inr _, inl m =>
       saveStatus (app_desk a') = saveStatus (app_desk a) /\
       alerts (app_desk a') = alerts (app_desk a) ++ [String.append "Delete failed: " m] /\
       app_store a' = app_store (snd refreshed)
   | inl m, _ =>
       a' = on_desk (alert (String.append "Delete failed: " m)) a
   end).
Proof.
  intros a' refreshed. subst a'. unfold delete_click. split; [by intros -> |].
  intros ->. destruct (deleteEntry deletion) as [m | u]; [done |].
  destruct (refresh_frame now parseDate remote typeError listing value a)
    as (_ & _ & Hs & Ha & _).
  fold refreshed in Hs, Ha |- *. cbv zeta in Hs, Ha.
  destruct refreshed as [[m | u'] a1]; simpl in *; by rewrite ?Hs, ?Ha.
Qed.

End RefreshFacts.
(** ** The model selector *)

(** What every handled change keeps: the element shows the active
    model, there is an active model, and the stored model is the one
    found at the start or the active one. *)
Lemma change_keeps (stored : option string) next r (s : Selector) :
  next ∈ modelSelect_options s ->
  shows_current s /\ is_Some (currentModel s) /\
  (whisperModel s = stored \/ whisperModel s = currentModel s) ->
  let s' := fst (modelSelect_change next r s) in
  modelSelect_options s' = modelSelect_options s /\
  shows_current s' /\ is_Some (currentModel s') /\
  (whisperModel s' = stored \/ whisperModel s' = currentModel s').
Proof.
  intros Hin (Hsh & Hsome & Hw) s'. subst s'.
  unfold modelSelect_change, shows_current in *. cbv zeta. simpl.
  case_bool_decide as Hc; simpl.
  - rewrite Hc. simpl. rewrite bool_decide_eq_true_2 by done.
    rewrite Hc in Hw. done.
  - destruct (setBackendModelName r) as [m | []]; simpl.
    + done.
    + rewrite bool_decide_eq_true_2 by done. split; [done |]. split; [done |].
      split; [done |]. by right.
Qed.

Lemma changes_keep (stored : option string) l : forall (s : Selector),
  Forall (fun c => fst c ∈ modelSelect_options s) l ->
  shows_current s /\ is_Some (currentModel s) /\
  (whisperModel s = stored \/ whisperModel s = currentModel s) ->
  modelSelect_options (changes l s) = modelSelect_options s /\
  shows_current (changes l s) /\ is_Some (currentModel (changes l s)) /\
  (whisperModel (changes l s) = stored \/
   whisperModel (changes l s) = currentModel (changes l s)).
Proof.
  induction l as [|[next r] l IH]; intros s Hl Hinv; [done |].
  apply Forall_cons in Hl as [Hin Hl]. simpl in Hin.
  destruct (change_keeps stored next r s Hin Hinv) as (Ho & Hinv').
  cbv zeta in Ho, Hinv'.
  unfold changes. simpl foldl.
  destruct (IH (fst (modelSelect_change next r s))) as (Ho' & Hrest); [by rewrite Ho | done |].
  split; [| done]. unfold changes in Ho'. by rewrite Ho', Ho.
Qed.

(** X26: once the selector is initialised, it shows the active model
    after every handled change: a change the server accepts makes the
    picked model the active and the stored one, a change that fails is
    taken back on the element and alters neither; the options stay as
    they are. *)
Theorem selector_shows_active_model (init : Reply (option string))
    (l : list (string * Reply unit)) (s0 : Selector) :
  let s1 := initModelSelector init s0 in
  let s := changes l s1 in
  Forall (fun c => fst c ∈ modelSelect_options s1) l ->
  shows_current s1 /\
  shows_current s /\
  modelSelect_options s = modelSelect_options s1 /\
  is_Some (currentModel s) /\
  (whisperModel s = whisperModel s0 \/ whisperModel s = currentModel s) /\
  (forall next r,
     next ∈ modelSelect_options s ->
     let s' := fst (modelSelect_change next r s) in
     match setBackendModelName r with
     | inr _ => currentModel s' = Some next /\ whisperModel s' = Some next /\
                modelSelect_value s' = next
     | inl _ => currentModel s' = currentModel s /\ whisperModel s' = whisperModel s /\
                modelSelect_value s' = modelSelect_value s
     end \/ currentModel s = Some next /\ s' = s).
Proof.
  intros s1 s Hl.
  assert (H1 : shows_current s1 /\ is_Some (currentModel s1) /\
               (whisperModel s1 = whisperModel s0 \/ whisperModel s1 = currentModel s1)).
  { subst s1. unfold initModelSelector, shows_current, populateModelSelect. cbv zeta.
    destruct (modelSelect_options s0); simpl; by eauto. }
  destruct (changes_keep (whisperModel s0) l s1 Hl H1) as (Hopt & Hshow & Hsome & Hw).
  fold s in Hopt, Hshow, Hsome, Hw.
  split; [apply H1 |]. split; [done |]. split; [done |]. split; [done |]. split; [done |].
  intros next r Hin s'. subst s'.
  unfold modelSelect_change. cbv zeta. simpl.
  case_bool_decide as Hc; simpl.
  - right. split; [done |]. destruct s as [o v c w n t]. simpl in *.
    unfold shows_current in Hshow. simpl in Hshow. rewrite Hc in Hshow. simpl in Hshow.
    rewrite bool_decide_eq_true_2 in Hshow by done. by rewrite Hshow.
  - left. destruct (setBackendModelName r) as [m | []]; simpl; [| done].
    split; [done |]. split; [done |]. symmetry. apply Hshow.
Qed.

(** X27: when the timer of a change fires, the status line is back at
    the text it had before the change, whether the change succeeded or
    failed; picking the active model again causes no request and
    starts no timer. *)
Theorem change_puts_status_back next r (s : Selector) :
  match modelSelect_change next r s with
  | (s', Some prevStatus) =>
      currentModel s <> Some next /\
      prevStatus = statusLine (selector_page s) /\
      statusLine (selector_page (restore_status prevStatus s')) = statusLine (selector_page s) /\
      currentModel (restore_status prevStatus s') = currentModel s' /\
      modelSelect_value (restore_status prevStatus s') = modelSelect_value s'
  | (s', None) =>
      currentModel s = Some next /\
      selector_page s' = selector_page s /\ currentModel s' = currentModel s /\
      whisperModel s' = whisperModel s /\ modelNote s' = modelNote s
  end.
Proof.
  unfold modelSelect_change. cbv zeta. simpl.
  case_bool_decide as Hc; [done |].
  destruct (setBackendModelName r) as [m | []]; by unfold restore_status.
Qed.

(** ** Formatting a date for display *)

Lemma replace_first_T_at (date time : string) :
  forallb (fun c => negb (Ascii.eqb c "T")) (list_ascii_of_string date) = true ->
  replace_first_T (String.append date (String "T" time))
  = String.append date (String " " time).
Proof.
  induction date as [|c date IH]; simpl; [done |].
  intros [Hc Hd]%andb_prop. apply negb_true_iff in Hc. rewrite Hc. by rewrite IH.
Qed.

Lemma replace_first_T_none (s : string) :
  forallb (fun c => negb (Ascii.eqb c "T")) (list_ascii_of_string s) = true ->
  replace_first_T s = s.
Proof.
  induction s as [|c s IH]; simpl; [done |].
  intros [Hc Hd]%andb_prop. apply negb_true_iff in Hc. rewrite Hc. by rewrite IH.
Qed.

Lemma replace_first_T_length (s : string) :
  String.length (replace_first_T s) = String.length s.
Proof.
  induction s as [|c s IH]; simpl; [done |].
  destruct (Ascii.eqb c "T"); simpl; by rewrite ?IH.
Qed.

(** X28: [fmt] turns the [T] between the date and the time of a
    timestamp into a blank and changes nothing else: a later [T] stays,
    a text without [T] is returned as it is, the length is kept, and a
    missing timestamp gives the empty text. *)
Theorem fmt_blanks_the_first_T :
  (forall date time,
     forallb (fun c => negb (Ascii.eqb c "T")) (list_ascii_of_string date) = true ->
     fmt (Some (String.append date (String "T" time)))
     = String.append date (String " " time)) /\
  (forall s,
     forallb (fun c => negb (Ascii.eqb c "T")) (list_ascii_of_string s) = true ->
     fmt (Some s) = s) /\
  (forall s, String.length (fmt (Some s)) = String.length s) /\
  fmt None = EmptyString.
Proof.
  assert (Hlen : forall s, String.length (fmt (Some s)) = String.length s).
  { intros s. unfold fmt. simpl. rewrite <- (replace_first_T_length s).
    by destruct (replace_first_T s). }
  assert (Hfmt : forall s, fmt (Some s) = replace_first_T s).
  { intros s. unfold fmt. simpl. by destruct (replace_first_T s). }
  split; [| split; [| split; [done | done]]].
  - intros date time Hd. by rewrite Hfmt, replace_first_T_at.
  - intros s Hs. by rewrite Hfmt, replace_first_T_none.
Qed.

Lemma fmt_witness :
  fmt (Some "2024-04-10T08:15:00"%string) = "2024-04-10 08:15:00"%string.
Proof.
  apply (proj1 fmt_blanks_the_first_T "2024-04-10" "08:15:00"). reflexivity.
Defined.

(** ** The properties above on the sample data *)

Lemma remove_witness :
  pendingImages (remove_click (length (pendingImages Scene.desk))
                   (imageInput_change [Scene.cat] Scene.desk))
  = pendingImages Scene.desk.
Proof.
  apply (proj2 (proj2 (remove_deletes_by_position 0 Scene.desk)) Scene.cat
           {| filename := "cat.png"; caption := Some "A cat"%string; tags := Some [] |}).
  reflexivity.
Defined.

Lemma opened_entry_witness :
  pendingImages (app_desk (row_click (Body true 200 None Scene.walk) Scene.app))
  = staged_images (det_images Scene.walk) /\
  posted (app_desk (saveBtn_click Sample.now Sample.parse Sample.offline Scene.typeError
                      Scene.saved Scene.unreachable Scene.unreachable ""
                      (row_click (Body true 200 None Scene.walk) Scene.app)))
  = posted (app_desk Scene.app)
    ++ [ {| save_filename := det_audio_filename Scene.walk;
            save_transcript :=
              JsString.trim (default EmptyString (truthy (det_transcript Scene.walk)));
            save_images := staged_images (det_images Scene.walk) |} ].
Proof.
  apply (proj1 (opened_entry_is_saved_back Sample.now Sample.parse Sample.offline
                  Scene.typeError (Body true 200 None Scene.walk)
                  Scene.saved Scene.unreachable Scene.unreachable "" Scene.app)
           Scene.walk "r"%char "ec-0002.webm"%string); reflexivity.
Defined.

Lemma recording_save_witness :
  posted (app_desk
            (saveBtn_click Sample.now Sample.parse Sample.offline Scene.typeError
               Scene.saved Scene.unreachable Scene.unreachable ""
               {| app_page :=
                    page (recordBtn_click
                            (Sample.press Sample.first_id
                               (Sample.stop_with [] [] Sample.finalized))
                            Sample.one_slice_recorded);
                  app_desk := Scene.desk; app_store := Sample.journal |}))
  = posted Scene.desk
    ++ [ {| save_filename := Some "rec-0001.webm"%string;
            save_transcript :=
              JsString.trim (default EmptyString (truthy (Some "a walk in the rain"%string)));
            save_images := List.map staged (pendingImages Scene.desk) |} ].
Proof.
  destruct (recording_result_reaches_save Sample.now Sample.parse Sample.offline
              Scene.typeError
              (Sample.press Sample.first_id (Sample.stop_with [] [] Sample.finalized))
              Sample.one_slice_recorded Scene.desk Sample.journal
              Scene.saved Scene.unreachable Scene.unreachable "" eq_refl) as [Hok _].
  exact (Hok 200%nat _ eq_refl).
Defined.

Lemma upload_witness :
  transcriptBox (app_page (uploadBtn_click true Scene.upload Scene.app))
  = JsString.trim (default EmptyString (truthy (up_transcript Scene.memo))) /\
  posted (app_desk (saveBtn_click Sample.now Sample.parse Sample.offline Scene.typeError
                      Scene.saved Scene.unreachable Scene.unreachable ""
                      (uploadBtn_click true Scene.upload Scene.app)))
  = posted (app_desk Scene.app)
    ++ [ {| save_filename := up_filename Scene.memo;
            save_transcript :=
              JsString.trim (default EmptyString (truthy (up_transcript Scene.memo)));
            save_images := List.map staged (pendingImages (app_desk Scene.app)) |} ].
Proof.
  apply (proj1 (proj2 (upload_outcomes Sample.now Sample.parse Sample.offline
                         Scene.typeError Scene.upload Scene.app
                         Scene.saved Scene.unreachable Scene.unreachable ""))
           200%nat None Scene.memo "m"%char "emo.wav"%string); reflexivity.
Defined.

Lemma history_button_witness :
  historyBtn_click Sample.now Sample.parse Sample.offline Scene.typeError
    Scene.unreachable "" Scene.app
  = on_desk (set_historyPanel (PanelText (String.append "❌ " "Failed to fetch"))) Scene.app.
Proof.
  apply (proj1 (history_button_outcomes Sample.now Sample.parse Sample.offline
                  Scene.typeError Scene.unreachable "" Scene.app)).
  reflexivity.
Defined.

Lemma refresh_witness :
  exists a',
    refreshHistoryCache Sample.now Sample.parse Sample.online Scene.typeError
      Scene.listing "rain" Scene.app = (inr tt, a') /\
    allEntries (app_store a')
    = List.map (hydrate_with Sample.online)
        [cache_object {| listed_id := 7;
                         listed_created_at := Some "2024-04-10T08:15:00"%string;
                         listed_emotions_top3 := Some [ {| label := "joy" |} ] |}] /\
    fetchLog (app_store a')
    = fetchLog (app_store Scene.app)
      ++ List.map id
           [cache_object {| listed_id := 7;
                            listed_created_at := Some "2024-04-10T08:15:00"%string;
                            listed_emotions_top3 := Some [ {| label := "joy" |} ] |}] /\
    historyPanel (app_desk a')
    = renderHistoryList
        (List.filter (entry_ok (query_terms "rain"))
           (List.map (hydrate_with Sample.online)
              [cache_object {| listed_id := 7;
                               listed_created_at := Some "2024-04-10T08:15:00"%string;
                               listed_emotions_top3 := Some [ {| label := "joy" |} ] |}])).
Proof.
  apply (refresh_requests_every_entry_again Sample.now Sample.parse Sample.online
           Scene.typeError Scene.listing "rain" Scene.app).
  - reflexivity.
  - reflexivity.
  - reflexivity.
  - vm_compute. discriminate.
Defined.

Lemma delete_witness :
  delete_click Sample.now Sample.parse Sample.offline Scene.typeError
    false Scene.unreachable Scene.unreachable "" Scene.app
  = Scene.app.
Proof.
  apply (proj1 (delete_reports_success_or_failure Sample.now Sample.parse Sample.offline
                  Scene.typeError false Scene.unreachable Scene.unreachable ""
                  Scene.app)).
  reflexivity.
Defined.

Lemma selector_witness :
  shows_current (initModelSelector Scene.unreachable Scene.selector) /\
  shows_current (changes [("tiny"%string, Scene.unreachable);
                          ("medium.en"%string, Body true 200 None tt)]
                   (initModelSelector Scene.unreachable Scene.selector)).
Proof.
  destruct (selector_shows_active_model Scene.unreachable
              [("tiny"%string, Scene.unreachable);
               ("medium.en"%string, Body true 200 None tt)] Scene.selector)
    as (H1 & H2 & _).
  - repeat constructor; simpl; set_solver.
  - split; [exact H1 | exact H2].
Defined.
(** ** The click handlers as suspended processes *)

Lemma stop_branch_finish env w :
  stop_branch env w = stop_finish (finalize_result env) (stop_until_finalize env w).
Proof. reflexivity. Qed.

Lemma lookup_snoc {A} (l : list A) (x : A) : (l ++ [x]) !! length l = Some x.
Proof. by rewrite lookup_app_r, Nat.sub_diag by lia. Qed.

Lemma insert_snoc {A} (l : list A) (x y : A) : <[ length l := y ]> (l ++ [x]) = l ++ [y].
Proof.
  rewrite insert_app_r_alt by lia. by rewrite Nat.sub_diag.
Qed.

Lemma quiet_flushed (r : nat) (hs : list (option Suspended)) :
  Forall (fun s => s = None) hs ->
  List.map (fun s => match s with
                     | Some (AtFlushed r') => if (r' =? r)%nat then Some Flushed else s
                     | _ => s
                     end) hs = hs.
Proof. induction 1 as [|s hs -> _ IH]; simpl; [done |]. by rewrite IH. Qed.

Lemma quiet_stopped (r : nat) (hs : list (option Suspended)) :
  Forall (fun s => s = None) hs ->
  List.map (fun s => match s with
                     | Some (AtStopped r') => if (r' =? r)%nat then Some Stopped else s
                     | _ => s
                     end) hs = hs.
Proof. induction 1 as [|s hs -> _ IH]; simpl; [done |]. by rewrite IH. Qed.

Section MachineFacts.

Variable stop_when_inactive : Thrown unit.

Lemma play_app (m : Machine) (l1 l2 : list Happening) :
  play stop_when_inactive m (l1 ++ l2)
  = play stop_when_inactive (play stop_when_inactive m l1) l2.
Proof. apply foldl_app. Qed.

Lemma play_cons (m : Machine) (e : Happening) (l : list Happening) :
  play stop_when_inactive m (e :: l)
  = play stop_when_inactive (happen stop_when_inactive m e) l.
Proof. reflexivity. Qed.

(** Settling uploads leave the handlers where they are. *)
Lemma play_settled (l : list (nat * ChunkResult)) : forall w r s hs,
  play stop_when_inactive (Build_Machine w r s hs) (settled_events l)
  = Build_Machine (on_events w (settlements l)) r (rev (List.map fst l) ++ s) hs.
Proof.
  induction l as [|[p res] l IH]; intros w r s hs; [done |].
  simpl settled_events. rewrite play_cons. simpl happen. rewrite IH. simpl.
  by rewrite <- app_assoc.
Qed.

(** The events of a recording when no handler waits for a fragment. *)
Lemma play_recording (r' : nat) (evs : list PageEvent) : forall w r s hs x,
  Forall (fun s => s = None) hs ->
  match x with Some (AtFlushed _) => False | _ => True end ->
  play stop_when_inactive (Build_Machine w r s (hs ++ [x])) (recorder_events r' evs)
  = Build_Machine (on_events w evs) r (rev (settlers evs) ++ s) (hs ++ [x]).
Proof.
  induction evs as [|ev evs IH]; intros w r s hs x Hq Hx; [done |].
  simpl recorder_events. rewrite play_cons.
  destruct ev as [data | p res]; simpl happen.
  - unfold resolve_flushed, on_handlers, on_world. simpl.
    rewrite List.map_app, quiet_flushed by done. simpl.
    assert (Hsame : match x with
                    | Some (AtFlushed r'0) => if (r'0 =? r')%nat then Some Flushed else x
                    | _ => x
                    end = x) by (by destruct x as [[]|]).
    rewrite Hsame, IH by done. done.
  - rewrite IH by done. simpl. by rewrite <- app_assoc.
Qed.

Lemma happen_stop_click w r s hs :
  is_recording w = true ->
  happen stop_when_inactive (Build_Machine w r s hs) Clicked
  = Build_Machine
      (emit RequestData
         (with_page (fun p => set_status "Finalizing…" (set_button "● Record" p)) w))
      r s (hs ++ [Some (AtFlushed r)]).
Proof. intros Hr. simpl. unfold clicked. simpl. by rewrite Hr. Qed.

Lemma happen_start_click w r s hs :
  is_recording w = false ->
  happen stop_when_inactive (Build_Machine w r s hs) Clicked
  = Build_Machine w r s (hs ++ [Some AtGetUserMedia]).
Proof. intros Hr. simpl. unfold clicked. simpl. by rewrite Hr. Qed.

Lemma happen_microphone w r s hs env :
  getUserMedia env = inr tt ->
  happen stop_when_inactive (Build_Machine w r s (hs ++ [Some AtGetUserMedia]))
    (MicrophoneAnswered (length hs) env)
  = Build_Machine (start_branch env w) (S r) s (hs ++ [None]).
Proof.
  intros Hg. simpl. rewrite lookup_snoc. unfold after_getUserMedia. simpl.
  by rewrite Hg, insert_snoc.
Qed.

Lemma happen_flush w r s hs data :
  Forall (fun s => s = None) hs ->
  happen stop_when_inactive (Build_Machine w r s (hs ++ [Some (AtFlushed r)]))
    (FragmentDelivered r data)
  = Build_Machine (ondataavailable data w) r s (hs ++ [Some Flushed]).
Proof.
  intros Hq. simpl. unfold resolve_flushed, on_handlers, on_world. simpl.
  rewrite List.map_app, quiet_flushed by done. simpl. by rewrite Nat.eqb_refl.
Qed.

Lemma happen_resume_flushed w r s hs :
  mediaRecorder w = Some recording ->
  happen stop_when_inactive (Build_Machine w r s (hs ++ [Some Flushed])) (Resumed (length hs))
  = Build_Machine (emit StopRecorder (with_recorder (Some inactive) (emit AwaitFlushed w)))
      r s (hs ++ [Some (AtStopped r)]).
Proof.
  intros Hm. simpl. rewrite lookup_snoc. unfold after_flushed. simpl. rewrite Hm.
  unfold set_handler, on_handlers. simpl. by rewrite insert_snoc.
Qed.

Lemma happen_stopped w r s hs :
  Forall (fun s => s = None) hs ->
  happen stop_when_inactive (Build_Machine w r s (hs ++ [Some (AtStopped r)]))
    (RecorderStopped r)
  = Build_Machine (emit ReleaseMicrophone w) r s (hs ++ [Some Stopped]).
Proof.
  intros Hq. simpl. unfold resolve_stopped, on_handlers, on_world. simpl.
  rewrite List.map_app, quiet_stopped by done. simpl. by rewrite Nat.eqb_refl.
Qed.

Lemma happen_resume_stopped w r s hs :
  happen stop_when_inactive (Build_Machine w r s (hs ++ [Some Stopped])) (Resumed (length hs))
  = Build_Machine (uploadCumulativeBlob (emit AwaitStopped w)) r s (hs ++ [Some Uploaded]).
Proof.
  simpl. rewrite lookup_snoc. unfold after_stopped, set_handler, on_handlers. simpl.
  by rewrite insert_snoc.
Qed.

Lemma happen_resume_uploaded w r s hs :
  happen stop_when_inactive (Build_Machine w r s (hs ++ [Some Uploaded])) (Resumed (length hs))
  = match pendingUploads (session w) with
    | [] =>
        Build_Machine (emit (FinalizeCall (liveSessionId (session w))) w) r s
          (hs ++ [Some AtFinalize])
    | ps =>
        Build_Machine (emit (AwaitAllSettled ps) w) r s (hs ++ [Some (AtAllSettled ps)])
    end.
Proof.
  simpl. rewrite lookup_snoc. unfold after_uploaded, send_finalize, set_handler, on_handlers.
  simpl. destruct (pendingUploads (session w)); simpl; by rewrite insert_snoc.
Qed.

Lemma happen_resume_settled w r s hs ps :
  happen stop_when_inactive (Build_Machine w r s (hs ++ [Some (AtAllSettled ps)]))
    (Resumed (length hs))
  = if all_settled s ps
    then Build_Machine (emit (FinalizeCall (liveSessionId (session w))) w) r s
           (hs ++ [Some AtFinalize])
    else Build_Machine w r s (hs ++ [Some (AtAllSettled ps)]).
Proof.
  simpl. rewrite lookup_snoc. unfold after_allSettled, all_settled. simpl.
  destruct (forallb _ ps); [| done].
  unfold send_finalize, set_handler, on_handlers. simpl. by rewrite insert_snoc.
Qed.

Lemma happen_finalize w r s hs res :
  happen stop_when_inactive (Build_Machine w r s (hs ++ [Some AtFinalize]))
    (FinalizeAnswered (length hs) res)
  = Build_Machine (stop_finish res w) r s (hs ++ [None]).
Proof.
  simpl. rewrite lookup_snoc. unfold after_finalize, set_handler, on_handlers. simpl.
  by rewrite insert_snoc.
Qed.

(** A stop click up to the final upload, no other click being
    handled: the page is where the first three steps of the stop
    branch leave it, and the handler is about to look at the tracked
    uploads. *)
Lemma play_stop_to_upload env w r s hs :
  Forall (fun s => s = None) hs ->
  is_recording w = true ->
  play stop_when_inactive (Build_Machine w r s hs)
    (stop_schedule_to_upload (length hs) r env)
  = Build_Machine (stop_final_upload env (stop_release env (stop_flush env w))) r
      (rev (List.map fst (while_uploading env)) ++ rev (settlers (while_stopping env)) ++
       rev (List.map fst (while_flushing env)) ++ s)
      (hs ++ [Some Uploaded]).
Proof.
  intros Hq Hr. unfold stop_schedule_to_upload.
  rewrite play_cons, happen_stop_click by done.
  rewrite play_app, play_settled.
  rewrite play_app. rewrite play_cons, happen_flush by done.
  rewrite play_cons, happen_resume_flushed.
  2:{ destruct (on_events_fields [DataAvailable (flush_data env)]
                  (on_events
                     (emit RequestData
                        (with_page (fun p => set_status "Finalizing…"
                                               (set_button "● Record" p)) w))
                     (settlements (while_flushing env)))) as (Hm & _).
      simpl in Hm. rewrite Hm.
      destruct (on_settlements_frame (while_flushing env)
                  (emit RequestData
                     (with_page (fun p => set_status "Finalizing…"
                                            (set_button "● Record" p)) w)))
        as (-> & _).
      simpl. unfold is_recording in Hr. by destruct (mediaRecorder w) as [[]|]. }
  simpl play at 2.
  rewrite play_app, play_recording by done.
  rewrite play_app, play_cons, happen_stopped by done.
  rewrite play_cons, happen_resume_stopped. simpl play at 2.
  rewrite play_settled. reflexivity.
Qed.

End MachineFacts.
Section StopFacts.

Variable stop_when_inactive : Thrown unit.

Lemma happen_resume_at_finalize w r s hs :
  happen stop_when_inactive (Build_Machine w r s (hs ++ [Some AtFinalize])) (Resumed (length hs))
  = Build_Machine w r s (hs ++ [Some AtFinalize]).
Proof. simpl. by rewrite lookup_snoc. Qed.

Lemma happen_finalize_at_wait w r s hs ps res :
  happen stop_when_inactive (Build_Machine w r s (hs ++ [Some (AtAllSettled ps)]))
    (FinalizeAnswered (length hs) res)
  = Build_Machine w r s (hs ++ [Some (AtAllSettled ps)]).
Proof. simpl. by rewrite lookup_snoc. Qed.

(** After the first three steps of the stop the recorder is inactive. *)
Lemma stop_upload_inactive env w :
  is_recording (stop_final_upload env (stop_release env (stop_flush env w))) = false.
Proof.
  destruct (stop_release_fields env (stop_flush env w)) as (Hm & _).
  destruct (stop_final_upload_fields env (stop_release env (stop_flush env w)))
    as (Hm' & _).
  cbv zeta in Hm, Hm'. unfold is_recording. by rewrite Hm', Hm.
Qed.

(** The whole stop, no other click being handled: when the tracked
    uploads have settled by the end of the settle-wait, the page is
    where the stop branch run without interruption leaves it and the
    handler has finished; otherwise the handler is still suspended at
    the settle-wait and the page is as it was when the wait began. *)
Lemma play_stop env w r s hs :
  Forall (fun s => s = None) hs ->
  is_recording w = true ->
  let w3 := stop_final_upload env (stop_release env (stop_flush env w)) in
  let tracked := pendingUploads (session w3) in
  play stop_when_inactive (Build_Machine w r s hs) (stop_schedule (length hs) r env)
  = if all_settled (settled_by s env) tracked
    then Build_Machine (stop_branch env w) r
           (rev (List.map fst (while_finalizing env)) ++ settled_by s env) (hs ++ [None])
    else Build_Machine (stop_settle env w3) r
           (rev (List.map fst (while_finalizing env)) ++ settled_by s env)
           (hs ++ [Some (AtAllSettled tracked)]).
Proof.
  intros Hq Hr w3 tracked. unfold stop_schedule, stop_schedule_to_wait.
  rewrite <- !app_assoc.
  rewrite play_app, play_stop_to_upload by done. fold w3.
  pose proof (stop_upload_inactive env w) as Hidle. fold w3 in Hidle.
  rewrite play_app. rewrite play_cons, happen_resume_uploaded. fold tracked.
  simpl play at 2.
  assert (Hidle' : forall a, is_recording (emit a w3) = false) by done.
  rewrite stop_branch_finish. unfold stop_until_finalize, stop_send_finalize.
  fold w3. unfold stop_settle. fold tracked.
  destruct tracked as [|p ps] eqn:Htr.
  - change (all_settled (settled_by s env) []) with true. cbv iota.
    rewrite play_app, play_settled, on_settlements_idle by done.
    rewrite play_app, play_cons, happen_resume_at_finalize. simpl play at 2.
    rewrite play_app, play_settled, on_settlements_idle by done.
    rewrite play_cons, happen_finalize. reflexivity.
  - rewrite play_app, play_settled.
    rewrite play_app, play_cons, happen_resume_settled.
    change (rev (List.map fst (while_settling env)) ++
            rev (List.map fst (while_uploading env)) ++
            rev (settlers (while_stopping env)) ++
            rev (List.map fst (while_flushing env)) ++ s) with (settled_by s env).
    destruct (all_settled (settled_by s env) (p :: ps)).
    + change (play stop_when_inactive ?m []) with m.
      rewrite play_app, play_settled.
      rewrite play_cons, happen_finalize. reflexivity.
    + change (play stop_when_inactive ?m []) with m.
      rewrite play_app, play_settled.
      rewrite play_cons, happen_finalize_at_wait.
      change (play stop_when_inactive ?m []) with m.
      rewrite (on_settlements_idle (while_finalizing env)); [reflexivity |].
      by rewrite on_settlements_idle.
Qed.

(** The handler run without interruption is the handler of the
    machine on a schedule without a further click on which the tracked
    uploads settle in time. *)
Lemma uninterrupted_stop (env : ClickEnv) (m : Machine) :
  quiescent m ->
  is_recording (world m) = true ->
  all_settled (settled_by (settled m) (for_stop env))
    (pendingUploads
       (session (world (play stop_when_inactive m
                          (stop_schedule_to_upload (length (handlers m)) (recorder m)
                             (for_stop env)))))) = true ->
  world (play stop_when_inactive m
           (stop_schedule (length (handlers m)) (recorder m) (for_stop env)))
  = recordBtn_click env (world m) /\
  handlers (play stop_when_inactive m
              (stop_schedule (length (handlers m)) (recorder m) (for_stop env)))
  = handlers m ++ [None].
Proof.
  destruct m as [w r s hs]. unfold quiescent.
  cbn [world handlers recorder settled]. intros Hq Hr.
  rewrite play_stop_to_upload, play_stop by done.
  cbn [world handlers recorder settled]. intros ->.
  cbn [world handlers recorder settled].
  unfold recordBtn_click. by rewrite Hr.
Qed.

Lemma uninterrupted_start (env : ClickEnv) (m : Machine) :
  is_recording (world m) = false ->
  getUserMedia (for_start env) = inr tt ->
  play stop_when_inactive m (start_schedule (length (handlers m)) (for_start env))
  = Build_Machine (recordBtn_click env (world m)) (S (recorder m)) (settled m)
      (handlers m ++ [None]).
Proof.
  destruct m as [w r s hs]. cbn [world handlers recorder settled].
  intros Hr Hg. unfold start_schedule.
  rewrite play_cons, happen_start_click by done.
  rewrite play_cons, happen_microphone by done.
  unfold recordBtn_click. by rewrite Hr.
Qed.


End StopFacts.
Section Sessions.

Variable stop_when_inactive : Thrown unit.



End Sessions.




(** The same run in both descriptions of the handler. *)
Lemma stopped_at_once_agrees : world Replay.stopped_at_once = Sample.stopped_at_once.
Proof. vm_compute. reflexivity. Qed.

(** A stop overtaken by a click: the button is live while the stop is
    suspended, the click starts the next session, and the stop, when it
    continues, sends its finalize request with the identifier of that
    session, none being sent for the session that was stopped. *)
Lemma overtaken_stop_finalizes_next_session :
  List.filter is_finalize (trace (world Replay.overtaken))
  = [FinalizeCall (Some Sample.second_id)] /\
  handlers Replay.overtaken = [None; None; None] /\
  mediaRecorder (world Replay.overtaken) = Some recording /\
  liveSessionId (session (world Replay.overtaken)) = None.
Proof. by vm_compute. Qed.


